(** * Matter Playground: scene model / live-simulation synchronisation

    A shallow embedding of the [Playground] class of [src/main.js]: the
    scene model (objects, links, id counters), the table of live
    simulation handles, the selection, the undo/redo history and the
    JSON scene codec.

    Conventions of the embedding.
    - JavaScript numbers that carry geometry or material parameters are
      real numbers ([R]); the id counters and polygon side counts are
      integers ([Z]).  The source holds the counters in doubles, which
      agree with the integers up to 2^53 (the range [safe_number]).
    - Strings are sequences of 8-bit characters.  On ASCII strings
      ([ascii_only]) [parseInt] and [split] are what the source
      computes.
    - [this.bodyMap] and [this.linkMap] (JS [Map]s keyed by id strings)
      are [gmap string _]; no modelled operation depends on their
      iteration order.
    - A method that mutates [this] is a function from [Playground] to
      [Playground]; [forEach] loops are left folds.
    - [JSON.parse(JSON.stringify(v))] is the identity on the immutable
      values of the embedding: it is the deep copy the source uses to
      detach a snapshot from the live arrays.
    - Rendering ([body.render], the inspector, the ghost canvas) is not
      part of the model; [updateSelectionVisuals], [showInspector] and
      [syncInspector] only write there and are therefore omitted.
    - Matter.js is an external library: bodies, constraints and the
      world appear through the operations the editor calls on them
      (module [Matter]). *)

From Stdlib Require Import ZArith String Ascii List Reals Lra Lia.
From stdpp Require Import gmap strings list fin_maps pretty.

Open Scope Z_scope.

(** ** JavaScript helpers *)

Module JS.

(** [a || b] on numbers known to be integers: [0] is the only falsy one. *)
Definition or_num (a b : Z) : Z := if Z.eqb a 0 then b else a.

(** [opt || b] where [opt] may be [undefined]. *)
Definition or_opt_num (a : option Z) (b : Z) : Z :=
  match a with
  | Some v => or_num v b
  | None => b
  end.

(** [s.split(sep)] for a one-character separator: the result is never
    empty, [''.split('-')] is [['']].  [cur] holds the characters of the
    current piece, last one first. *)
Fixpoint split_go (sep : ascii) (cur : list ascii) (s : string) : list string :=
  match s with
  | EmptyString => [string_of_list_ascii (List.rev cur)]
  | String c rest =>
      if Ascii.eqb c sep
      then string_of_list_ascii (List.rev cur) :: split_go sep [] rest
      else split_go sep (c :: cur) rest
  end.

Definition split (sep : ascii) (s : string) : list string :=
  split_go sep [] s.

(** White space skipped by [parseInt] (the ASCII members of the
    ECMAScript [WhiteSpace] and [LineTerminator] classes). *)
Definition is_space (c : ascii) : bool :=
  let n := nat_of_ascii c in
  ((9 <=? n)%nat && (n <=? 13)%nat) || (n =? 32)%nat.

Fixpoint skip_space (s : string) : string :=
  match s with
  | String c rest => if is_space c then skip_space rest else s
  | EmptyString => s
  end.

Definition digit (c : ascii) : option Z :=
  let n := nat_of_ascii c in
  if ((48 <=? n)%nat && (n <=? 57)%nat) then Some (Z.of_nat (n - 48)) else None.

(** The longest prefix of decimal digits, as a number; [None] when the
    string does not start with a digit. *)
Fixpoint digits (acc : option Z) (s : string) : option Z :=
  match s with
  | String c rest =>
      match digit c with
      | Some d => digits (Some (10 * default 0 acc + d)) rest
      | None => acc
      end
  | EmptyString => acc
  end.

(** [parseInt(s, 10)]; [None] stands for [NaN].  The value is exact (the
    source computes it as a double, exact up to 2^53), and the white
    space skipped is the ASCII one. *)
Definition parseInt (s : string) : option Z :=
  match skip_space s with
  | String "-" rest => Z.opp <$> digits None rest
  | String "+" rest => digits None rest
  | t => digits None t
  end.

(** [ToString] of a possibly [undefined] string: [parseInt(undefined)]
    parses the text ["undefined"]. *)
Definition to_string (v : option string) : string :=
  match v with
  | Some s => s
  | None => "undefined"
  end.

(** [Math.max(-1, ...ids)] *)
Definition max_from (init : Z) (l : list Z) : Z := foldl Z.max init l.

(** [arr.slice(0, e)] *)
Definition slice0 {A} (e : Z) (l : list A) : list A :=
  if Z.ltb e 0
  then take (Z.to_nat (Z.max (Z.of_nat (length l) + e) 0)) l
  else take (Z.to_nat e) l.

End JS.


(** ** Data model *)

Record Vec := mkVec { vx : R; vy : R }.

Inductive BodyType := dynamic | static | sensor.

#[global] Instance BodyType_eq_dec : EqDecision BodyType.
Proof. solve_decision. Defined.

(** [shape]: a tagged object [{type, radius | width, height | sides, radius}]. *)
Inductive Shape :=
  | circle (radius : R)
  | rectangle (width height : R)
  | polygon (sides : Z) (radius : R).

Inductive ShapeType := t_circle | t_rectangle | t_polygon.

Definition shape_type (s : Shape) : ShapeType :=
  match s with
  | circle _ => t_circle
  | rectangle _ _ => t_rectangle
  | polygon _ _ => t_polygon
  end.

Definition shape_label (t : ShapeType) : string :=
  match t with
  | t_circle => "circle"
  | t_rectangle => "rectangle"
  | t_polygon => "polygon"
  end.

Record Physics := mkPhysics {
  restitution : R;
  friction : R;
  frictionAir : R;
  frictionStatic : R;
  density : R
}.

Inductive RenderMode := solid | outline | gradient.

Record Visual := mkVisual {
  fill : string;
  stroke : string;
  strokeWidth : R;
  opacity : R;
  renderMode : RenderMode
}.

Definition DEFAULT_PHYSICS : Physics :=
  mkPhysics 0.2 0.1 0.01 0.5 0.001.

Definition DEFAULT_VISUAL : Visual :=
  mkVisual "#4f46e5" "#111827" 2 1 solid.

(** One entry of [this.objects]. *)
Record SceneObject := mkObject {
  o_id : string;
  o_label : string;
  o_position : Vec;
  o_angle : R;
  o_bodyType : BodyType;
  o_locked : bool;
  o_shape : Shape;
  o_physics : Physics;
  o_visual : Visual
}.

(** [link.options]; the field [length] of the source is [o_length]. *)
Record LinkOptions := mkOptions {
  stiffness : R;
  damping : R;
  o_length : R
}.

(** One entry of [this.links]. *)
Record SpringLink := mkLink {
  l_id : string;
  l_a : string;
  l_b : string;
  l_options : LinkOptions
}.

(** An entry of [this.history], and the argument of [applySnapshot]. *)
Record Snapshot := mkSnapshot {
  s_objects : list SceneObject;
  s_links : list SpringLink;
  s_nextId : Z;
  s_nextLinkId : Z
}.

(** A parsed scene document: every key may be missing.  What a key
    holds is well formed: objects and links are records with every field
    the editor writes, the counters are integers.  A document with
    malformed content under a key it has (on which [applySnapshot] or
    [inferNextId] throws half way and the handler of [loadScene] shows
    the alert) has no counterpart in this type. *)
Record Document := mkDocument {
  d_objects : option (list SceneObject);
  d_links : option (list SpringLink);
  d_nextId : option Z;
  d_nextLinkId : option Z
}.

(** ** The simulation engine (Matter.js), at its interface *)

(** Handles are the engine's own body and constraint ids. *)
Definition Handle := positive.

(** What [Bodies.circle], [Bodies.rectangle] and [Bodies.polygon] were
    called with. *)
Inductive Geometry :=
  | g_circle (r : R)
  | g_rectangle (w h : R)
  | g_polygon (sides : Z) (r : R).

(** The options object [opts] of [buildBody] (without [render]). *)
Record BodyOpts := mkOpts {
  opt_restitution : R;
  opt_friction : R;
  opt_frictionAir : R;
  opt_frictionStatic : R;
  opt_density : R;
  isStatic : bool;
  isSensor : bool
}.

Record Plugin := mkPlugin { modelId : string; locked : bool }.

(** A live body.  A body without [plugin.modelId] (a boundary wall) has
    the empty string there, which is falsy like [undefined]. *)
Record Body := mkBody {
  b_handle : Handle;
  b_geometry : Geometry;
  b_opts : BodyOpts;
  b_position : Vec;
  b_velocity : Vec;
  b_angle : R;
  b_angularVelocity : R;
  b_plugin : Plugin
}.

(** A live spring constraint between two bodies. *)
Record Constraint := mkConstraint {
  c_handle : Handle;
  c_bodyA : Handle;
  c_bodyB : Handle;
  c_options : LinkOptions
}.

(** [this.engine.world] together with the engine's id counter. *)
Record World := mkWorld {
  w_bodies : gset Handle;
  w_constraints : gset Handle;
  w_next : Handle
}.

Module Matter.

(** Modelled from the spec: the Simulation Adapter contract
    [createBody(geometry, material, flags) -> Handle].  Matter.js is
    loaded from a CDN and is not part of the repository; a new body sits
    at the given centre, at rest, with angle 0 and an empty plugin. *)
Definition Bodies_create (h : Handle) (px py : R) (g : Geometry) (opts : BodyOpts) : Body :=
  mkBody h g opts (mkVec px py) (mkVec 0 0) 0%R 0%R (mkPlugin "" false).

(** Modelled from the spec: [setKinematics(Handle, position, velocity,
    angle, angularVelocity)], split into the four setters of the engine;
    each writes its own component. *)
Definition Body_setPosition (b : Body) (p : Vec) : Body :=
  mkBody (b_handle b) (b_geometry b) (b_opts b) p (b_velocity b)
         (b_angle b) (b_angularVelocity b) (b_plugin b).

Definition Body_setVelocity (b : Body) (v : Vec) : Body :=
  mkBody (b_handle b) (b_geometry b) (b_opts b) (b_position b) v
         (b_angle b) (b_angularVelocity b) (b_plugin b).

Definition Body_setAngularVelocity (b : Body) (w : R) : Body :=
  mkBody (b_handle b) (b_geometry b) (b_opts b) (b_position b) (b_velocity b)
         (b_angle b) w (b_plugin b).

Definition Body_setAngle (b : Body) (a : R) : Body :=
  mkBody (b_handle b) (b_geometry b) (b_opts b) (b_position b) (b_velocity b)
         a (b_angularVelocity b) (b_plugin b).

(** [body.plugin = p] *)
Definition set_plugin (b : Body) (p : Plugin) : Body :=
  mkBody (b_handle b) (b_geometry b) (b_opts b) (b_position b) (b_velocity b)
         (b_angle b) (b_angularVelocity b) p.

(** Modelled from the spec: [createSpring(HandleA, HandleB, stiffness,
    damping, length) -> SpringHandle]. *)
Definition Constraint_create (h : Handle) (a b : Body) (o : LinkOptions) : Constraint :=
  mkConstraint h (b_handle a) (b_handle b) o.

(** [Common.nextId()]: the engine numbers what it creates. *)
Definition fresh (w : World) : Handle * World :=
  (w_next w, mkWorld (w_bodies w) (w_constraints w) (Pos.succ (w_next w))).

(** [World.add(world, body)] and [World.remove(world, body)] *)
Definition add_body (h : Handle) (w : World) : World :=
  mkWorld ({[h]} ∪ w_bodies w) (w_constraints w) (w_next w).

Definition remove_body (h : Handle) (w : World) : World :=
  mkWorld (w_bodies w ∖ {[h]}) (w_constraints w) (w_next w).

Definition add_constraint (h : Handle) (w : World) : World :=
  mkWorld (w_bodies w) ({[h]} ∪ w_constraints w) (w_next w).

Definition remove_constraint (h : Handle) (w : World) : World :=
  mkWorld (w_bodies w) (w_constraints w ∖ {[h]}) (w_next w).

(** [Math.hypot(dx, dy)] and [Math.min] on real numbers. *)
Definition hypot (dx dy : R) : R := sqrt (dx * dx + dy * dy).

End Matter.

(** The kinematic state that [rebuildBody] captures. *)
Record Kinematics := mkKin {
  k_position : Vec;
  k_velocity : Vec;
  k_angularVelocity : R;
  k_angle : R
}.

Definition kinematics (b : Body) : Kinematics :=
  mkKin (b_position b) (b_velocity b) (b_angularVelocity b) (b_angle b).

(** ** The editor state *)

(** The fields of [Playground] that the model layer reads or writes.
    [bounds] holds the handles of the four boundary walls and [hint] is
    the text of the hint element ([showHint]). *)
Record Playground := mkPlayground {
  objects : list SceneObject;
  links : list SpringLink;
  bodyMap : gmap string Body;
  linkMap : gmap string Constraint;
  selectedIds : list string;
  constraintAnchor : option Body;
  history : list Snapshot;
  historyIndex : Z;
  nextId : Z;
  nextLinkId : Z;
  world : World;
  bounds : list Handle;
  hint : string
}.

(** Assignments [this.f = v], one per field. *)
Definition set_objects (v : list SceneObject) (st : Playground) : Playground :=
  mkPlayground v (links st) (bodyMap st) (linkMap st) (selectedIds st) (constraintAnchor st) (history st) (historyIndex st) (nextId st) (nextLinkId st) (world st) (bounds st) (hint st).

Definition set_links (v : list SpringLink) (st : Playground) : Playground :=
  mkPlayground (objects st) v (bodyMap st) (linkMap st) (selectedIds st) (constraintAnchor st) (history st) (historyIndex st) (nextId st) (nextLinkId st) (world st) (bounds st) (hint st).

Definition set_bodyMap (v : gmap string Body) (st : Playground) : Playground :=
  mkPlayground (objects st) (links st) v (linkMap st) (selectedIds st) (constraintAnchor st) (history st) (historyIndex st) (nextId st) (nextLinkId st) (world st) (bounds st) (hint st).

Definition set_linkMap (v : gmap string Constraint) (st : Playground) : Playground :=
  mkPlayground (objects st) (links st) (bodyMap st) v (selectedIds st) (constraintAnchor st) (history st) (historyIndex st) (nextId st) (nextLinkId st) (world st) (bounds st) (hint st).

Definition set_selectedIds (v : list string) (st : Playground) : Playground :=
  mkPlayground (objects st) (links st) (bodyMap st) (linkMap st) v (constraintAnchor st) (history st) (historyIndex st) (nextId st) (nextLinkId st) (world st) (bounds st) (hint st).

Definition set_constraintAnchor (v : option Body) (st : Playground) : Playground :=
  mkPlayground (objects st) (links st) (bodyMap st) (linkMap st) (selectedIds st) v (history st) (historyIndex st) (nextId st) (nextLinkId st) (world st) (bounds st) (hint st).

Definition set_history (v : list Snapshot) (st : Playground) : Playground :=
  mkPlayground (objects st) (links st) (bodyMap st) (linkMap st) (selectedIds st) (constraintAnchor st) v (historyIndex st) (nextId st) (nextLinkId st) (world st) (bounds st) (hint st).

Definition set_historyIndex (v : Z) (st : Playground) : Playground :=
  mkPlayground (objects st) (links st) (bodyMap st) (linkMap st) (selectedIds st) (constraintAnchor st) (history st) v (nextId st) (nextLinkId st) (world st) (bounds st) (hint st).

Definition set_nextId (v : Z) (st : Playground) : Playground :=
  mkPlayground (objects st) (links st) (bodyMap st) (linkMap st) (selectedIds st) (constraintAnchor st) (history st) (historyIndex st) v (nextLinkId st) (world st) (bounds st) (hint st).

Definition set_nextLinkId (v : Z) (st : Playground) : Playground :=
  mkPlayground (objects st) (links st) (bodyMap st) (linkMap st) (selectedIds st) (constraintAnchor st) (history st) (historyIndex st) (nextId st) v (world st) (bounds st) (hint st).

Definition set_world (v : World) (st : Playground) : Playground :=
  mkPlayground (objects st) (links st) (bodyMap st) (linkMap st) (selectedIds st) (constraintAnchor st) (history st) (historyIndex st) (nextId st) (nextLinkId st) v (bounds st) (hint st).

Definition set_bounds (v : list Handle) (st : Playground) : Playground :=
  mkPlayground (objects st) (links st) (bodyMap st) (linkMap st) (selectedIds st) (constraintAnchor st) (history st) (historyIndex st) (nextId st) (nextLinkId st) (world st) v (hint st).

Definition set_hint (v : string) (st : Playground) : Playground :=
  mkPlayground (objects st) (links st) (bodyMap st) (linkMap st) (selectedIds st) (constraintAnchor st) (history st) (historyIndex st) (nextId st) (nextLinkId st) (world st) (bounds st) v.

(** ** Model operations *)

(** The template literals [`obj-${n}`] and [`link-${n}`].  [pretty]
    prints every decimal digit of [n]; the source prints a double, which
    has these digits for an integer of absolute value below 2^53 (from
    1e21 on it prints an exponent). *)
Definition objId (n : Z) : string := "obj-" +:+ pretty n.
Definition linkId (n : Z) : string := "link-" +:+ pretty n.

(** [this.objects.find((o) => o.id === id)] *)
Definition find_object (id : string) (objs : list SceneObject) : option SceneObject :=
  List.find (fun o => String.eqb (o_id o) id) objs.

(** The effect on [this.objects] of mutating the object that [find]
    returned: the first entry with that id is replaced. *)
Fixpoint update_object (id : string) (f : SceneObject -> SceneObject)
    (objs : list SceneObject) : list SceneObject :=
  match objs with
  | [] => []
  | o :: rest =>
      if String.eqb (o_id o) id then f o :: rest
      else o :: update_object id f rest
  end.

Definition set_o_position (p : Vec) (o : SceneObject) : SceneObject :=
  mkObject (o_id o) (o_label o) p (o_angle o) (o_bodyType o) (o_locked o)
           (o_shape o) (o_physics o) (o_visual o).

Definition set_o_angle (a : R) (o : SceneObject) : SceneObject :=
  mkObject (o_id o) (o_label o) (o_position o) a (o_bodyType o) (o_locked o)
           (o_shape o) (o_physics o) (o_visual o).

Definition set_o_physics (ph : Physics) (o : SceneObject) : SceneObject :=
  mkObject (o_id o) (o_label o) (o_position o) (o_angle o) (o_bodyType o) (o_locked o)
           (o_shape o) ph (o_visual o).

Definition set_o_visual (v : Visual) (o : SceneObject) : SceneObject :=
  mkObject (o_id o) (o_label o) (o_position o) (o_angle o) (o_bodyType o) (o_locked o)
           (o_shape o) (o_physics o) v.

Definition set_o_bodyType (t : BodyType) (o : SceneObject) : SceneObject :=
  mkObject (o_id o) (o_label o) (o_position o) (o_angle o) t (o_locked o)
           (o_shape o) (o_physics o) (o_visual o).

Definition set_o_locked (l : bool) (o : SceneObject) : SceneObject :=
  mkObject (o_id o) (o_label o) (o_position o) (o_angle o) (o_bodyType o) l
           (o_shape o) (o_physics o) (o_visual o).

Definition set_o_shape (sh : Shape) (o : SceneObject) : SceneObject :=
  mkObject (o_id o) (o_label o) (o_position o) (o_angle o) (o_bodyType o) (o_locked o)
           sh (o_physics o) (o_visual o).

Definition set_o_label (l : string) (o : SceneObject) : SceneObject :=
  mkObject (o_id o) l (o_position o) (o_angle o) (o_bodyType o) (o_locked o)
           (o_shape o) (o_physics o) (o_visual o).

Definition set_o_id (i : string) (o : SceneObject) : SceneObject :=
  mkObject i (o_label o) (o_position o) (o_angle o) (o_bodyType o) (o_locked o)
           (o_shape o) (o_physics o) (o_visual o).

(** [showHint(text)] *)
Definition showHint (text : string) (st : Playground) : Playground :=
  set_hint text st.

(** [createModel({ position, shape, bodyType })] *)
Definition createModel (position : Vec) (shape : Shape) (bodyType : BodyType)
    (st : Playground) : SceneObject * Playground :=
  let id := objId (nextId st) in
  (mkObject id (shape_label (shape_type shape)) position 0%R bodyType false
            shape DEFAULT_PHYSICS DEFAULT_VISUAL,
   set_nextId (nextId st + 1) st).

(** The options object [opts] of [buildBody]. *)
Definition opts_of (model : SceneObject) : BodyOpts :=
  let ph := o_physics model in
  mkOpts (restitution ph) (friction ph) (frictionAir ph)
         (frictionStatic ph) (density ph)
         (bool_decide (o_bodyType model = static))
         (bool_decide (o_bodyType model = sensor)).

(** The body that [buildBody] returns when the engine numbers it [h]. *)
Definition body_of (model : SceneObject) (h : Handle) : Body :=
  let opts := opts_of model in
  let px := vx (o_position model) in
  let py := vy (o_position model) in
  let body :=
    match o_shape model with
    | circle r => Matter.Bodies_create h px py (g_circle r) opts
    | rectangle w ht => Matter.Bodies_create h px py (g_rectangle w ht) opts
    | polygon sides r =>
        Matter.Bodies_create h px py (g_polygon (Z.max 3 (JS.or_num sides 5)) r) opts
    end in
  let body :=
    if Req_dec_T (o_angle model) 0 then body
    else Matter.Body_setAngle body (o_angle model) in
  Matter.set_plugin body (mkPlugin (o_id model) (o_locked model)).

(** The arguments [buildBody] hands to [Bodies.circle], [Bodies.rectangle]
    or [Bodies.polygon]. *)
Definition geometry_of (sh : Shape) : Geometry :=
  match sh with
  | circle r => g_circle r
  | rectangle w ht => g_rectangle w ht
  | polygon sides r => g_polygon (Z.max 3 (JS.or_num sides 5)) r
  end.

(** [buildBody(model)]: the engine allocates the handle. *)
Definition buildBody (model : SceneObject) (st : Playground) : Body * Playground :=
  let (h, w) := Matter.fresh (world st) in
  (body_of model h, set_world w st).

(** [addModelToWorld(model)] *)
Definition addModelToWorld (model : SceneObject) (st : Playground) : Playground :=
  let st := set_objects (objects st ++ [model]) st in
  let (body, st) := buildBody model st in
  let st := set_world (Matter.add_body (b_handle body) (world st)) st in
  set_bodyMap (<[o_id model := body]> (bodyMap st)) st.

(** [handleSelection(id, additive = false)] *)
Definition handleSelection (id : string) (additive : bool) (st : Playground) : Playground :=
  if additive then
    if bool_decide (id ∈ selectedIds st) then st
    else set_selectedIds (selectedIds st ++ [id]) st
  else set_selectedIds [id] st.

(** [clearSelection()] *)
Definition clearSelection (st : Playground) : Playground :=
  set_constraintAnchor None (set_selectedIds [] st).

(** [attachLink(link)] *)
Definition attachLink (link : SpringLink) (st : Playground) : Playground :=
  match bodyMap st !! l_a link, bodyMap st !! l_b link with
  | Some bodyA, Some bodyB =>
      let (h, w) := Matter.fresh (world st) in
      let constraint := Matter.Constraint_create h bodyA bodyB (l_options link) in
      let st := set_world w st in
      let st := set_linkMap (<[l_id link := constraint]> (linkMap st)) st in
      set_world (Matter.add_constraint h (world st)) st
  | _, _ => st
  end.

Definition touches (modelId : string) (link : SpringLink) : bool :=
  String.eqb (l_a link) modelId || String.eqb (l_b link) modelId.

(** [refreshLinksFor(modelId)] *)
Definition refreshLinksFor (modelId : string) (st : Playground) : Playground :=
  foldl (fun st link =>
           if touches modelId link then
             let st :=
               match linkMap st !! l_id link with
               | Some existing =>
                   set_world (Matter.remove_constraint (c_handle existing) (world st)) st
               | None => st
               end in
             attachLink link st
           else st)
        st (links st).

(** The callback of the loop in [removeLinksFor(modelId)]. *)
Definition removeLinksFor_each (modelId : string) (st : Playground)
    (link : SpringLink) : Playground :=
  if touches modelId link then
    let st :=
      match linkMap st !! l_id link with
      | Some existing =>
          set_world (Matter.remove_constraint (c_handle existing) (world st)) st
      | None => st
      end in
    set_linkMap (delete (l_id link) (linkMap st)) st
  else st.

(** [removeLinksFor(modelId)] *)
Definition removeLinksFor (modelId : string) (st : Playground) : Playground :=
  let st' := foldl (removeLinksFor_each modelId) st (links st) in
  set_links (filter (fun link => negb (touches modelId link)) (links st)) st'.

(** [rebuildBody(model)] *)
Definition rebuildBody (model : SceneObject) (st : Playground) : Playground :=
  match bodyMap st !! o_id model with
  | None => st
  | Some existing =>
      let state := kinematics existing in
      let st := set_world (Matter.remove_body (b_handle existing) (world st)) st in
      let (body, st) := buildBody model st in
      let body := Matter.Body_setPosition body (k_position state) in
      let body := Matter.Body_setVelocity body (k_velocity state) in
      let body := Matter.Body_setAngularVelocity body (k_angularVelocity state) in
      let body := Matter.Body_setAngle body (k_angle state) in
      let st := set_world (Matter.add_body (b_handle body) (world st)) st in
      let st := set_bodyMap (<[o_id model := body]> (bodyMap st)) st in
      refreshLinksFor (o_id model) st
  end.

(** [syncModelTransforms()] *)
Definition syncModelTransforms (st : Playground) : Playground :=
  set_objects
    (map (fun model =>
            match bodyMap st !! o_id model with
            | None => model
            | Some body =>
                set_o_angle (b_angle body)
                  (set_o_position (mkVec (vx (b_position body)) (vy (b_position body))) model)
            end)
         (objects st))
    st.

(** [commitHistory()] *)
Definition commitHistory (st : Playground) : Playground :=
  let st := syncModelTransforms st in
  let snapshot := mkSnapshot (objects st) (links st) (nextId st) (nextLinkId st) in
  let h := JS.slice0 (historyIndex st + 1) (history st) ++ [snapshot] in
  let st := set_history h st in
  set_historyIndex (Z.of_nat (length (history st)) - 1) st.

(** [this.history[i]] *)
Definition js_index {A} (l : list A) (i : Z) : option A :=
  if Z.ltb i 0 then None else l !! Z.to_nat i.

(** [(s || '')] on a string. *)
Definition or_str (a b : string) : string :=
  if String.eqb a "" then b else a.

(** [parseInt((id || '').split('-')[1], 10)] *)
Definition id_number (id : string) : option Z :=
  JS.parseInt (JS.to_string (JS.split "-" (or_str id "") !! 1%nat)).

(** [inferNextId(objs)]: [filter] drops the [NaN]s.  The sum is exact;
    the source adds doubles, exact while the result is at most 2^53. *)
Definition inferNextId (objs : list SceneObject) : Z :=
  let ids := omap (fun o => id_number (o_id o)) objs in
  JS.or_num (JS.max_from (-1) ids) 0 + 1.

(** [inferNextLinkId(links = [])] *)
Definition inferNextLinkId (lnks : list SpringLink) : Z :=
  let ids := omap (fun l => id_number (l_id l)) lnks in
  JS.or_num (JS.max_from (-1) ids) 0 + 1.

(** The callback of the loop over [this.objects] in [applySnapshot]. *)
Definition applySnapshot_each (st : Playground) (model : SceneObject) : Playground :=
  let (body, st) := buildBody model st in
  let st := set_world (Matter.add_body (b_handle body) (world st)) st in
  set_bodyMap (<[o_id model := body]> (bodyMap st)) st.

(** [applySnapshot(snapshot)].  The two [JSON] copies are the identity
    here, and [snapshot.links || []] is [s_links] since the field is
    always present in a [Snapshot]. *)
Definition applySnapshot (snapshot : Snapshot) (st : Playground) : Playground :=
  let st := set_objects (s_objects snapshot) st in
  let st := set_links (s_links snapshot) st in
  let st := set_nextId (s_nextId snapshot) st in
  let st := set_nextLinkId
              (JS.or_num (s_nextLinkId snapshot) (inferNextLinkId (links st))) st in
  let st := set_selectedIds [] st in
  let st := set_world
              (map_fold (fun _ body w => Matter.remove_body (b_handle body) w)
                        (world st) (bodyMap st)) st in
  let st := set_world
              (map_fold (fun _ link w => Matter.remove_constraint (c_handle link) w)
                        (world st) (linkMap st)) st in
  let st := set_bodyMap ∅ st in
  let st := set_linkMap ∅ st in
  let st := foldl applySnapshot_each st (objects st) in
  foldl (fun st link => attachLink link st) st (links st).

(** [undo()] and [redo()].  Reading a missing history entry makes
    [applySnapshot] throw on its first line, after the index moved. *)
Definition undo (st : Playground) : Playground :=
  if Z.leb (historyIndex st) 0 then st
  else
    let st := set_historyIndex (historyIndex st - 1) st in
    match js_index (history st) (historyIndex st) with
    | Some snapshot => applySnapshot snapshot st
    | None => st
    end.

Definition redo (st : Playground) : Playground :=
  if Z.leb (Z.of_nat (length (history st)) - 1) (historyIndex st) then st
  else
    let st := set_historyIndex (historyIndex st + 1) st in
    match js_index (history st) (historyIndex st) with
    | Some snapshot => applySnapshot snapshot st
    | None => st
    end.

(** [showSave()]: the document written into the save dialog. *)
Definition showSave (st : Playground) : Document :=
  mkDocument (Some (objects st)) (Some (links st))
             (Some (nextId st)) (Some (nextLinkId st)).

(** The [onload] handler of [loadScene(event)], applied to the parsed
    document; the second component is the text passed to [alert]. *)
Definition loadScene (data : Document) (st : Playground) : Playground * option string :=
  match d_objects data with
  | None => (st, Some "Failed to load scene: Invalid scene")
  | Some objs =>
      let nextId := JS.or_opt_num (d_nextId data) (inferNextId objs) in
      let nextLinkId := JS.or_opt_num (d_nextLinkId data) 1 in
      let st := applySnapshot
                  (mkSnapshot objs (default [] (d_links data)) nextId nextLinkId) st in
      (commitHistory st, None)
  end.

(** [createLink(aId, bId)] *)
Definition createLink (aId bId : string) (st : Playground) : Playground :=
  match bodyMap st !! aId, bodyMap st !! bId with
  | Some bodyA, Some bodyB =>
      let length :=
        Rmin 220 (Matter.hypot (vx (b_position bodyB) - vx (b_position bodyA))
                               (vy (b_position bodyB) - vy (b_position bodyA))) in
      let options := mkOptions 0.04 0.02 length in
      let (h, w) := Matter.fresh (world st) in
      let constraint := Matter.Constraint_create h bodyA bodyB options in
      let st := set_world w st in
      let id := linkId (nextLinkId st) in
      let st := set_nextLinkId (nextLinkId st + 1) st in
      let link := mkLink id aId bId options in
      let st := set_links (links st ++ [link]) st in
      let st := set_linkMap (<[id := constraint]> (linkMap st)) st in
      set_world (Matter.add_constraint h (world st)) st
  | _, _ => st
  end.

(** [handleConstraintPoint(body)]; [None] is a click on no body. *)
Definition handleConstraintPoint (body : option Body) (st : Playground) : Playground :=
  match body with
  | None => st
  | Some body =>
      if String.eqb (modelId (b_plugin body)) "" then st
      else
        match constraintAnchor st with
        | None =>
            showHint "Choose another object to connect"
                     (set_constraintAnchor (Some body) st)
        | Some anchor =>
            let from := modelId (b_plugin anchor) in
            let to := modelId (b_plugin body) in
            if String.eqb from to then
              set_constraintAnchor None
                (showHint "Pick a different object to connect" st)
            else
              let st := createLink from to st in
              let st := set_constraintAnchor None st in
              let st := commitHistory st in
              showHint "Constraint added • drag to feel the spring" st
        end
  end.

(** [addBounds()], also the body of [resize()] as far as the model is
    concerned: the old walls leave the world, four new ones enter. *)
Definition addBounds (st : Playground) : Playground :=
  let w := foldl (fun w wall => Matter.remove_body wall w) (world st) (bounds st) in
  let '(h1, w) := Matter.fresh w in
  let '(h2, w) := Matter.fresh w in
  let '(h3, w) := Matter.fresh w in
  let '(h4, w) := Matter.fresh w in
  let st := set_bounds [h1; h2; h3; h4] st in
  set_world (foldl (fun w wall => Matter.add_body wall w) w (bounds st)) st.

(** [resetWorld()] *)
Definition resetWorld (st : Playground) : Playground :=
  let st := clearSelection st in
  let st := set_objects [] st in
  let st := set_links [] st in
  let st := set_nextId 1 st in
  let st := set_nextLinkId 1 st in
  let st := set_world
              (map_fold (fun _ body w => Matter.remove_body (b_handle body) w)
                        (world st) (bodyMap st)) st in
  let st := set_world
              (map_fold (fun _ link w => Matter.remove_constraint (c_handle link) w)
                        (world st) (linkMap st)) st in
  let st := set_bodyMap ∅ st in
  let st := set_linkMap ∅ st in
  let st := addBounds st in
  let st := commitHistory st in
  showHint "Clean slate • add shapes to get moving" st.

(** The callback of the loop in [deleteSelection()]. *)
Definition deleteSelection_each (st : Playground) (id : string) : Playground :=
  let st :=
    match bodyMap st !! id with
    | Some body => set_world (Matter.remove_body (b_handle body) (world st)) st
    | None => st
    end in
  let st := set_bodyMap (delete id (bodyMap st)) st in
  let st := set_objects
              (filter (fun o => negb (String.eqb (o_id o) id)) (objects st)) st in
  removeLinksFor id st.

(** [deleteSelection()] *)
Definition deleteSelection (st : Playground) : Playground :=
  match selectedIds st with
  | [] => st
  | _ =>
      let st := foldl deleteSelection_each st (selectedIds st) in
      let st := clearSelection st in
      commitHistory st
  end.

(** [duplicateSelection()] *)
Definition duplicateSelection (st : Playground) : Playground :=
  match selectedIds st with
  | [] => st
  | _ =>
      let '(st, newIds) :=
        foldl (fun '(st, newIds) id =>
                 match find_object id (objects st) with
                 | None => (st, newIds)
                 | Some model =>
                     let clone := set_o_id (objId (nextId st)) model in
                     let st := set_nextId (nextId st + 1) st in
                     let clone :=
                       set_o_position (mkVec (vx (o_position model) + 20)
                                             (vy (o_position model) - 20)) clone in
                     let st := set_objects (objects st ++ [clone]) st in
                     let (body, st) := buildBody clone st in
                     let st := set_world (Matter.add_body (b_handle body) (world st)) st in
                     let st := set_bodyMap (<[o_id clone := body]> (bodyMap st)) st in
                     (st, newIds ++ [o_id clone])
                 end)
              (st, []) (selectedIds st) in
      let st := commitHistory st in
      match newIds with
      | [] => st
      | first :: _ => handleSelection first false st
      end
  end.

(** The tail of [handleCanvasUp(event)], once the pointer geometry has
    produced [center], [shape] and [bodyType]. *)
Definition placeModel (center : Vec) (shape : Shape) (bodyType : BodyType)
    (st : Playground) : Playground :=
  let (model, st) := createModel center shape bodyType st in
  let st := addModelToWorld model st in
  let st := commitHistory st in
  handleSelection (o_id model) false st.

(** A patch object for [updatePhysics]: the keys it carries. *)
Record PhysicsPatch := mkPhysicsPatch {
  p_restitution : option R;
  p_friction : option R;
  p_frictionAir : option R;
  p_frictionStatic : option R;
  p_density : option R
}.

(** [{ ...model.physics, ...patch }] *)
Definition merge_physics (ph : Physics) (patch : PhysicsPatch) : Physics :=
  mkPhysics (default (restitution ph) (p_restitution patch))
            (default (friction ph) (p_friction patch))
            (default (frictionAir ph) (p_frictionAir patch))
            (default (frictionStatic ph) (p_frictionStatic patch))
            (default (density ph) (p_density patch)).

Record VisualPatch := mkVisualPatch {
  p_fill : option string;
  p_stroke : option string;
  p_strokeWidth : option R;
  p_opacity : option R;
  p_renderMode : option RenderMode
}.

(** [{ ...model.visual, ...patch }] *)
Definition merge_visual (v : Visual) (patch : VisualPatch) : Visual :=
  mkVisual (default (fill v) (p_fill patch))
           (default (stroke v) (p_stroke patch))
           (default (strokeWidth v) (p_strokeWidth patch))
           (default (opacity v) (p_opacity patch))
           (default (renderMode v) (p_renderMode patch)).

(** The loop shared by the edit operations: for every selected id whose
    object exists, mutate the object and rebuild its body. *)
Definition edit_and_rebuild (f : SceneObject -> SceneObject) (st : Playground) : Playground :=
  foldl (fun st id =>
           match find_object id (objects st) with
           | None => st
           | Some model =>
               let st := set_objects (update_object id f (objects st)) st in
               rebuildBody (f model) st
           end)
        st (selectedIds st).

(** [updatePhysics(patch)] *)
Definition updatePhysics (patch : PhysicsPatch) (st : Playground) : Playground :=
  match selectedIds st with
  | [] => st
  | _ =>
      commitHistory
        (edit_and_rebuild (fun m => set_o_physics (merge_physics (o_physics m) patch) m) st)
  end.

(** [updateSelection(patch)] with the only patch the editor passes,
    [{ bodyType: type }]. *)
Definition updateSelection (type : BodyType) (st : Playground) : Playground :=
  match selectedIds st with
  | [] => st
  | _ => commitHistory (edit_and_rebuild (set_o_bodyType type) st)
  end.

(** [updateVisual(patch)]: only the model and [body.render] change. *)
Definition updateVisual (patch : VisualPatch) (st : Playground) : Playground :=
  match selectedIds st with
  | [] => st
  | _ =>
      let st :=
        foldl (fun st id =>
                 match find_object id (objects st) with
                 | None => st
                 | Some model =>
                     set_objects
                       (update_object id
                          (fun m => set_o_visual (merge_visual (o_visual m) patch) m)
                          (objects st)) st
                 end)
              st (selectedIds st) in
      commitHistory st
  end.

(** [shapeDefaults(type, dims)] *)
Definition shapeDefaults (type : ShapeType) (size : Vec) (radius : R) : Shape :=
  match type with
  | t_circle => circle radius
  | t_polygon => polygon 5 radius
  | t_rectangle => rectangle (vx size) (vy size)
  end.

(** [changeShape(shapeType)].  [extent body] is the width and height of
    [body.bounds], which the engine maintains. *)
Definition changeShape (extent : Body -> Vec) (shapeType : ShapeType)
    (st : Playground) : Playground :=
  match selectedIds st with
  | [] => st
  | _ =>
      let st :=
        foldl (fun st id =>
                 match find_object id (objects st) with
                 | None => st
                 | Some model =>
                     match bodyMap st !! id with
                     | None => st
                     | Some body =>
                         let size := extent body in
                         let radius := (Rmax (vx size) (vy size) / 2)%R in
                         let newShape := shapeDefaults shapeType size radius in
                         let f m :=
                           set_o_label (shape_label shapeType)
                             (set_o_position
                                (mkVec (vx (b_position body)) (vy (b_position body)))
                                (set_o_shape newShape m)) in
                         let st := set_objects (update_object id f (objects st)) st in
                         rebuildBody (f model) st
                     end
                 end)
              st (selectedIds st) in
      commitHistory st
  end.

(** [changePolygonSides(sides)] *)
Definition changePolygonSides (sides : Z) (st : Playground) : Playground :=
  match selectedIds st with
  | [] => st
  | _ =>
      let st :=
        foldl (fun st id =>
                 match find_object id (objects st) with
                 | Some model =>
                     match o_shape model with
                     | polygon _ r =>
                         let f := set_o_shape (polygon sides r) in
                         let st := set_objects (update_object id f (objects st)) st in
                         rebuildBody (f model) st
                     | _ => st
                     end
                 | None => st
                 end)
              st (selectedIds st) in
      commitHistory st
  end.

(** [toggleLock(lock)] *)
Definition toggleLock (lock : bool) (st : Playground) : Playground :=
  let st :=
    foldl (fun st id =>
             match find_object id (objects st) with
             | Some model =>
                 let st := set_objects
                             (update_object id (set_o_locked lock) (objects st)) st in
                 set_bodyMap
                   (alter (fun body =>
                             Matter.set_plugin body
                               (mkPlugin (modelId (b_plugin body)) lock))
                          id (bodyMap st)) st
             | None => st
             end)
          st (selectedIds st) in
  commitHistory st.

(** One engine update followed by the [afterUpdate] listener.  [step]
    is the motion the engine gives each tracked body. *)
Definition set_kinematics (k : Kinematics) (b : Body) : Body :=
  mkBody (b_handle b) (b_geometry b) (b_opts b) (k_position k) (k_velocity k)
         (k_angle k) (k_angularVelocity k) (b_plugin b).

Definition tick (step : Body -> Kinematics) (st : Playground) : Playground :=
  syncModelTransforms
    (set_bodyMap ((fun b => set_kinematics (step b) b) <$> bodyMap st) st).

(** The state the constructor leaves behind: empty scene, walls placed
    by [resize()] and [addBounds()], and the first history entry. *)
Definition blank : Playground :=
  mkPlayground [] [] ∅ ∅ [] None [] (-1) 1 1 (mkWorld ∅ ∅ 1%positive) [] "".

Definition constructor : Playground :=
  commitHistory (addBounds (addBounds blank)).

(** [TOOL_HINTS[tool]] *)
Definition TOOL_HINTS (tool : string) : option string :=
  if String.eqb tool "select" then
    Some "Click a shape to select. Drag with physics. Shift-click to multi-select."
  else if String.eqb tool "circle" then
    Some "Click to drop a circle, or drag to size it."
  else if String.eqb tool "rectangle" then
    Some "Click to add, drag to define width & height."
  else if String.eqb tool "polygon" then
    Some "Drag to size polygon. Adjust sides in inspector."
  else if String.eqb tool "wall" then
    Some "Drag to place a static wall that holds the play area."
  else if String.eqb tool "sensor" then
    Some "Drag to add a ghost sensor (no collisions)."
  else if String.eqb tool "constraint" then
    Some "Tap two bodies to link them with a soft constraint."
  else None.

(** The tool-button handler of [bindUI()]. *)
Definition chooseTool (tool : string) (st : Playground) : Playground :=
  let st := set_constraintAnchor None st in
  showHint (default "Sketch freely with physics." (TOOL_HINTS tool)) st.

(** The state once the page has loaded. *)
Definition startup : Playground :=
  showHint (default "" (TOOL_HINTS "select")) constructor.

(** ** Editor actions and reachable states *)

Inductive Action :=
  | PlaceModel (center : Vec) (shape : Shape) (bodyType : BodyType)
  | ChooseTool (tool : string)
  | HandleSelection (id : string) (additive : bool)
  | ClearSelection
  | UpdatePhysics (patch : PhysicsPatch)
  | UpdateVisual (patch : VisualPatch)
  | UpdateSelection (type : BodyType)
  | ChangeShape (extent : Body -> Vec) (shapeType : ShapeType)
  | ChangePolygonSides (sides : Z)
  | ToggleLock (lock : bool)
  | HandleConstraintPoint (body : option Body)
  | DuplicateSelection
  | DeleteSelection
  | ResetWorld
  | Undo
  | Redo
  | Resize
  | Tick (step : Body -> Kinematics).

Definition perform (a : Action) (st : Playground) : Playground :=
  match a with
  | PlaceModel c s t => placeModel c s t st
  | ChooseTool tool => chooseTool tool st
  | HandleSelection id additive => handleSelection id additive st
  | ClearSelection => clearSelection st
  | UpdatePhysics p => updatePhysics p st
  | UpdateVisual p => updateVisual p st
  | UpdateSelection t => updateSelection t st
  | ChangeShape e t => changeShape e t st
  | ChangePolygonSides n => changePolygonSides n st
  | ToggleLock l => toggleLock l st
  | HandleConstraintPoint b => handleConstraintPoint b st
  | DuplicateSelection => duplicateSelection st
  | DeleteSelection => deleteSelection st
  | ResetWorld => resetWorld st
  | Undo => undo st
  | Redo => redo st
  | Resize => addBounds st
  | Tick step => tick step st
  end.

(** States reached from the start state by editor actions (scene load
    is not among them). *)
Inductive Reachable : Playground -> Prop :=
  | reach_init : Reachable startup
  | reach_step a st : Reachable st -> Reachable (perform a st).

(** ** Specification vocabulary *)

(** The serialisable part of the state: what a snapshot records. *)
Definition model_of (st : Playground) : Snapshot :=
  mkSnapshot (objects st) (links st) (nextId st) (nextLinkId st).

(** Two states with the same undo stack and cursor. *)
Definition same_history (a b : Playground) : Prop :=
  history a = history b /\ historyIndex a = historyIndex b.

(** The reading of the counter inference in the scene-document format:
    the trailing run of decimal digits of an id, whatever precedes it. *)
Fixpoint trailing_run (s : string) : string :=
  match s with
  | EmptyString => EmptyString
  | String c rest =>
      let r := trailing_run rest in
      match JS.digit c with
      | Some _ => if String.eqb r rest then s else r
      | None => r
      end
  end.

Definition trailing_digits (s : string) : option Z :=
  JS.digits None (trailing_run s).

(** ... and the inferred counter: one more than the largest suffix, 1
    when no id has one. *)
Definition spec_inferred_counter (ids : list string) : Z :=
  match omap trailing_digits ids with
  | [] => 1
  | n :: ns => foldl Z.max n ns + 1
  end.

(** The last object of a list that carries a given id: the one whose
    body ends up in [bodyMap] when the list is materialised in order. *)
Fixpoint last_with_id (id : string) (objs : list SceneObject) : option SceneObject :=
  match objs with
  | [] => None
  | o :: rest =>
      match last_with_id id rest with
      | Some o' => Some o'
      | None => if String.eqb (o_id o) id then Some o else None
      end
  end.

(** The object list a freshly loaded scene settles to: every object takes
    the pose of the body registered under its id. *)
Definition settle (objs : list SceneObject) : list SceneObject :=
  map (fun o =>
         match last_with_id (o_id o) objs with
         | Some o' => set_o_angle (o_angle o') (set_o_position (o_position o') o)
         | None => o
         end)
      objs.

(** The ids of a list of objects, in order. *)
Definition ids (objs : list SceneObject) : list string := map o_id objs.

(** The counters lie above every id present: each object id is
    [obj-<m>] with [1 <= m < n], each link id [link-<m>] with
    [1 <= m < k]. *)
Definition counters_ok (objIds : list string) (lnks : list SpringLink)
    (n k : Z) : Prop :=
  (forall i, i ∈ objIds -> exists m, i = objId m /\ 1 <= m < n) /\
  (forall l, l ∈ lnks -> exists m, l_id l = linkId m /\ 1 <= m < k) /\
  1 <= n /\ 1 <= k.

(** Both endpoints of every link are ids of present objects. *)
Definition endpoints_ok (objIds : list string) (lnks : list SpringLink) : Prop :=
  forall l, l ∈ lnks -> l_a l ∈ objIds /\ l_b l ∈ objIds.

Definition snapshot_ok (s : Snapshot) : Prop :=
  counters_ok (ids (s_objects s)) (s_links s) (s_nextId s) (s_nextLinkId s) /\
  endpoints_ok (ids (s_objects s)) (s_links s).

(** The invariant of the editor: the live model and every history entry
    are well-formed, and only present objects have a body. *)
Definition consistent (st : Playground) : Prop :=
  snapshot_ok (model_of st) /\
  Forall snapshot_ok (history st) /\
  (forall i, is_Some (bodyMap st !! i) -> i ∈ ids (objects st)).

(** [st'] differs from [st] in nothing the invariant looks at. *)
Definition same_model (st st' : Playground) : Prop :=
  ids (objects st') = ids (objects st) /\ links st' = links st /\
  nextId st' = nextId st /\ nextLinkId st' = nextLinkId st /\
  history st' = history st /\
  (forall i, is_Some (bodyMap st' !! i) <-> is_Some (bodyMap st !! i)).

(** [st'] comes from [st] by changes the invariant ignores, possibly
    followed by a commit. *)
Definition cosmetic (st st' : Playground) : Prop :=
  exists s, same_model st s /\ (st' = s \/ st' = commitHistory s).

(** The actions that move the counters backwards by design. *)
Definition rewinds (a : Action) : bool :=
  match a with
  | ResetWorld | Undo | Redo => true
  | _ => false
  end.

(** ** Placing a drawn shape *)

(** [DRAW_TOOLS] *)
Definition DRAW_TOOLS : list string :=
  ["circle"; "rectangle"; "polygon"; "wall"; "sensor"]%string.

(** The [shape] that [handleCanvasUp] computes from the drag; [sides] is
    [Math.round] of the polygon slider's value. *)
Definition drawnShape (tool : string) (start end_ : Vec) (sides : Z) : Shape :=
  let minSize := 32%R in
  let width := Rmax (Rabs (vx end_ - vx start)) 12 in
  let height := Rmax (Rabs (vy end_ - vy start)) 12 in
  if String.eqb tool "circle" || String.eqb tool "sensor" then
    circle (Rmax (Matter.hypot (vx end_ - vx start) (vy end_ - vy start) / 2)
                 (minSize / 2))
  else if String.eqb tool "polygon" then
    polygon sides
            (Rmax (Matter.hypot (vx end_ - vx start) (vy end_ - vy start) / 2)
                  (minSize / 2))
  else rectangle (Rmax width minSize) (Rmax height minSize).

(** The [bodyType] that [handleCanvasUp] derives from the tool. *)
Definition drawnBodyType (tool : string) : BodyType :=
  if String.eqb tool "wall" then static
  else if String.eqb tool "sensor" then sensor
  else dynamic.

(** [handleCanvasUp(event)].  [isDrawing], [tool] and [dragStart] are the
    editor's fields of the same names, [end_] is the pointer position
    relative to the canvas. *)
Definition handleCanvasUp (isDrawing : bool) (tool : string) (dragStart end_ : Vec)
    (sides : Z) (st : Playground) : Playground :=
  if negb isDrawing || negb (bool_decide (tool ∈ DRAW_TOOLS)) then st
  else
    let center := mkVec ((vx dragStart + vx end_) / 2) ((vy dragStart + vy end_) / 2) in
    placeModel center (drawnShape tool dragStart end_ sides) (drawnBodyType tool) st.

(** ** More specification vocabulary *)

(** No two objects and no two links of a snapshot share an id. *)
Definition unique_ok (s : Snapshot) : Prop :=
  NoDup (ids (s_objects s)) /\ NoDup (map l_id (s_links s)).

(** Every object of the model has a body. *)
Definition tracked (st : Playground) : Prop :=
  forall i, i ∈ ids (objects st) -> is_Some (bodyMap st !! i).

(** The invariant [consistent], with unique ids and a body per object. *)
Definition strong (st : Playground) : Prop :=
  consistent st /\ unique_ok (model_of st) /\
  Forall unique_ok (history st) /\ tracked st.

(** An object without its pose, the part the simulation moves. *)
Definition strip (o : SceneObject) : SceneObject :=
  set_o_angle 0 (set_o_position (mkVec 0 0) o).

(** The history cursor points at an entry that agrees with the live
    model in everything but the poses. *)
Definition anchored (st : Playground) : Prop :=
  exists s, js_index (history st) (historyIndex st) = Some s /\
            map strip (s_objects s) = map strip (objects st) /\
            s_links s = links st /\
            s_nextId s = nextId st /\ s_nextLinkId s = nextLinkId st.

(** [st'] has the history, the cursor and, poses aside, the model of [st]. *)
Definition still (st st' : Playground) : Prop :=
  history st' = history st /\ historyIndex st' = historyIndex st /\
  map strip (objects st') = map strip (objects st) /\
  links st' = links st /\
  nextId st' = nextId st /\ nextLinkId st' = nextLinkId st.

(** A link is joined under a table of bodies and a table of constraints
    when its constraint connects the bodies registered for its two
    endpoints and carries the link's options. *)
Definition joins (bodies : gmap string Body) (constraints : gmap string Constraint)
    (l : SpringLink) : Prop :=
  exists c bodyA bodyB,
    constraints !! l_id l = Some c /\
    bodies !! l_a l = Some bodyA /\ bodies !! l_b l = Some bodyB /\
    c_bodyA c = b_handle bodyA /\ c_bodyB c = b_handle bodyB /\
    c_options c = l_options l.

Definition attached (st : Playground) (l : SpringLink) : Prop :=
  joins (bodyMap st) (linkMap st) l.

(** Every link of the model is attached. *)
Definition wired (st : Playground) : Prop :=
  forall l, l ∈ links st -> attached st l.



(** The model records the pose of the bodies: each object that has a
    body carries that body's position and angle. *)
Definition synced (st : Playground) : Prop :=
  forall o b, o ∈ objects st -> bodyMap st !! o_id o = Some b ->
    o_position o = b_position b /\ o_angle o = b_angle b.

(** Every registered body is tagged with the id it is registered
    under ([body.plugin.modelId]), which is what a click on it reports. *)
Definition labelled (st : Playground) : Prop :=
  forall id b, bodyMap st !! id = Some b -> modelId (b_plugin b) = id.

(** The integers on which the number arithmetic of the source is exact,
    [0 .. Number.MAX_SAFE_INTEGER]: such a counter or id number is a double
    without rounding, [parseInt] reads it digit for digit, the template
    literals of [createModel] and [createLink] print every digit, and
    adding 1 gives the next integer.  The embedding computes in [Z]; a
    statement that is meant to hold of the source's doubles as well
    carries this bound. *)
Definition safe_number (n : Z) : Prop := 0 <= n < 2 ^ 53.

(** A string of ASCII characters (code points below 128).  On these
    [JS.is_space] is the whole class of white space that [parseInt]
    skips; the non-ASCII members of the class (U+00A0, U+1680,
    U+2000-U+200A, U+2028, U+2029, U+202F, U+205F, U+3000, U+FEFF) are
    not recognised by [JS.is_space]. *)
Definition ascii_only (s : string) : Prop :=
  Forall (fun c => (nat_of_ascii c < 128)%nat) (list_ascii_of_string s).

(** The [mousedown] handler of [registerEvents] while the constraint
    tool is active, for a pointer over the body registered under [id]
    (over no body, when there is none). *)
Definition constraintClick (id : string) (st : Playground) : Playground :=
  handleConstraintPoint (bodyMap st !! id) st.

(** ** Sample states *)

Definition demo_opts : BodyOpts := mkOpts 0.2 0.1 0.01 0.5 0.001 false false.

Definition demo_object (id : string) (px py : R) : SceneObject :=
  mkObject id "circle" (mkVec px py) 0 dynamic false (circle 20)
           DEFAULT_PHYSICS DEFAULT_VISUAL.

Definition demo_body (h : Handle) (id : string) (px py : R) : Body :=
  mkBody h (g_circle 20) demo_opts (mkVec px py) (mkVec 3 (-4)) 0.5 0.25
         (mkPlugin id false).

Definition demo_snapshot : Snapshot :=
  mkSnapshot [demo_object "obj-1" 100 100; demo_object "obj-2" 400 100] [] 3 1.

(** Two objects with moving bodies, [obj-1] at (100,100) and [obj-2] at
    (400,100), no links, one history entry. *)
Definition two_objects : Playground :=
  mkPlayground
    [demo_object "obj-1" 100 100; demo_object "obj-2" 400 100] []
    (<["obj-1" := demo_body 9%positive "obj-1" 100 100]>
       (<["obj-2" := demo_body 10%positive "obj-2" 400 100]> ∅))
    ∅ ["obj-1"%string] None [demo_snapshot] 0 3 1
    (mkWorld {[9%positive; 10%positive]} ∅ 11%positive) [] "".

Definition demo_link : SpringLink :=
  mkLink "link-1" "obj-1" "obj-2" (mkOptions 0.04 0.02 220).

(** The same two objects joined by [link-1], with [obj-1] selected. *)
Definition linked_pair : Playground :=
  mkPlayground
    [demo_object "obj-1" 100 100; demo_object "obj-2" 400 100] [demo_link]
    (<["obj-1" := demo_body 9%positive "obj-1" 100 100]>
       (<["obj-2" := demo_body 10%positive "obj-2" 400 100]> ∅))
    (<["link-1" := mkConstraint 11%positive 9%positive 10%positive
                     (mkOptions 0.04 0.02 220)]> ∅)
    ["obj-1"%string] None [demo_snapshot] 0 3 2
    (mkWorld {[9%positive; 10%positive]} {[11%positive]} 12%positive) [] "".

(** The snapshot of [linked_pair]'s model. *)
Definition linked_snapshot : Snapshot :=
  mkSnapshot [demo_object "obj-1" 100 100; demo_object "obj-2" 400 100]
             [demo_link] 3 2.

(** Two circles drawn on the empty canvas, then joined with the
    constraint tool: a click on the first body, a click on the second. *)
Definition drawn_pair : Playground :=
  perform (PlaceModel (mkVec 400 100) (circle 20) dynamic)
    (perform (PlaceModel (mkVec 100 100) (circle 20) dynamic) startup).

Definition drawn_linked : Playground :=
  perform (HandleConstraintPoint (Some (demo_body 6%positive "obj-2" 400 100)))
    (perform (HandleConstraintPoint (Some (demo_body 5%positive "obj-1" 100 100)))
       drawn_pair).

(** Two circles are drawn, the constraint tool is chosen, the second
    circle is clicked, and the drawing of that circle is undone: the
    pending anchor is the body of an object that is gone. *)
Definition stale_anchor_scene : Playground :=
  perform Undo
    (constraintClick "obj-2" (perform (ChooseTool "constraint") drawn_pair)).

(** A body that is not in the world any more, as a stale click target. *)
Definition stale_body (id : string) : Body :=
  Matter.set_plugin
    (Matter.Bodies_create 1%positive 0 0 (g_circle 1) (mkOpts 0 0 0 0 0 false false))
    (mkPlugin id false).

(** * Properties *)

(** ** Error handling of the codec *)

(** C7. A document without the [objects] key is rejected: the handler
    raises the alert "Failed to load scene: Invalid scene" and leaves the
    whole editor state (objects, links, counters, history, handles) as it
    was. *)
Theorem loadScene_missing_objects (data : Document) (st : Playground) :
  d_objects data = None ->
  loadScene data st = (st, Some "Failed to load scene: Invalid scene").
Proof.
  intros Hnone. unfold loadScene. rewrite Hnone. reflexivity.
Qed.

Lemma loadScene_missing_objects_witness :
  d_objects (mkDocument None (Some []) (Some 7) None) = None /\
  loadScene (mkDocument None (Some []) (Some 7) None) two_objects
  = (two_objects, Some "Failed to load scene: Invalid scene").
Proof.
  split; [reflexivity | apply loadScene_missing_objects; reflexivity].
Defined.

(** ** Frame lemmas for the link handles *)

Lemma foldl_preserves {A B} (P : A -> Prop) (f : A -> B -> A) :
  (forall a b, P a -> P (f a b)) ->
  forall (l : list B) (a : A), P a -> P (foldl f a l).
Proof.
  intros Hstep l. induction l as [| b l IH]; intros a Ha; simpl; auto.
Qed.

Lemma attachLink_frame (link : SpringLink) (st : Playground) :
  bodyMap (attachLink link st) = bodyMap st /\
  w_bodies (world (attachLink link st)) = w_bodies (world st) /\
  objects (attachLink link st) = objects st /\
  links (attachLink link st) = links st /\
  nextId (attachLink link st) = nextId st /\
  nextLinkId (attachLink link st) = nextLinkId st /\
  history (attachLink link st) = history st /\
  historyIndex (attachLink link st) = historyIndex st.
Proof.
  unfold attachLink.
  destruct (bodyMap st !! l_a link), (bodyMap st !! l_b link); repeat split.
Qed.

Lemma refreshLinksFor_frame (id : string) (st : Playground) :
  bodyMap (refreshLinksFor id st) = bodyMap st /\
  w_bodies (world (refreshLinksFor id st)) = w_bodies (world st) /\
  objects (refreshLinksFor id st) = objects st /\
  links (refreshLinksFor id st) = links st /\
  nextId (refreshLinksFor id st) = nextId st /\
  nextLinkId (refreshLinksFor id st) = nextLinkId st /\
  history (refreshLinksFor id st) = history st /\
  historyIndex (refreshLinksFor id st) = historyIndex st.
Proof.
  unfold refreshLinksFor.
  apply (foldl_preserves
           (fun s => bodyMap s = bodyMap st /\
                     w_bodies (world s) = w_bodies (world st) /\
                     objects s = objects st /\ links s = links st /\
                     nextId s = nextId st /\ nextLinkId s = nextLinkId st /\
                     history s = history st /\ historyIndex s = historyIndex st));
    [| repeat split].
  intros s link (Hb & Hw & Ho & Hl & Hn & Hk & Hh & Hi).
  destruct (touches id link); [| repeat split; assumption].
  match goal with |- context [attachLink link ?s'] =>
    destruct (attachLink_frame link s') as (Hb' & Hw' & Ho' & Hl' & Hn' & Hk' & Hh' & Hi')
  end.
  rewrite Hb', Hw', Ho', Hl', Hn', Hk', Hh', Hi'.
  destruct (linkMap s !! l_id link); repeat split; assumption.
Qed.

(** ** Rebuilding a body *)

Lemma body_of_eq (model : SceneObject) (h : Handle) :
  body_of model h
  = mkBody h (geometry_of (o_shape model)) (opts_of model) (o_position model)
           (mkVec 0 0) (o_angle model) 0 (mkPlugin (o_id model) (o_locked model)).
Proof.
  unfold body_of.
  destruct (Req_dec_T (o_angle model) 0) as [-> | _], (o_shape model), (o_position model);
    reflexivity.
Qed.

Lemma body_of_handle (model : SceneObject) (h : Handle) :
  b_handle (body_of model h) = h.
Proof. rewrite body_of_eq. reflexivity. Qed.

Opaque body_of.

Lemma rebuildBody_live (model : SceneObject) (existing : Body) (st : Playground) :
  bodyMap st !! o_id model = Some existing ->
  rebuildBody model st
  = refreshLinksFor (o_id model)
      (set_bodyMap
         (<[o_id model := set_kinematics (kinematics existing)
                            (body_of model (w_next (world st)))]> (bodyMap st))
         (set_world
            (mkWorld ({[w_next (world st)]}
                        ∪ (w_bodies (world st) ∖ {[b_handle existing]}))
                     (w_constraints (world st))
                     (Pos.succ (w_next (world st))))
            st)).
Proof.
  intros Hlive. unfold rebuildBody. rewrite Hlive.
  unfold buildBody. simpl. rewrite body_of_handle. reflexivity.
Qed.

(** C1. Rebuilding an object that has a live body replaces the handle by
    a new one, materialised from the updated model, whose position,
    velocity, angle and angular velocity are those read from the old
    handle just before; the old handle leaves the world and the new one
    enters it. *)
Theorem rebuildBody_preserves_kinematics
    (model : SceneObject) (existing : Body) (st : Playground) :
  bodyMap st !! o_id model = Some existing ->
  let st' := rebuildBody model st in
  exists body,
    bodyMap st' !! o_id model = Some body /\
    b_position body = b_position existing /\
    b_velocity body = b_velocity existing /\
    b_angle body = b_angle existing /\
    b_angularVelocity body = b_angularVelocity existing /\
    body = set_kinematics (kinematics existing) (body_of model (w_next (world st))) /\
    b_handle body = w_next (world st) /\
    w_bodies (world st')
    = {[b_handle body]} ∪ (w_bodies (world st) ∖ {[b_handle existing]}).
Proof.
  intros Hlive st'. subst st'. rewrite (rebuildBody_live _ _ _ Hlive).
  match goal with |- context [refreshLinksFor ?i ?s] =>
    destruct (refreshLinksFor_frame i s) as (Hb & Hw & _)
  end.
  rewrite Hb, Hw. simpl.
  eexists. split; [apply lookup_insert_eq |].
  simpl. rewrite body_of_handle. repeat split.
Qed.

Lemma rebuildBody_preserves_kinematics_witness :
  let model := set_o_shape (rectangle 40 30) (demo_object "obj-1" 100 100) in
  bodyMap two_objects !! o_id model = Some (demo_body 9%positive "obj-1" 100 100) /\
  exists body,
    bodyMap (rebuildBody model two_objects) !! "obj-1" = Some body /\
    b_position body = mkVec 100 100 /\
    b_velocity body = mkVec 3 (-4) /\
    b_angle body = 0.5%R /\
    b_angularVelocity body = 0.25%R /\
    b_geometry body = g_rectangle 40 30 /\
    b_handle body = 11%positive.
Proof.
  intros model.
  assert (Hlive : bodyMap two_objects !! o_id model
                  = Some (demo_body 9%positive "obj-1" 100 100)) by reflexivity.
  split; [exact Hlive |].
  destruct (rebuildBody_preserves_kinematics model _ two_objects Hlive)
    as (body & Hb & Hp & Hv & Ha & Hw & Heq & Hh & _).
  exists body. rewrite Hp, Hv, Ha, Hw, Hh.
  repeat split; try assumption.
  rewrite Heq, body_of_eq. reflexivity.
Defined.

(** ** Creating a spring link *)

(** C10. A link created between two objects with live bodies carries
    stiffness 0.04, damping 0.02 and a rest length equal to the smaller
    of 220 and the Euclidean distance between the two body centres; the
    record is appended to the link list and the constraint handle gets
    the same options.  Beyond a separation of 220 the link is created
    shorter than the current separation. *)
Theorem createLink_spring_options
    (st : Playground) (aId bId : string) (bodyA bodyB : Body) :
  bodyMap st !! aId = Some bodyA ->
  bodyMap st !! bId = Some bodyB ->
  let dx := (vx (b_position bodyB) - vx (b_position bodyA))%R in
  let dy := (vy (b_position bodyB) - vy (b_position bodyA))%R in
  let distance := sqrt (dx * dx + dy * dy) in
  let options := mkOptions 0.04 0.02 (Rmin 220 distance) in
  let st' := createLink aId bId st in
  links st' = links st ++ [mkLink (linkId (nextLinkId st)) aId bId options] /\
  linkMap st' !! linkId (nextLinkId st)
  = Some (mkConstraint (w_next (world st)) (b_handle bodyA) (b_handle bodyB) options) /\
  (o_length options <= 220)%R /\
  (o_length options <= distance)%R /\
  ((220 < distance)%R -> o_length options = 220%R /\ (o_length options < distance)%R).
Proof.
  intros Ha Hb dx dy distance options st'. subst st'.
  unfold createLink. rewrite Ha, Hb. simpl.
  split; [reflexivity |].
  split; [apply lookup_insert_eq |].
  split; [apply Rmin_l |].
  split; [apply Rmin_r |].
  intros Hfar. rewrite Rmin_left by lra. split; [reflexivity | exact Hfar].
Qed.

Lemma createLink_spring_options_witness :
  bodyMap two_objects !! "obj-1" = Some (demo_body 9%positive "obj-1" 100 100) /\
  bodyMap two_objects !! "obj-2" = Some (demo_body 10%positive "obj-2" 400 100) /\
  exists len,
    links (createLink "obj-1" "obj-2" two_objects)
    = [mkLink "link-1" "obj-1" "obj-2" (mkOptions 0.04 0.02 len)] /\
    (len <= 220)%R.
Proof.
  assert (Ha : bodyMap two_objects !! "obj-1"
               = Some (demo_body 9%positive "obj-1" 100 100)) by reflexivity.
  assert (Hb : bodyMap two_objects !! "obj-2"
               = Some (demo_body 10%positive "obj-2" 400 100)) by reflexivity.
  split; [exact Ha |]. split; [exact Hb |].
  destruct (createLink_spring_options two_objects "obj-1" "obj-2" _ _ Ha Hb)
    as (Hl & _ & Hle & _).
  eexists. split; [exact Hl | exact Hle].
Defined.

(** ** History *)



Lemma js_index_app {A} (l1 l2 : list A) (i : nat) :
  js_index (l1 ++ l2) (Z.of_nat (length l1 + i)) = l2 !! i.
Proof.
  unfold js_index.
  destruct (Z.ltb_spec (Z.of_nat (length l1 + i)) 0) as [Hneg | _]; [lia |].
  rewrite Nat2Z.id, lookup_app_r by lia. f_equal. lia.
Qed.

Lemma commitHistory_history (st : Playground) :
  history (commitHistory st)
  = JS.slice0 (historyIndex st + 1) (history st) ++ [model_of (commitHistory st)] /\
  historyIndex (commitHistory st)
  = Z.of_nat (length (history (commitHistory st))) - 1.
Proof. split; reflexivity. Qed.


Lemma applySnapshot_frame (snapshot : Snapshot) (st : Playground) :
  model_of (applySnapshot snapshot st)
  = mkSnapshot (s_objects snapshot) (s_links snapshot) (s_nextId snapshot)
      (JS.or_num (s_nextLinkId snapshot) (inferNextLinkId (s_links snapshot))) /\
  history (applySnapshot snapshot st) = history st /\
  historyIndex (applySnapshot snapshot st) = historyIndex st /\
  selectedIds (applySnapshot snapshot st) = [].
Proof.
  unfold applySnapshot.
  set (P := fun s : Playground =>
              model_of s
              = mkSnapshot (s_objects snapshot) (s_links snapshot) (s_nextId snapshot)
                  (JS.or_num (s_nextLinkId snapshot) (inferNextLinkId (s_links snapshot))) /\
              history s = history st /\ historyIndex s = historyIndex st /\
              selectedIds s = []).
  apply (foldl_preserves P).
  { intros s link Hs. unfold P, model_of in *.
    destruct (attachLink_frame link s) as (_ & _ & Ho & Hl & Hn & Hk & Hh & Hi).
    rewrite Ho, Hl, Hn, Hk, Hh, Hi.
    destruct Hs as (Hm & Hh' & Hi' & Hsel). repeat split; try assumption.
    unfold attachLink.
    destruct (bodyMap s !! l_a link), (bodyMap s !! l_b link); assumption. }
  apply (foldl_preserves P).
  { intros s model Hs. exact Hs. }
  repeat split.
Qed.

Lemma model_of_applySnapshot (snapshot : Snapshot) (st : Playground) :
  s_nextLinkId snapshot <> 0 ->
  model_of (applySnapshot snapshot st) = snapshot.
Proof.
  intros Hk. rewrite (proj1 (applySnapshot_frame snapshot st)).
  unfold JS.or_num. destruct (Z.eqb_spec (s_nextLinkId snapshot) 0); [contradiction |].
  destruct snapshot; reflexivity.
Qed.

Lemma js_index_middle {A} (pre post : list A) (s : A) :
  js_index (pre ++ s :: post) (Z.of_nat (length pre)) = Some s.
Proof.
  unfold js_index.
  destruct (Z.ltb_spec (Z.of_nat (length pre)) 0) as [Hneg | _]; [lia |].
  rewrite Nat2Z.id. apply list_lookup_middle. reflexivity.
Qed.




Lemma createLink_same_history (aId bId : string) (st : Playground) :
  same_history (createLink aId bId st) st /\
  nextLinkId st <= nextLinkId (createLink aId bId st).
Proof.
  unfold createLink, same_history.
  destruct (bodyMap st !! aId), (bodyMap st !! bId); simpl; repeat split; lia.
Qed.


Lemma commitHistory_counters (st : Playground) :
  nextId (commitHistory st) = nextId st /\
  nextLinkId (commitHistory st) = nextLinkId st /\
  links (commitHistory st) = links st.
Proof. repeat split. Qed.


(** ** Inferring the id counters of a loaded document *)

Lemma or_num_zero (m : Z) : JS.or_num m 0 = m.
Proof. unfold JS.or_num. destruct (Z.eqb_spec m 0); congruence. Qed.

Lemma or_opt_num_one_nonzero (a : option Z) : JS.or_opt_num a 1 <> 0.
Proof.
  destruct a as [v |]; simpl; [| discriminate].
  unfold JS.or_num. destruct (Z.eqb_spec v 0); [discriminate | assumption].
Qed.

Lemma digits_nonneg (s : string) :
  forall (acc : option Z) (n : Z),
    (forall v, acc = Some v -> 0 <= v) ->
    JS.digits acc s = Some n -> 0 <= n.
Proof.
  induction s as [| c rest IH]; intros acc n Hacc Hd; simpl in Hd.
  - apply Hacc, Hd.
  - destruct (JS.digit c) as [d |] eqn:Hc; [| apply Hacc, Hd].
    refine (IH _ _ _ Hd).
    intros v [= <-].
    assert (0 <= d).
    { unfold JS.digit in Hc. destruct (_ && _) in Hc; [| discriminate].
      injection Hc as <-. lia. }
    destruct acc as [a |]; simpl; [specialize (Hacc a eq_refl) |]; lia.
Qed.

(** No piece of [s.split(sep)] contains the separator. *)
Lemma split_go_no_sep (sep : ascii) (s : string) :
  forall (cur : list ascii) (piece : string),
    ~ In sep cur ->
    piece ∈ JS.split_go sep cur s ->
    ~ In sep (list_ascii_of_string piece).
Proof.
  induction s as [| c rest IH]; intros cur piece Hcur Hin; simpl in Hin.
  - apply list_elem_of_singleton in Hin as ->.
    rewrite list_ascii_of_string_of_list_ascii, <- in_rev. exact Hcur.
  - destruct (Ascii.eqb_spec c sep) as [-> | Hne].
    + apply elem_of_cons in Hin as [-> | Hin].
      * rewrite list_ascii_of_string_of_list_ascii, <- in_rev. exact Hcur.
      * apply (IH [] piece); [intros [] | exact Hin].
    + apply (IH (c :: cur) piece); [| exact Hin].
      intros [Heq | Hc]; [congruence | contradiction].
Qed.

Lemma skip_space_suffix (c : ascii) (s : string) :
  In c (list_ascii_of_string (JS.skip_space s)) -> In c (list_ascii_of_string s).
Proof.
  induction s as [| d rest IH]; simpl; [tauto |].
  destruct (JS.is_space d); simpl; tauto.
Qed.

Lemma parseInt_nonneg (s : string) (n : Z) :
  ~ In "-"%char (list_ascii_of_string s) ->
  JS.parseInt s = Some n -> 0 <= n.
Proof.
  intros Hno Hp. unfold JS.parseInt in Hp.
  assert (Hno' : ~ In "-"%char (list_ascii_of_string (JS.skip_space s)))
    by (intros Hin; apply Hno, skip_space_suffix, Hin).
  destruct (JS.skip_space s) as [| c rest] eqn:Hs; [discriminate Hp |].
  assert (Hgen : forall t, JS.digits None t = Some n -> 0 <= n)
    by (intros t; apply digits_nonneg; discriminate).
  destruct (Ascii.eqb_spec c "-") as [-> | Hc].
  { exfalso. apply Hno'. left. reflexivity. }
  destruct c as [[] [] [] [] [] [] [] []];
    solve [ eapply Hgen; exact Hp | exfalso; apply Hc; reflexivity ].
Qed.

Lemma id_number_nonneg (id : string) (n : Z) :
  id_number id = Some n -> 0 <= n.
Proof.
  unfold id_number. intros Hp.
  destruct (JS.split "-" (or_str id "") !! 1%nat) as [piece |] eqn:Hpiece.
  - apply (parseInt_nonneg piece); [| exact Hp].
    apply (split_go_no_sep "-" (or_str id "") []); [intros [] |].
    apply list_elem_of_lookup. eauto.
  - discriminate Hp.
Qed.

(** [Math.max(-1, ...ids)] is the greatest of [-1] and the [ids]. *)
Lemma max_from_spec (l : list Z) :
  forall init : Z,
    init <= JS.max_from init l /\
    (forall n, n ∈ l -> n <= JS.max_from init l) /\
    (JS.max_from init l = init \/ JS.max_from init l ∈ l).
Proof.
  unfold JS.max_from.
  induction l as [| a l IH]; intros init; simpl.
  - split; [lia |]. split; [intros n Hn; inversion Hn | left; reflexivity].
  - destruct (IH (Z.max init a)) as (Hle & Hall & Hin).
    split; [lia |]. split.
    + intros n Hn. apply elem_of_cons in Hn as [-> | Hn]; [lia | auto].
    + destruct Hin as [Heq | Hin]; [| right; right; exact Hin].
      rewrite Heq. destruct (Z.max_spec init a) as [[_ ->] | [_ ->]];
        [right; left | left]; reflexivity.
Qed.

Lemma loadScene_counters (data : Document) (st : Playground) (objs : list SceneObject) :
  d_objects data = Some objs ->
  nextId (fst (loadScene data st)) = JS.or_opt_num (d_nextId data) (inferNextId objs) /\
  nextLinkId (fst (loadScene data st)) = JS.or_opt_num (d_nextLinkId data) 1 /\
  links (fst (loadScene data st)) = default [] (d_links data).
Proof.
  intros Hobjs. unfold loadScene. rewrite Hobjs. simpl fst.
  destruct (commitHistory_counters
              (applySnapshot
                 (mkSnapshot objs (default [] (d_links data))
                    (JS.or_opt_num (d_nextId data) (inferNextId objs))
                    (JS.or_opt_num (d_nextLinkId data) 1)) st)) as (-> & -> & ->).
  match goal with |- context [applySnapshot ?s st] =>
    pose proof (proj1 (applySnapshot_frame s st)) as Hm
  end.
  unfold model_of in Hm. injection Hm as _ Hl Hn Hk.
  rewrite Hn, Hk, Hl. simpl. repeat split.
  unfold JS.or_num at 1.
  destruct (Z.eqb_spec (JS.or_opt_num (d_nextLinkId data) 1) 0) as [He | _];
    [| reflexivity].
  exfalso. exact (or_opt_num_one_nonzero _ He).
Qed.

(** C3, as stated, fails on the code: the number is read from the
    second "-"-separated piece of an id, not from its trailing digits.
    With ids "obj-2" and "a-b-9" and no [nextId] in the document the
    loaded counter is 3, where the trailing suffixes give 10. *)
Lemma loadScene_trailing_suffix_counterexample :
  ~ (forall (data : Document) (st : Playground) (objs : list SceneObject),
        d_objects data = Some objs -> d_nextId data = None ->
        nextId (fst (loadScene data st)) = spec_inferred_counter (map o_id objs)).
Proof.
  intros H.
  set (objs := [demo_object "obj-2" 0 0; demo_object "a-b-9" 0 0]).
  set (data := mkDocument (Some objs) None None None).
  specialize (H data two_objects objs eq_refl eq_refl).
  rewrite (proj1 (loadScene_counters data two_objects objs eq_refl)) in H.
  vm_compute in H. discriminate H.
Qed.

(** C3, amended.  When a loaded document has no [nextId], its object
    ids are ASCII strings and every number that [parseInt] reads from
    the second "-"-separated piece of an object id is at most 2^53 - 1,
    the counter becomes one greater than the largest of these numbers,
    provided at least one id yields a number; it is then at most 2^53.
    The two provisos keep the statement where the exact integers and
    the ASCII white space of the embedding are what the source
    computes (doubles, the full white-space class). *)
Theorem loadScene_infers_nextId
    (data : Document) (st : Playground) (objs : list SceneObject) :
  d_objects data = Some objs ->
  d_nextId data = None ->
  let numbers := omap (fun o => id_number (o_id o)) objs in
  let inferred := nextId (fst (loadScene data st)) in
  Forall (fun o => ascii_only (o_id o)) objs ->
  Forall safe_number numbers ->
  numbers <> [] ->
  inferred - 1 ∈ numbers /\ (forall n, n ∈ numbers -> n < inferred) /\
  inferred <= 2 ^ 53.
Proof.
  intros Hobjs Hnone numbers inferred _ Hsafe Hsome. subst inferred.
  rewrite (proj1 (loadScene_counters _ _ _ Hobjs)), Hnone. simpl.
  unfold inferNextId. fold numbers. rewrite or_num_zero.
  destruct (max_from_spec numbers (-1)) as (_ & Hall & Hin).
  rewrite Forall_forall in Hsafe.
  assert (Hmax : JS.max_from (-1) numbers ∈ numbers).
  { destruct Hin as [Heq | Hin]; [| exact Hin].
    destruct numbers as [| n rest]; [contradiction |].
    pose proof (Hsafe n ltac:(left)) as [Hn _]. specialize (Hall n ltac:(left)). lia. }
  split; [| split].
  - replace (JS.max_from (-1) numbers + 1 - 1) with (JS.max_from (-1) numbers) by lia.
    exact Hmax.
  - intros n Hn. specialize (Hall n Hn). lia.
  - destruct (Hsafe _ Hmax) as [_ Hlt]. lia.
Qed.

Lemma loadScene_infers_nextId_witness :
  let objs := [demo_object "obj-2" 0 0; demo_object "a-b-9" 0 0; demo_object "obj-5" 0 0] in
  let data := mkDocument (Some objs) None None None in
  d_objects data = Some objs /\ d_nextId data = None /\
  Forall (fun o => ascii_only (o_id o)) objs /\
  omap (fun o => id_number (o_id o)) objs = [2; 5] /\
  Forall safe_number [2; 5] /\
  nextId (fst (loadScene data two_objects)) - 1
  ∈ omap (fun o => id_number (o_id o)) objs.
Proof.
  intros objs data.
  assert (Hnum : omap (fun o => id_number (o_id o)) objs = [2; 5]) by reflexivity.
  assert (Hne : omap (fun o => id_number (o_id o)) objs <> [])
    by (rewrite Hnum; discriminate).
  assert (Hascii : Forall (fun o => ascii_only (o_id o)) objs).
  { repeat constructor; unfold ascii_only; simpl;
      repeat (constructor; [vm_compute; lia |]); constructor. }
  assert (Hsafe : Forall safe_number [2; 5])
    by (repeat constructor; unfold safe_number; lia).
  assert (Hsafe' : Forall safe_number (omap (fun o => id_number (o_id o)) objs))
    by (rewrite Hnum; exact Hsafe).
  destruct (loadScene_infers_nextId data two_objects objs eq_refl eq_refl
              Hascii Hsafe' Hne) as [Hin _].
  split; [reflexivity |]. split; [reflexivity |]. split; [exact Hascii |].
  split; [exact Hnum |]. split; [exact Hsafe | exact Hin].
Defined.

(** Two more facts about the inference, next to the claim: no pattern
    match leaves the object counter at 0, and a document without
    [nextLinkId] gets link counter 1 whatever link ids it carries
    ([inferNextLinkId] is only consulted for a counter of 0). *)
Remark inferNextId_no_number :
  inferNextId [] = 0 /\ inferNextId [demo_object "circle7" 0 0] = 0.
Proof. split; reflexivity. Qed.

Remark loadScene_link_counter_default
    (data : Document) (st : Playground) (objs : list SceneObject) :
  d_objects data = Some objs ->
  d_nextLinkId data = None ->
  nextLinkId (fst (loadScene data st)) = 1.
Proof.
  intros Hobjs Hnone.
  rewrite (proj1 (proj2 (loadScene_counters _ _ _ Hobjs))), Hnone. reflexivity.
Qed.

(** ** Deleting an object *)

Lemma touches_spec (X : string) (link : SpringLink) :
  touches X link = true <-> l_a link = X \/ l_b link = X.
Proof.
  unfold touches. rewrite orb_true_iff.
  destruct (String.eqb_spec (l_a link) X), (String.eqb_spec (l_b link) X);
    intuition congruence.
Qed.

Lemma removeLinksFor_each_frame (X : string) (st : Playground) (link : SpringLink) :
  let st' := removeLinksFor_each X st link in
  objects st' = objects st /\ links st' = links st /\
  bodyMap st' = bodyMap st /\
  nextId st' = nextId st /\ nextLinkId st' = nextLinkId st /\
  history st' = history st /\ historyIndex st' = historyIndex st /\
  selectedIds st' = selectedIds st /\
  w_bodies (world st') = w_bodies (world st).
Proof.
  unfold removeLinksFor_each.
  destruct (touches X link); [| repeat split].
  destruct (linkMap st !! l_id link); repeat split.
Qed.

Lemma removeLinksFor_loop (X : string) (l : list SpringLink) :
  forall s : Playground,
    let s' := foldl (removeLinksFor_each X) s l in
    (forall link, link ∈ l -> touches X link = true ->
                  linkMap s' !! l_id link = None) /\
    (forall k, (forall link, link ∈ l -> touches X link = true -> l_id link <> k) ->
               linkMap s' !! k = linkMap s !! k) /\
    (forall k, linkMap s !! k = None -> linkMap s' !! k = None) /\
    (forall h, h ∈ w_constraints (world s') -> h ∈ w_constraints (world s)) /\
    (forall k c, linkMap s !! k = Some c -> linkMap s' !! k = None ->
                 c_handle c ∉ w_constraints (world s')).
Proof.
  induction l as [| x l IH]; intros s; simpl.
  - repeat split; try tauto; try congruence.
    intros link Hin. inversion Hin.
  - destruct (IH (removeLinksFor_each X s x)) as (Hgone & Hkeep & Hnone & Hsub & Hrem).
    assert (Hstep_none : forall k, linkMap s !! k = None ->
                                   linkMap (removeLinksFor_each X s x) !! k = None).
    { intros k Hk. unfold removeLinksFor_each.
      destruct (touches X x); [| exact Hk].
      destruct (linkMap s !! l_id x); simpl;
        (destruct (decide (l_id x = k)) as [-> | Hne];
         [apply lookup_delete_eq | rewrite lookup_delete_ne by exact Hne; exact Hk]). }
    assert (Hstep_sub : forall h,
               h ∈ w_constraints (world (removeLinksFor_each X s x)) ->
               h ∈ w_constraints (world s)).
    { intros h. unfold removeLinksFor_each.
      destruct (touches X x); [| tauto].
      destruct (linkMap s !! l_id x); simpl; [| tauto].
      rewrite elem_of_difference. tauto. }
    split; [| split; [| split; [| split]]].
    + intros link Hin Ht. apply elem_of_cons in Hin as [-> | Hin]; [| auto].
      apply Hnone. unfold removeLinksFor_each. rewrite Ht.
      destruct (linkMap s !! l_id x); simpl; apply lookup_delete_eq.
    + intros k Hk. rewrite Hkeep.
      * unfold removeLinksFor_each.
        destruct (touches X x) eqn:Ht; [| reflexivity].
        assert (l_id x <> k) by (apply Hk; [left | exact Ht]).
        destruct (linkMap s !! l_id x); simpl; apply lookup_delete_ne; assumption.
      * intros link Hin. apply Hk. right. exact Hin.
    + intros k Hk. apply Hnone, Hstep_none, Hk.
    + intros h Hh. apply Hstep_sub, Hsub, Hh.
    + intros k c Hk Hk'.
      destruct (linkMap (removeLinksFor_each X s x) !! k) as [c' |] eqn:Hmid.
      * assert (c' = c) as ->.
        { revert Hmid. unfold removeLinksFor_each.
          destruct (touches X x); [| congruence].
          destruct (linkMap s !! l_id x); simpl;
            (destruct (decide (l_id x = k)) as [-> | Hne];
             [rewrite lookup_delete_eq; discriminate
             | rewrite lookup_delete_ne by exact Hne; congruence]). }
        apply (Hrem k c Hmid Hk').
      * intros Hin. apply Hsub in Hin. revert Hmid Hin.
        unfold removeLinksFor_each.
        destruct (touches X x); [| congruence].
        destruct (decide (l_id x = k)) as [<- | Hne].
        -- rewrite Hk. simpl. intros _. rewrite elem_of_difference.
           intros [_ Hnot]. apply Hnot, elem_of_singleton. reflexivity.
        -- destruct (linkMap s !! l_id x); simpl;
             rewrite lookup_delete_ne by exact Hne; congruence.
Qed.

Lemma removeLinksFor_spec (X : string) (s0 : Playground) :
  let s1 := removeLinksFor X s0 in
  links s1 = filter (fun link => negb (touches X link)) (links s0) /\
  objects s1 = objects s0 /\ bodyMap s1 = bodyMap s0 /\
  w_bodies (world s1) = w_bodies (world s0) /\
  nextId s1 = nextId s0 /\ nextLinkId s1 = nextLinkId s0 /\
  history s1 = history s0 /\ historyIndex s1 = historyIndex s0 /\
  (forall link, link ∈ links s0 -> touches X link = true ->
                linkMap s1 !! l_id link = None) /\
  (forall k, (forall link, link ∈ links s0 -> touches X link = true -> l_id link <> k) ->
             linkMap s1 !! k = linkMap s0 !! k) /\
  (forall k c, linkMap s0 !! k = Some c -> linkMap s1 !! k = None ->
               c_handle c ∉ w_constraints (world s1)).
Proof.
  unfold removeLinksFor. simpl.
  destruct (removeLinksFor_loop X (links s0) s0) as (Hgone & Hkeep & _ & _ & Hrem).
  assert (Hframe :
            let s := foldl (removeLinksFor_each X) s0 (links s0) in
            objects s = objects s0 /\ bodyMap s = bodyMap s0 /\
            w_bodies (world s) = w_bodies (world s0) /\
            nextId s = nextId s0 /\ nextLinkId s = nextLinkId s0 /\
            history s = history s0 /\ historyIndex s = historyIndex s0).
  { apply (foldl_preserves
      (fun s => objects s = objects s0 /\ bodyMap s = bodyMap s0 /\
                w_bodies (world s) = w_bodies (world s0) /\
                nextId s = nextId s0 /\ nextLinkId s = nextLinkId s0 /\
                history s = history s0 /\ historyIndex s = historyIndex s0));
      [| repeat split].
    intros s link Hs.
    destruct (removeLinksFor_each_frame X s link)
      as (-> & _ & -> & -> & -> & -> & -> & _ & ->).
    exact Hs. }
  destruct Hframe as (Ho & Hb & Hw & Hn & Hk & Hh & Hi).
  repeat split; assumption.
Qed.

Lemma syncModelTransforms_ids (st : Playground) :
  map o_id (objects (syncModelTransforms st)) = map o_id (objects st).
Proof.
  simpl. rewrite map_map. apply map_ext. intros o.
  destruct (bodyMap st !! o_id o); reflexivity.
Qed.

Lemma ids_filter_ne (X : string) (objs : list SceneObject) :
  map o_id (filter (fun o => negb (String.eqb (o_id o) X)) objs)
  = filter (fun i => i <> X) (map o_id objs).
Proof.
  induction objs as [| o objs IH]; [reflexivity |].
  rewrite filter_cons. simpl map. rewrite filter_cons.
  destruct (String.eqb_spec (o_id o) X) as [He | Hne]; simpl;
    repeat case_decide; simpl; try tauto; congruence.
Qed.

Opaque removeLinksFor.

(** C6. Deleting the selected object X removes exactly the link records
    with an endpoint X (the others stay, in order), drops the constraint
    handles of the removed links from the handle table and from the
    world, removes X's own body, and leaves the body handle of every
    other object as it was. *)
Theorem deleteSelection_cascade (st : Playground) (X : string) :
  selectedIds st = [X] ->
  let st' := deleteSelection st in
  links st' = filter (fun l => l_a l <> X /\ l_b l <> X) (links st) /\
  (forall l, l ∈ links st -> l_a l = X \/ l_b l = X ->
             linkMap st' !! l_id l = None /\
             forall c, linkMap st !! l_id l = Some c ->
                       c_handle c ∉ w_constraints (world st')) /\
  (forall k, (forall l, l ∈ links st -> l_a l = X \/ l_b l = X -> l_id l <> k) ->
             linkMap st' !! k = linkMap st !! k) /\
  (forall Y, Y <> X -> bodyMap st' !! Y = bodyMap st !! Y) /\
  bodyMap st' !! X = None /\
  w_bodies (world st')
  = match bodyMap st !! X with
    | Some body => w_bodies (world st) ∖ {[b_handle body]}
    | None => w_bodies (world st)
    end /\
  map o_id (objects st') = filter (fun i => i <> X) (map o_id (objects st)).
Proof.
  intros Hsel st'. subst st'. unfold deleteSelection. rewrite Hsel. simpl foldl.
  unfold deleteSelection_each.
  set (s0 := set_objects _ (set_bodyMap _ _)).
  destruct (removeLinksFor_spec X s0)
    as (Hl & Ho & Hb & Hw & _ & _ & _ & _ & Hgone & Hkeep & Hrem).
  assert (Hs0 : links s0 = links st /\ linkMap s0 = linkMap st /\
                bodyMap s0 = delete X (bodyMap st) /\
                w_bodies (world s0)
                = match bodyMap st !! X with
                  | Some body => w_bodies (world st) ∖ {[b_handle body]}
                  | None => w_bodies (world st)
                  end /\
                objects s0 = filter (fun o => negb (String.eqb (o_id o) X)) (objects st)).
  { subst s0. destruct (bodyMap st !! X); repeat split. }
  destruct Hs0 as (Hl0 & Hlm0 & Hbm0 & Hwb0 & Ho0).
  rewrite Hl0 in Hl, Hgone, Hkeep. rewrite Hbm0 in Hb. rewrite Hwb0 in Hw.
  rewrite Ho0 in Ho. clearbody s0.
  simpl. rewrite Hl, Hb, Hw, Ho.
  split; [| split; [| split; [| split; [| split; [| split]]]]].
  - apply list_filter_iff. intros l.
    pose proof (touches_spec X l) as Ht. destruct (touches X l); simpl.
    + split; [intros [] |].
      intros [Hna Hnb]. destruct (proj1 Ht eq_refl); contradiction.
    + split; [intros _ | intros _; exact I].
      split; intros He; assert (false = true) by (apply Ht; auto); discriminate.
  - intros l Hin Ht. apply touches_spec in Ht. split; [apply Hgone; assumption |].
    intros c Hc. apply (Hrem (l_id l) c); [rewrite Hlm0; exact Hc |].
    apply Hgone; assumption.
  - intros k Hk. rewrite Hkeep, Hlm0; [reflexivity |].
    intros l Hin Ht. apply Hk; [exact Hin | apply touches_spec, Ht].
  - intros Y HY. apply lookup_delete_ne. congruence.
  - apply lookup_delete_eq.
  - reflexivity.
  - rewrite map_map, <- ids_filter_ne. apply map_ext. intros o.
    destruct (delete X (bodyMap st) !! o_id o); reflexivity.
Qed.

Lemma deleteSelection_cascade_witness :
  selectedIds linked_pair = ["obj-1"%string] /\
  links (deleteSelection linked_pair) = [] /\
  linkMap (deleteSelection linked_pair) !! "link-1" = None /\
  bodyMap (deleteSelection linked_pair) !! "obj-2"
  = Some (demo_body 10%positive "obj-2" 400 100).
Proof.
  assert (Hsel : selectedIds linked_pair = ["obj-1"%string]) by reflexivity.
  destruct (deleteSelection_cascade linked_pair "obj-1" Hsel)
    as (Hl & Hgone & _ & Hb & _).
  split; [exact Hsel |].
  split; [rewrite Hl; reflexivity |].
  split; [apply (Hgone demo_link); [left | left; reflexivity] |].
  rewrite (Hb "obj-2"%string) by discriminate. reflexivity.
Defined.

(** ** Saving and loading *)

Lemma last_with_id_id (id : string) (objs : list SceneObject) (o : SceneObject) :
  last_with_id id objs = Some o -> o_id o = id.
Proof.
  induction objs as [| a objs IH]; simpl; [discriminate |].
  destruct (last_with_id id objs) as [o' |]; [intros [= <-]; auto |].
  destruct (String.eqb_spec (o_id a) id); [intros [= <-]; assumption | discriminate].
Qed.

Lemma applySnapshot_each_lookup (st : Playground) (model : SceneObject) (id : string) :
  bodyMap (applySnapshot_each st model) !! id
  = if String.eqb (o_id model) id then Some (body_of model (w_next (world st)))
    else bodyMap st !! id.
Proof.
  unfold applySnapshot_each, buildBody. simpl.
  destruct (String.eqb_spec (o_id model) id) as [-> | Hne].
  - apply lookup_insert_eq.
  - apply lookup_insert_ne, Hne.
Qed.

(** After the materialisation loop, an id maps to a body built from the
    last object carrying it. *)
Lemma applySnapshot_loop_lookup (objs : list SceneObject) (id : string) :
  forall st : Playground,
    match last_with_id id objs with
    | Some o => exists h, bodyMap (foldl applySnapshot_each st objs) !! id
                          = Some (body_of o h)
    | None => bodyMap (foldl applySnapshot_each st objs) !! id = bodyMap st !! id
    end.
Proof.
  induction objs as [| a objs IH]; intros st; simpl; [reflexivity |].
  specialize (IH (applySnapshot_each st a)).
  destruct (last_with_id id objs) as [o |]; [exact IH |].
  rewrite IH, applySnapshot_each_lookup.
  destruct (String.eqb (o_id a) id); [eexists |]; reflexivity.
Qed.

Lemma attachLink_loop_bodyMap (ls : list SpringLink) :
  forall s : Playground,
    bodyMap (foldl (fun st link => attachLink link st) s ls) = bodyMap s.
Proof.
  induction ls as [| l ls IH]; intros s; simpl; [reflexivity |].
  rewrite IH. apply attachLink_frame.
Qed.

Lemma applySnapshot_bodies (snapshot : Snapshot) (st : Playground) (id : string) :
  match last_with_id id (s_objects snapshot) with
  | Some o => exists h, bodyMap (applySnapshot snapshot st) !! id = Some (body_of o h)
  | None => bodyMap (applySnapshot snapshot st) !! id = None
  end.
Proof.
  unfold applySnapshot. rewrite attachLink_loop_bodyMap. simpl.
  match goal with |- context [foldl applySnapshot_each ?s0 _] =>
    pose proof (applySnapshot_loop_lookup (s_objects snapshot) id s0) as Hloop
  end.
  destruct (last_with_id id (s_objects snapshot)); [exact Hloop |].
  rewrite Hloop. apply lookup_empty.
Qed.

Lemma body_of_pose (o : SceneObject) (h : Handle) :
  mkVec (vx (b_position (body_of o h))) (vy (b_position (body_of o h))) = o_position o /\
  b_angle (body_of o h) = o_angle o.
Proof. rewrite body_of_eq. simpl. destruct (o_position o); split; reflexivity. Qed.

Lemma commitHistory_objects (st : Playground) :
  objects (commitHistory st)
  = map (fun model =>
           match bodyMap st !! o_id model with
           | None => model
           | Some body =>
               set_o_angle (b_angle body)
                 (set_o_position (mkVec (vx (b_position body)) (vy (b_position body)))
                    model)
           end)
        (objects st).
Proof. reflexivity. Qed.

(** What a successful load leaves in the model. *)
Lemma loadScene_objects (data : Document) (st : Playground) (objs : list SceneObject) :
  d_objects data = Some objs ->
  objects (fst (loadScene data st)) = settle objs.
Proof.
  intros Hobjs. unfold loadScene. rewrite Hobjs. simpl fst.
  set (snapshot := mkSnapshot objs _ _ _).
  rewrite commitHistory_objects.
  assert (Ho : objects (applySnapshot snapshot st) = objs).
  { pose proof (proj1 (applySnapshot_frame snapshot st)) as Hm.
    unfold model_of in Hm. injection Hm as Ho _ _ _. exact Ho. }
  rewrite Ho. unfold settle. apply map_ext. intros o.
  pose proof (applySnapshot_bodies snapshot st (o_id o)) as Hb.
  change (s_objects snapshot) with objs in Hb.
  destruct (last_with_id (o_id o) objs) as [o' |].
  - destruct Hb as [h ->].
    destruct (body_of_pose o' h) as [-> ->]. reflexivity.
  - rewrite Hb. reflexivity.
Qed.

Lemma last_with_id_map (f : SceneObject -> SceneObject) (id : string)
    (objs : list SceneObject) :
  (forall o, o_id (f o) = o_id o) ->
  last_with_id id (map f objs) = f <$> last_with_id id objs.
Proof.
  intros Hf. induction objs as [| a objs IH]; simpl; [reflexivity |].
  rewrite IH. destruct (last_with_id id objs); simpl; [reflexivity |].
  rewrite Hf. destruct (String.eqb (o_id a) id); reflexivity.
Qed.

Lemma settle_ids (objs : list SceneObject) :
  map o_id (settle objs) = map o_id objs.
Proof.
  unfold settle. rewrite map_map. apply map_ext. intros o.
  destruct (last_with_id (o_id o) objs); reflexivity.
Qed.

Lemma settle_idempotent (objs : list SceneObject) :
  settle (settle objs) = settle objs.
Proof.
  unfold settle at 1.
  set (f := fun o => match last_with_id (o_id o) objs with
                     | Some o' => set_o_angle (o_angle o') (set_o_position (o_position o') o)
                     | None => o
                     end).
  assert (Hf : forall o, o_id (f o) = o_id o)
    by (intros o; unfold f; destruct (last_with_id (o_id o) objs); reflexivity).
  change (settle objs) with (map f objs).
  rewrite <- (map_id (map f objs)) at 2. apply map_ext_in. intros o Hin.
  rewrite (last_with_id_map f _ objs Hf).
  apply in_map_iff in Hin as (o0 & <- & _). rewrite Hf.
  destruct (last_with_id (o_id o0) objs) as [o' |] eqn:Hlast; simpl.
  - assert (Hfo : f o0 = set_o_angle (o_angle o')
                            (set_o_position (o_position o') o0))
      by (unfold f; rewrite Hlast; reflexivity).
    assert (Hfo' : f o' = set_o_angle (o_angle o')
                             (set_o_position (o_position o') o'))
      by (unfold f; rewrite (last_with_id_id _ _ _ Hlast), Hlast; reflexivity).
    rewrite Hfo, Hfo'. reflexivity.
  - reflexivity.
Qed.

Lemma inferNextId_eq (objs : list SceneObject) :
  inferNextId objs = JS.max_from (-1) (omap id_number (map o_id objs)) + 1.
Proof.
  unfold inferNextId. cbv zeta. rewrite or_num_zero. do 2 f_equal.
  induction objs as [| a l IH]; simpl; [reflexivity |].
  destruct (id_number (o_id a)); [f_equal |]; exact IH.
Qed.

Lemma inferNextId_ids (objs objs' : list SceneObject) :
  map o_id objs = map o_id objs' -> inferNextId objs = inferNextId objs'.
Proof. intros Hids. rewrite !inferNextId_eq, Hids. reflexivity. Qed.

(** C9. For a document with an [objects] key, the document saved after
    loading it is a fixed point of load-then-save: loading that saved
    document (into any editor state) and saving again gives the same
    document. *)
Theorem save_load_idempotent
    (data : Document) (st st' : Playground) (objs : list SceneObject) :
  d_objects data = Some objs ->
  let second := showSave (fst (loadScene data st)) in
  let third := showSave (fst (loadScene second st')) in
  third = second.
Proof.
  intros Hobjs second third.
  destruct (loadScene_counters data st objs Hobjs) as (Hn & Hk & Hl).
  pose proof (loadScene_objects data st objs Hobjs) as Ho.
  assert (Hsecond : second
                    = mkDocument (Some (settle objs)) (Some (default [] (d_links data)))
                        (Some (JS.or_opt_num (d_nextId data) (inferNextId objs)))
                        (Some (JS.or_opt_num (d_nextLinkId data) 1))).
  { unfold second, showSave. rewrite Hn, Hk, Hl, Ho. reflexivity. }
  assert (Hobjs2 : d_objects second = Some (settle objs)) by (rewrite Hsecond; reflexivity).
  destruct (loadScene_counters second st' _ Hobjs2) as (Hn2 & Hk2 & Hl2).
  pose proof (loadScene_objects second st' _ Hobjs2) as Ho2.
  unfold third, showSave at 1. rewrite Hn2, Hk2, Hl2, Ho2, Hsecond. simpl.
  rewrite settle_idempotent. f_equal; f_equal.
  - rewrite (inferNextId_ids (settle objs) objs (settle_ids objs)).
    unfold JS.or_num.
    destruct (Z.eqb_spec (JS.or_opt_num (d_nextId data) (inferNextId objs)) 0)
      as [Hz | _]; [| reflexivity].
    rewrite Hz. destruct (d_nextId data) as [v |]; simpl in *; [| exact Hz].
    unfold JS.or_num in Hz. destruct (Z.eqb_spec v 0); [exact Hz | contradiction].
  - unfold JS.or_num.
    destruct (Z.eqb_spec (JS.or_opt_num (d_nextLinkId data) 1) 0) as [Hz | _];
      [| reflexivity].
    exfalso. exact (or_opt_num_one_nonzero _ Hz).
Qed.

Lemma save_load_idempotent_witness :
  let objs := [demo_object "obj-1" 100 100; demo_object "obj-1" 50 60] in
  let data := mkDocument (Some objs) None None None in
  d_objects data = Some objs /\
  showSave (fst (loadScene (showSave (fst (loadScene data two_objects))) linked_pair))
  = showSave (fst (loadScene data two_objects)).
Proof.
  intros objs data. split; [reflexivity |].
  exact (save_load_idempotent data two_objects linked_pair objs eq_refl).
Defined.

(** ** The invariant of reachable states *)

Lemma same_model_refl (st : Playground) : same_model st st.
Proof. repeat split; auto. Qed.

Lemma same_model_trans (a b c : Playground) :
  same_model a b -> same_model b c -> same_model a c.
Proof.
  intros (Ho & Hl & Hn & Hk & Hh & Hb) (Ho' & Hl' & Hn' & Hk' & Hh' & Hb').
  repeat split; try congruence; intros Hi.
  - apply Hb, Hb', Hi.
  - apply Hb', Hb, Hi.
Qed.

Lemma consistent_same_model (st st' : Playground) :
  consistent st -> same_model st st' -> consistent st'.
Proof.
  intros ((Hc & He) & Hh & Hb) (Ho' & Hl' & Hn' & Hk' & Hh' & Hb').
  unfold consistent, snapshot_ok, model_of in *. simpl in *.
  rewrite Ho', Hl', Hn', Hk', Hh'.
  split; [split; assumption |]. split; [assumption |].
  intros i Hi. apply Hb, Hb', Hi.
Qed.

Lemma slice0_Forall {A} (P : A -> Prop) (e : Z) (l : list A) :
  Forall P l -> Forall P (JS.slice0 e l).
Proof.
  intros Hl. unfold JS.slice0. destruct (Z.ltb e 0); apply Forall_take, Hl.
Qed.

Lemma syncModelTransforms_same_model (st : Playground) :
  same_model st (syncModelTransforms st).
Proof.
  repeat split; try tauto. apply syncModelTransforms_ids.
Qed.

Lemma commitHistory_consistent (st : Playground) :
  consistent st -> consistent (commitHistory st).
Proof.
  intros Hst.
  pose proof (consistent_same_model _ _ Hst (syncModelTransforms_same_model st))
    as (Hm & Hh & Hb).
  split; [exact Hm |]. split; [| exact Hb].
  rewrite (proj1 (commitHistory_history st)).
  apply Forall_app. split; [apply slice0_Forall, Hh |].
  apply Forall_singleton. exact Hm.
Qed.

Lemma commitHistory_monotone (st : Playground) :
  nextId (commitHistory st) = nextId st /\
  nextLinkId (commitHistory st) = nextLinkId st.
Proof. split; reflexivity. Qed.

Lemma attachLink_same_model (link : SpringLink) (st : Playground) :
  same_model st (attachLink link st).
Proof.
  destruct (attachLink_frame link st) as (Hb & _ & Ho & Hl & Hn & Hk & Hh & _).
  unfold same_model, ids. rewrite Hb, Ho, Hl, Hn, Hk, Hh. repeat split; auto.
Qed.

Lemma refreshLinksFor_same_model (id : string) (st : Playground) :
  same_model st (refreshLinksFor id st).
Proof.
  destruct (refreshLinksFor_frame id st) as (Hb & _ & Ho & Hl & Hn & Hk & Hh & _).
  unfold same_model, ids. rewrite Hb, Ho, Hl, Hn, Hk, Hh. repeat split; auto.
Qed.

Lemma rebuildBody_same_model (model : SceneObject) (st : Playground) :
  same_model st (rebuildBody model st).
Proof.
  destruct (bodyMap st !! o_id model) as [existing |] eqn:Hlive.
  - rewrite (rebuildBody_live _ _ _ Hlive).
    eapply same_model_trans; [| apply refreshLinksFor_same_model].
    repeat split; simpl; intros Hi.
    + destruct (decide (o_id model = i)) as [<- | Hne]; [eauto |].
      rewrite lookup_insert_ne in Hi by exact Hne. exact Hi.
    + destruct (decide (o_id model = i)) as [<- | Hne].
      * rewrite lookup_insert_eq. eauto.
      * rewrite lookup_insert_ne by exact Hne. exact Hi.
  - unfold rebuildBody. rewrite Hlive. apply same_model_refl.
Qed.

Lemma update_object_ids (id : string) (f : SceneObject -> SceneObject)
    (objs : list SceneObject) :
  (forall o, o_id (f o) = o_id o) ->
  ids (update_object id f objs) = ids objs.
Proof.
  intros Hf. induction objs as [| o objs IH]; simpl; [reflexivity |].
  destruct (String.eqb (o_id o) id); simpl; [rewrite Hf | rewrite IH]; reflexivity.
Qed.

Lemma set_objects_same_model (objs : list SceneObject) (st : Playground) :
  ids objs = ids (objects st) -> same_model st (set_objects objs st).
Proof. intros Hids. repeat split; auto. Qed.

Lemma foldl_same_model {B} (f : Playground -> B -> Playground) (l : list B)
    (st : Playground) :
  (forall s b, same_model s (f s b)) -> same_model st (foldl f st l).
Proof.
  intros Hf. apply (foldl_preserves (same_model st)); [| apply same_model_refl].
  intros s b Hs. eapply same_model_trans; [exact Hs | apply Hf].
Qed.

Lemma edit_and_rebuild_same_model (f : SceneObject -> SceneObject) (st : Playground) :
  (forall o, o_id (f o) = o_id o) -> same_model st (edit_and_rebuild f st).
Proof.
  intros Hf. unfold edit_and_rebuild. apply foldl_same_model. intros s id.
  destruct (find_object id (objects s)) as [model |]; [| apply same_model_refl].
  eapply same_model_trans; [| apply rebuildBody_same_model].
  apply set_objects_same_model, update_object_ids, Hf.
Qed.

Lemma consistent_add_object (st s : Playground) :
  consistent st ->
  ids (objects s) = ids (objects st) ++ [objId (nextId st)] ->
  links s = links st ->
  nextId s = nextId st + 1 ->
  nextLinkId s = nextLinkId st ->
  history s = history st ->
  (forall i, is_Some (bodyMap s !! i) ->
             is_Some (bodyMap st !! i) \/ i = objId (nextId st)) ->
  consistent s.
Proof.
  intros (((Hobj & Hlnk & Hn & Hk) & He) & Hh & Hb) Ho' Hl' Hn' Hk' Hh' Hb'.
  unfold consistent, snapshot_ok, model_of, counters_ok, endpoints_ok in *.
  simpl in *. rewrite Ho', Hl', Hn', Hk', Hh'.
  split; [split; [split; [| split; [| split]] |] | split].
  - intros i Hi. apply elem_of_app in Hi as [Hi | Hi].
    + destruct (Hobj i Hi) as (m & -> & Hm). exists m. split; [reflexivity | lia].
    + apply list_elem_of_singleton in Hi as ->. exists (nextId st).
      split; [reflexivity | lia].
  - exact Hlnk.
  - lia.
  - exact Hk.
  - intros l Hl. destruct (He l Hl) as [Ha Hb0].
    split; apply elem_of_app; left; assumption.
  - exact Hh.
  - intros i Hi. apply elem_of_app.
    destruct (Hb' i Hi) as [Hold | ->]; [left; apply Hb, Hold | right; left].
Qed.

Lemma consistent_add_link (st s : Playground) (aId bId : string) (o : LinkOptions) :
  consistent st ->
  is_Some (bodyMap st !! aId) -> is_Some (bodyMap st !! bId) ->
  ids (objects s) = ids (objects st) ->
  links s = links st ++ [mkLink (linkId (nextLinkId st)) aId bId o] ->
  nextId s = nextId st ->
  nextLinkId s = nextLinkId st + 1 ->
  history s = history st ->
  bodyMap s = bodyMap st ->
  consistent s.
Proof.
  intros (((Hobj & Hlnk & Hn & Hk) & He) & Hh & Hb) Ha Hb0 Ho' Hl' Hn' Hk' Hh' Hb'.
  unfold consistent, snapshot_ok, model_of, counters_ok, endpoints_ok in *.
  simpl in *. rewrite Ho', Hl', Hn', Hk', Hh', Hb'.
  split; [split; [split; [| split; [| split]] |] | split].
  - exact Hobj.
  - intros l Hl. apply elem_of_app in Hl as [Hl | Hl].
    + destruct (Hlnk l Hl) as (m & Hm & Hr). exists m. split; [exact Hm | lia].
    + apply list_elem_of_singleton in Hl as ->. exists (nextLinkId st).
      split; [reflexivity | lia].
  - exact Hn.
  - lia.
  - intros l Hl. apply elem_of_app in Hl as [Hl | Hl]; [apply He, Hl |].
    apply list_elem_of_singleton in Hl as ->. simpl. split; apply Hb; assumption.
  - exact Hh.
  - exact Hb.
Qed.

Lemma consistent_delete (st s : Playground) (X : string) :
  consistent st ->
  ids (objects s) = filter (fun i => i <> X) (ids (objects st)) ->
  links s = filter (fun link => negb (touches X link)) (links st) ->
  nextId s = nextId st ->
  nextLinkId s = nextLinkId st ->
  history s = history st ->
  bodyMap s = delete X (bodyMap st) ->
  consistent s.
Proof.
  intros (((Hobj & Hlnk & Hn & Hk) & He) & Hh & Hb) Ho' Hl' Hn' Hk' Hh' Hb'.
  unfold consistent, snapshot_ok, model_of, counters_ok, endpoints_ok in *.
  simpl in *. rewrite Ho', Hl', Hn', Hk', Hh', Hb'.
  split; [split; [split; [| split; [| split]] |] | split].
  - intros i Hi. apply list_elem_of_filter in Hi as [_ Hi]. apply Hobj, Hi.
  - intros l Hl. apply list_elem_of_filter in Hl as [_ Hl]. apply Hlnk, Hl.
  - exact Hn.
  - exact Hk.
  - intros l Hl. apply list_elem_of_filter in Hl as [Ht Hl].
    destruct (He l Hl) as [Ha Hb0].
    pose proof (touches_spec X l) as Hspec.
    destruct (touches X l); [destruct Ht |].
    split; apply list_elem_of_filter; (split; [| assumption]);
      intros Heq; assert (false = true) by (apply Hspec; auto); discriminate.
  - exact Hh.
  - intros i Hi. destruct (decide (X = i)) as [<- | Hne].
    + rewrite lookup_delete_eq in Hi. destruct Hi as [? Hi]; discriminate Hi.
    + rewrite lookup_delete_ne in Hi by exact Hne.
      apply list_elem_of_filter. split; [congruence | apply Hb, Hi].
Qed.

Lemma last_with_id_in (id : string) (objs : list SceneObject) (o : SceneObject) :
  last_with_id id objs = Some o -> o ∈ objs.
Proof.
  induction objs as [| a objs IH]; simpl; [discriminate |].
  destruct (last_with_id id objs) as [o' |].
  - intros [= <-]. right. auto.
  - destruct (String.eqb (o_id a) id); [intros [= <-]; left | discriminate].
Qed.

Lemma applySnapshot_objects (snapshot : Snapshot) (st : Playground) :
  objects (applySnapshot snapshot st) = s_objects snapshot.
Proof.
  pose proof (proj1 (applySnapshot_frame snapshot st)) as Hm.
  unfold model_of in Hm. injection Hm as Ho _ _ _. exact Ho.
Qed.

Lemma applySnapshot_consistent (snapshot : Snapshot) (st : Playground) :
  snapshot_ok snapshot ->
  Forall snapshot_ok (history st) ->
  consistent (applySnapshot snapshot st).
Proof.
  intros Hs Hh.
  assert (Hk : s_nextLinkId snapshot <> 0)
    by (destruct Hs as ((_ & _ & _ & Hk) & _); lia).
  split; [| split].
  - rewrite (model_of_applySnapshot _ _ Hk). exact Hs.
  - rewrite (proj1 (proj2 (applySnapshot_frame snapshot st))). exact Hh.
  - intros i Hi. rewrite applySnapshot_objects.
    pose proof (applySnapshot_bodies snapshot st i) as Hb.
    destruct (last_with_id i (s_objects snapshot)) as [o |] eqn:Hlast.
    + rewrite <- (last_with_id_id _ _ _ Hlast).
      apply list_elem_of_fmap_2, (last_with_id_in _ _ _ Hlast).
    + rewrite Hb in Hi. destruct Hi as [? Hi]. discriminate Hi.
Qed.

Lemma js_index_elem {A} (l : list A) (i : Z) (x : A) :
  js_index l i = Some x -> x ∈ l.
Proof.
  unfold js_index. destruct (Z.ltb i 0); [discriminate |].
  intros Hx. apply list_elem_of_lookup. eauto.
Qed.

Lemma undo_consistent (st : Playground) : consistent st -> consistent (undo st).
Proof.
  intros Hst. unfold undo. destruct (Z.leb (historyIndex st) 0); [exact Hst |].
  simpl. destruct (js_index (history st) (historyIndex st - 1)) as [s |] eqn:Hs.
  - apply applySnapshot_consistent; [| apply Hst].
    destruct Hst as (_ & Hh & _). rewrite Forall_forall in Hh.
    apply Hh, (js_index_elem _ _ _ Hs).
  - apply (consistent_same_model st); [exact Hst | repeat split; auto].
Qed.

Lemma redo_consistent (st : Playground) : consistent st -> consistent (redo st).
Proof.
  intros Hst. unfold redo.
  destruct (Z.leb (Z.of_nat (length (history st)) - 1) (historyIndex st));
    [exact Hst |].
  simpl. destruct (js_index (history st) (historyIndex st + 1)) as [s |] eqn:Hs.
  - apply applySnapshot_consistent; [| apply Hst].
    destruct Hst as (_ & Hh & _). rewrite Forall_forall in Hh.
    apply Hh, (js_index_elem _ _ _ Hs).
  - apply (consistent_same_model st); [exact Hst | repeat split; auto].
Qed.

Lemma cosmetic_consistent (st st' : Playground) :
  consistent st -> cosmetic st st' -> consistent st'.
Proof.
  intros Hst (s & Hs & [-> | ->]).
  - exact (consistent_same_model _ _ Hst Hs).
  - apply commitHistory_consistent, (consistent_same_model _ _ Hst Hs).
Qed.

Lemma cosmetic_counters (st st' : Playground) :
  cosmetic st st' -> nextId st' = nextId st /\ nextLinkId st' = nextLinkId st.
Proof.
  intros (s & (_ & _ & Hn & Hk & _) & [-> | ->]); [split; assumption |].
  destruct (commitHistory_monotone s) as [-> ->]. split; assumption.
Qed.

Lemma cosmetic_refl (st : Playground) : cosmetic st st.
Proof. exists st. split; [apply same_model_refl | left; reflexivity]. Qed.

Lemma cosmetic_commit (st s : Playground) :
  same_model st s -> cosmetic st (commitHistory s).
Proof. intros Hs. exists s. split; [exact Hs | right; reflexivity]. Qed.

Lemma cosmetic_same (st s : Playground) : same_model st s -> cosmetic st s.
Proof. intros Hs. exists s. split; [exact Hs | left; reflexivity]. Qed.

Lemma handleSelection_same_model (id : string) (additive : bool) (st : Playground) :
  same_model st (handleSelection id additive st).
Proof.
  unfold handleSelection.
  destruct additive; [destruct (bool_decide _) |]; repeat split; auto.
Qed.

Lemma clearSelection_same_model (st : Playground) : same_model st (clearSelection st).
Proof. repeat split; auto. Qed.

Lemma chooseTool_same_model (tool : string) (st : Playground) :
  same_model st (chooseTool tool st).
Proof. repeat split; auto. Qed.

Lemma showHint_same_model (text : string) (st : Playground) :
  same_model st (showHint text st).
Proof. repeat split; auto. Qed.

Lemma addBounds_same_model (st : Playground) : same_model st (addBounds st).
Proof. repeat split; auto. Qed.

Lemma tick_same_model (step : Body -> Kinematics) (st : Playground) :
  same_model st (tick step st).
Proof.
  unfold tick.
  eapply same_model_trans; [| apply syncModelTransforms_same_model].
  repeat split; auto; simpl; rewrite lookup_fmap, fmap_is_Some; auto.
Qed.

Lemma updatePhysics_cosmetic (patch : PhysicsPatch) (st : Playground) :
  cosmetic st (updatePhysics patch st).
Proof.
  unfold updatePhysics. destruct (selectedIds st); [apply cosmetic_refl |].
  apply cosmetic_commit, edit_and_rebuild_same_model. reflexivity.
Qed.

Lemma updateSelection_cosmetic (type : BodyType) (st : Playground) :
  cosmetic st (updateSelection type st).
Proof.
  unfold updateSelection. destruct (selectedIds st); [apply cosmetic_refl |].
  apply cosmetic_commit, edit_and_rebuild_same_model. reflexivity.
Qed.

Lemma updateVisual_cosmetic (patch : VisualPatch) (st : Playground) :
  cosmetic st (updateVisual patch st).
Proof.
  unfold updateVisual. destruct (selectedIds st) as [| i sel] eqn:Hsel;
    [apply cosmetic_refl |].
  apply cosmetic_commit, foldl_same_model. intros s id.
  destruct (find_object id (objects s)); [| apply same_model_refl].
  apply set_objects_same_model, update_object_ids. reflexivity.
Qed.

Lemma changeShape_cosmetic (extent : Body -> Vec) (shapeType : ShapeType)
    (st : Playground) :
  cosmetic st (changeShape extent shapeType st).
Proof.
  unfold changeShape. destruct (selectedIds st) as [| i sel] eqn:Hsel;
    [apply cosmetic_refl |].
  apply cosmetic_commit, foldl_same_model. intros s id.
  destruct (find_object id (objects s)); [| apply same_model_refl].
  destruct (bodyMap s !! id); [| apply same_model_refl].
  eapply same_model_trans; [| apply rebuildBody_same_model].
  apply set_objects_same_model, update_object_ids. reflexivity.
Qed.

Lemma changePolygonSides_cosmetic (sides : Z) (st : Playground) :
  cosmetic st (changePolygonSides sides st).
Proof.
  unfold changePolygonSides. destruct (selectedIds st) as [| i sel] eqn:Hsel;
    [apply cosmetic_refl |].
  apply cosmetic_commit, foldl_same_model. intros s id.
  destruct (find_object id (objects s)) as [model |]; [| apply same_model_refl].
  destruct (o_shape model); try apply same_model_refl.
  eapply same_model_trans; [| apply rebuildBody_same_model].
  apply set_objects_same_model, update_object_ids. reflexivity.
Qed.

Lemma toggleLock_cosmetic (lock : bool) (st : Playground) :
  cosmetic st (toggleLock lock st).
Proof.
  unfold toggleLock. apply cosmetic_commit, foldl_same_model. intros s id.
  destruct (find_object id (objects s)); [| apply same_model_refl].
  eapply same_model_trans;
    [apply set_objects_same_model, (update_object_ids id (set_o_locked lock));
     reflexivity |].
  repeat split; auto; simpl; rewrite lookup_alter_is_Some; auto.
Qed.

Lemma createLink_consistent (aId bId : string) (st : Playground) :
  consistent st -> consistent (createLink aId bId st).
Proof.
  intros Hst. unfold createLink.
  destruct (bodyMap st !! aId) as [bodyA |] eqn:Ha; [| exact Hst].
  destruct (bodyMap st !! bId) as [bodyB |] eqn:Hb; [| exact Hst].
  eapply (consistent_add_link st _ aId bId); try reflexivity; eauto.
Qed.

Lemma handleConstraintPoint_consistent (body : option Body) (st : Playground) :
  consistent st -> consistent (handleConstraintPoint body st).
Proof.
  intros Hst. unfold handleConstraintPoint.
  destruct body as [body |]; [| exact Hst].
  destruct (String.eqb _ ""); [exact Hst |].
  destruct (constraintAnchor st) as [anchor |].
  - destruct (String.eqb _ _).
    + apply (consistent_same_model st); [exact Hst | repeat split; auto].
    + eapply consistent_same_model; [| apply showHint_same_model].
      apply commitHistory_consistent.
      eapply consistent_same_model; [apply createLink_consistent, Hst |].
      repeat split; auto.
  - apply (consistent_same_model st); [exact Hst | repeat split; auto].
Qed.

Lemma createLink_nextId (aId bId : string) (st : Playground) :
  nextId (createLink aId bId st) = nextId st.
Proof.
  unfold createLink. destruct (bodyMap st !! aId), (bodyMap st !! bId); reflexivity.
Qed.

Lemma handleConstraintPoint_counters (body : option Body) (st : Playground) :
  nextId st <= nextId (handleConstraintPoint body st) /\
  nextLinkId st <= nextLinkId (handleConstraintPoint body st).
Proof.
  unfold handleConstraintPoint.
  destruct body as [body |]; [| lia].
  destruct (String.eqb _ ""); [lia |].
  destruct (constraintAnchor st) as [anchor |]; [| simpl; lia].
  destruct (String.eqb _ _); [simpl; lia |].
  simpl.
  pose proof (proj2 (createLink_same_history
                       (modelId (b_plugin anchor)) (modelId (b_plugin body)) st)).
  pose proof (createLink_nextId
                (modelId (b_plugin anchor)) (modelId (b_plugin body)) st).
  lia.
Qed.

Lemma placeModel_consistent (center : Vec) (shape : Shape) (bodyType : BodyType)
    (st : Playground) :
  consistent st -> consistent (placeModel center shape bodyType st).
Proof.
  intros Hst. unfold placeModel, createModel.
  eapply consistent_same_model; [| apply handleSelection_same_model].
  apply commitHistory_consistent.
  unfold addModelToWorld, buildBody. simpl.
  eapply (consistent_add_object st); try reflexivity; [exact Hst | |].
  - simpl. unfold ids. rewrite map_app. reflexivity.
  - intros i. simpl. destruct (decide (objId (nextId st) = i)) as [<- | Hne];
      [right; reflexivity |].
    rewrite lookup_insert_ne by exact Hne. left. assumption.
Qed.

Lemma duplicateSelection_loop (st : Playground) (sel : list string) :
  consistent st ->
  let p := foldl (fun '(st, newIds) id =>
                    match find_object id (objects st) with
                    | None => (st, newIds)
                    | Some model =>
                        let clone := set_o_id (objId (nextId st)) model in
                        let st := set_nextId (nextId st + 1) st in
                        let clone :=
                          set_o_position (mkVec (vx (o_position model) + 20)
                                                (vy (o_position model) - 20)) clone in
                        let st := set_objects (objects st ++ [clone]) st in
                        let (body, st) := buildBody clone st in
                        let st := set_world (Matter.add_body (b_handle body) (world st)) st in
                        let st := set_bodyMap (<[o_id clone := body]> (bodyMap st)) st in
                        (st, newIds ++ [o_id clone])
                    end)
                 (st, []) sel in
  consistent (fst p) /\ nextId st <= nextId (fst p) /\ nextLinkId (fst p) = nextLinkId st.
Proof.
  intros Hst.
  apply (foldl_preserves
           (fun p : Playground * list string =>
              consistent (fst p) /\ nextId st <= nextId (fst p) /\
              nextLinkId (fst p) = nextLinkId st)).
  - intros [s newIds] id (Hs & Hn & Hk). simpl in Hs, Hn, Hk.
    destruct (find_object id (objects s)) as [model |];
      [| split; [exact Hs | split; [exact Hn | exact Hk]]].
    unfold buildBody. simpl.
    split; [| split; [lia | exact Hk]].
    eapply (consistent_add_object s); try reflexivity; [exact Hs | |].
    + simpl. unfold ids. rewrite map_app. reflexivity.
    + intros i. simpl. destruct (decide (objId (nextId s) = i)) as [<- | Hne];
        [right; reflexivity |].
      rewrite lookup_insert_ne by exact Hne. left. assumption.
  - simpl. split; [exact Hst | split; [lia | reflexivity]].
Qed.

Lemma duplicateSelection_consistent (st : Playground) :
  consistent st ->
  consistent (duplicateSelection st) /\
  nextId st <= nextId (duplicateSelection st) /\
  nextLinkId st <= nextLinkId (duplicateSelection st).
Proof.
  intros Hst. unfold duplicateSelection.
  destruct (selectedIds st) as [| i sel] eqn:Hsel;
    [split; [exact Hst | split; lia] |].
  destruct (duplicateSelection_loop st (i :: sel) Hst) as (Hc & Hn & Hk).
  cbv zeta in Hc, Hn, Hk.
  match goal with |- context [foldl ?f ?a ?l] => destruct (foldl f a l) as [s newIds] end.
  simpl in Hc, Hn, Hk.
  assert (Hcommit : consistent (commitHistory s)) by apply commitHistory_consistent, Hc.
  destruct newIds as [| first rest].
  - split; [exact Hcommit |]. destruct (commitHistory_monotone s) as [-> ->]. lia.
  - split; [eapply consistent_same_model;
            [exact Hcommit | apply handleSelection_same_model] |].
    simpl. lia.
Qed.

Lemma deleteSelection_each_facts (st : Playground) (X : string) :
  let s := deleteSelection_each st X in
  ids (objects s) = filter (fun i => i <> X) (ids (objects st)) /\
  links s = filter (fun link => negb (touches X link)) (links st) /\
  nextId s = nextId st /\ nextLinkId s = nextLinkId st /\
  history s = history st /\
  bodyMap s = delete X (bodyMap st).
Proof.
  unfold deleteSelection_each.
  set (s0 := set_objects _ (set_bodyMap _ _)).
  destruct (removeLinksFor_spec X s0)
    as (Hl & Ho & Hb & _ & Hn & Hk & Hh & _).
  cbv zeta. rewrite Hl, Ho, Hb, Hn, Hk, Hh. subst s0.
  destruct (bodyMap st !! X); simpl; repeat split; apply ids_filter_ne.
Qed.

Lemma deleteSelection_loop (sel : list string) (st : Playground) :
  consistent st ->
  consistent (foldl deleteSelection_each st sel) /\
  nextId (foldl deleteSelection_each st sel) = nextId st /\
  nextLinkId (foldl deleteSelection_each st sel) = nextLinkId st.
Proof.
  intros Hst.
  apply (foldl_preserves
           (fun s => consistent s /\ nextId s = nextId st /\
                     nextLinkId s = nextLinkId st));
    [| split; [exact Hst | split; reflexivity]].
  intros s X (Hs & Hn & Hk).
  destruct (deleteSelection_each_facts s X) as (Ho' & Hl' & Hn' & Hk' & Hh' & Hb').
  split; [apply (consistent_delete s _ X); assumption | split; congruence].
Qed.

Lemma deleteSelection_consistent (st : Playground) :
  consistent st ->
  consistent (deleteSelection st) /\
  nextId (deleteSelection st) = nextId st /\
  nextLinkId (deleteSelection st) = nextLinkId st.
Proof.
  intros Hst. unfold deleteSelection.
  destruct (selectedIds st) as [| i sel] eqn:Hsel;
    [split; [exact Hst | split; reflexivity] |].
  destruct (deleteSelection_loop (i :: sel) st Hst) as (Hc & Hn & Hk).
  split; [| split; [exact Hn | exact Hk]].
  apply commitHistory_consistent.
  eapply consistent_same_model; [exact Hc | apply clearSelection_same_model].
Qed.

Lemma resetWorld_consistent (st : Playground) :
  consistent st -> consistent (resetWorld st).
Proof.
  intros (_ & Hh & _). unfold resetWorld.
  eapply consistent_same_model; [| apply showHint_same_model].
  apply commitHistory_consistent.
  eapply consistent_same_model; [| apply addBounds_same_model].
  split; [| split; [exact Hh |]].
  - split; [| intros l Hl; inversion Hl].
    split; [intros i Hi; inversion Hi |].
    split; [intros l Hl; inversion Hl |]. simpl. lia.
  - intros i [b Hb]. simpl in Hb. rewrite lookup_empty in Hb. discriminate Hb.
Qed.

Lemma startup_consistent : consistent startup.
Proof.
  unfold startup, constructor.
  eapply consistent_same_model; [| apply showHint_same_model].
  apply commitHistory_consistent.
  eapply consistent_same_model; [| apply addBounds_same_model].
  eapply consistent_same_model; [| apply addBounds_same_model].
  split; [| split; [apply Forall_nil_2 |]].
  - split; [| intros l Hl; inversion Hl].
    split; [intros i Hi; inversion Hi |].
    split; [intros l Hl; inversion Hl |]. simpl. lia.
  - intros i [b Hb]. simpl in Hb. rewrite lookup_empty in Hb. discriminate Hb.
Qed.

Lemma perform_consistent (a : Action) (st : Playground) :
  consistent st -> consistent (perform a st).
Proof.
  intros Hst. destruct a; simpl perform.
  - apply placeModel_consistent, Hst.
  - exact (consistent_same_model _ _ Hst (chooseTool_same_model _ _)).
  - exact (consistent_same_model _ _ Hst (handleSelection_same_model _ _ _)).
  - exact (consistent_same_model _ _ Hst (clearSelection_same_model _)).
  - exact (cosmetic_consistent _ _ Hst (updatePhysics_cosmetic _ _)).
  - exact (cosmetic_consistent _ _ Hst (updateVisual_cosmetic _ _)).
  - exact (cosmetic_consistent _ _ Hst (updateSelection_cosmetic _ _)).
  - exact (cosmetic_consistent _ _ Hst (changeShape_cosmetic _ _ _)).
  - exact (cosmetic_consistent _ _ Hst (changePolygonSides_cosmetic _ _)).
  - exact (cosmetic_consistent _ _ Hst (toggleLock_cosmetic _ _)).
  - apply handleConstraintPoint_consistent, Hst.
  - apply duplicateSelection_consistent, Hst.
  - apply deleteSelection_consistent, Hst.
  - apply resetWorld_consistent, Hst.
  - apply undo_consistent, Hst.
  - apply redo_consistent, Hst.
  - exact (consistent_same_model _ _ Hst (addBounds_same_model _)).
  - exact (consistent_same_model _ _ Hst (tick_same_model _ _)).
Qed.

Lemma reachable_consistent (st : Playground) : Reachable st -> consistent st.
Proof.
  induction 1 as [| a st _ IH]; [apply startup_consistent |].
  apply perform_consistent, IH.
Qed.

Lemma same_model_counters (st st' : Playground) :
  same_model st st' -> nextId st' = nextId st /\ nextLinkId st' = nextLinkId st.
Proof. intros (_ & _ & Hn & Hk & _). split; assumption. Qed.

Lemma perform_counters (a : Action) (st : Playground) :
  consistent st ->
  rewinds a = false ->
  nextId st <= nextId (perform a st) /\ nextLinkId st <= nextLinkId (perform a st).
Proof.
  intros Hst Ha.
  assert (Hcos : forall st', cosmetic st st' ->
                             nextId st <= nextId st' /\ nextLinkId st <= nextLinkId st')
    by (intros st' Hc; destruct (cosmetic_counters _ _ Hc) as [-> ->]; lia).
  destruct a; simpl perform; try discriminate Ha.
  - simpl. lia.
  - apply Hcos, cosmetic_same, chooseTool_same_model.
  - apply Hcos, cosmetic_same, handleSelection_same_model.
  - apply Hcos, cosmetic_same, clearSelection_same_model.
  - apply Hcos, updatePhysics_cosmetic.
  - apply Hcos, updateVisual_cosmetic.
  - apply Hcos, updateSelection_cosmetic.
  - apply Hcos, changeShape_cosmetic.
  - apply Hcos, changePolygonSides_cosmetic.
  - apply Hcos, toggleLock_cosmetic.
  - apply handleConstraintPoint_counters.
  - apply duplicateSelection_consistent, Hst.
  - destruct (deleteSelection_consistent st Hst) as (_ & -> & ->). lia.
  - apply Hcos, cosmetic_same, addBounds_same_model.
  - apply Hcos, cosmetic_same, tick_same_model.
Qed.

(** The link counter of a reachable state is never 0, so the snapshots
    committed from reachable states are restored exactly. *)
Remark reachable_link_counter_nonzero (st : Playground) :
  Reachable st -> nextLinkId (commitHistory st) <> 0.
Proof.
  intros Hreach.
  destruct (reachable_consistent st Hreach) as (((_ & _ & _ & Hk) & _) & _).
  simpl in *. lia.
Qed.

(** * Further properties of the code *)

(** ** Ids issued by the editor parse back to their number *)

Lemma digit_of_char (d : N) :
  (d < 10)%N -> JS.digit (pretty_N_char d) = Some (Z.of_N d).
Proof.
  intros Hd.
  assert (d = 0 \/ d = 1 \/ d = 2 \/ d = 3 \/ d = 4 \/ d = 5 \/ d = 6 \/ d = 7
          \/ d = 8 \/ d = 9)%N as Hcases by lia.
  repeat (destruct Hcases as [-> | Hcases]; [reflexivity |]).
  subst d. reflexivity.
Qed.

(** Reading the decimal numeral of a positive [x] yields [x]. *)
Lemma digits_pretty_N_go (x : N) :
  forall s : string,
    (0 < x)%N ->
    JS.digits None (pretty_N_go x s) = JS.digits (Some (Z.of_N x)) s.
Proof.
  induction (N.lt_wf_0 x) as [x _ IH]. intros s Hx.
  rewrite pretty_N_go_step by exact Hx.
  assert (Hmod : (x `mod` 10 < 10)%N) by (apply N.mod_lt; lia).
  pose proof (N.div_mod x 10 ltac:(lia)) as Hdm.
  destruct (decide (x `div` 10 = 0)%N) as [Hz | Hnz].
  - rewrite Hz, pretty_N_go_0. simpl. rewrite (digit_of_char _ Hmod). simpl.
    do 2 f_equal. lia.
  - rewrite IH by (try apply N.div_lt; lia).
    simpl. rewrite (digit_of_char _ Hmod). do 2 f_equal. simpl. lia.
Qed.

Lemma pretty_N_go_digits (x : N) :
  forall s : string,
    Forall (fun c => is_Some (JS.digit c)) (list_ascii_of_string s) ->
    Forall (fun c => is_Some (JS.digit c)) (list_ascii_of_string (pretty_N_go x s)).
Proof.
  induction (N.lt_wf_0 x) as [x _ IH]. intros s Hs.
  destruct (decide (0 < x)%N) as [Hx | Hx].
  - rewrite pretty_N_go_step by exact Hx. apply IH; [apply N.div_lt; lia |].
    simpl. constructor; [| exact Hs].
    rewrite digit_of_char by (apply N.mod_lt; lia). eauto.
  - replace x with 0%N by lia. rewrite pretty_N_go_0. exact Hs.
Qed.

Lemma pretty_nonneg_digits (n : Z) :
  0 <= n ->
  Forall (fun c => is_Some (JS.digit c)) (list_ascii_of_string (pretty n)) /\
  pretty n <> ""%string.
Proof.
  intros Hn. destruct n as [| p | p]; [| | lia].
  - split; [repeat constructor; eexists; reflexivity | discriminate].
  - change (pretty (Z.pos p)) with (pretty_N_go (N.pos p) "").
    split; [apply pretty_N_go_digits; constructor |].
    rewrite pretty_N_go_step by lia. intros Hempty.
    pose proof (pretty_N_go_digits (N.pos p `div` 10)
                  (String (pretty_N_char (N.pos p `mod` 10)) "")) as _.
    assert (Hlen : forall x s, (String.length s <= String.length (pretty_N_go x s))%nat).
    { intros x. induction (N.lt_wf_0 x) as [x _ IH]. intros s.
      destruct (decide (0 < x)%N) as [Hx | Hx].
      - rewrite pretty_N_go_step by exact Hx.
        etransitivity; [| apply IH, N.div_lt; lia]. simpl. lia.
      - replace x with 0%N by lia. rewrite pretty_N_go_0. lia. }
    specialize (Hlen (N.pos p `div` 10)%N
                     (String (pretty_N_char (N.pos p `mod` 10)) "")).
    rewrite Hempty in Hlen. simpl in Hlen. lia.
Qed.

Lemma parseInt_digit_start (c : ascii) (t : string) :
  is_Some (JS.digit c) -> JS.parseInt (String c t) = JS.digits None (String c t).
Proof.
  destruct c as [[] [] [] [] [] [] [] []]; intros [d Hd];
    solve [reflexivity | discriminate Hd].
Qed.

Lemma parseInt_pretty (n : Z) : 0 <= n -> JS.parseInt (pretty n) = Some n.
Proof.
  intros Hn. destruct n as [| p | p]; [reflexivity | | lia].
  destruct (pretty_nonneg_digits (Z.pos p) Hn) as [Hdig Hne].
  destruct (pretty (Z.pos p)) as [| c t] eqn:Hp; [contradiction |].
  simpl in Hdig. apply Forall_cons in Hdig as [Hc _].
  rewrite (parseInt_digit_start _ _ Hc), <- Hp.
  change (pretty (Z.pos p)) with (pretty_N_go (N.pos p) "").
  rewrite digits_pretty_N_go by lia. reflexivity.
Qed.

Lemma split_go_no_sep_whole (sep : ascii) (s : string) :
  forall cur : list ascii,
    ~ In sep (list_ascii_of_string s) ->
    JS.split_go sep cur s
    = [string_of_list_ascii (List.rev cur ++ list_ascii_of_string s)].
Proof.
  induction s as [| c rest IH]; intros cur Hno; simpl.
  - rewrite app_nil_r. reflexivity.
  - destruct (Ascii.eqb_spec c sep) as [-> | Hne]; [exfalso; apply Hno; left; reflexivity |].
    rewrite IH by (intros Hin; apply Hno; right; exact Hin).
    simpl. rewrite <- app_assoc. reflexivity.
Qed.

Lemma digits_no_dash (s : string) :
  Forall (fun c => is_Some (JS.digit c)) (list_ascii_of_string s) ->
  ~ In "-"%char (list_ascii_of_string s).
Proof.
  intros Hd Hin. rewrite Forall_forall in Hd.
  apply list_elem_of_In in Hin. destruct (Hd _ Hin) as [d Hdash]. discriminate Hdash.
Qed.

Lemma id_number_issued (n : Z) :
  0 <= n -> id_number (objId n) = Some n /\ id_number (linkId n) = Some n.
Proof.
  intros Hn. destruct (pretty_nonneg_digits n Hn) as [Hdig _].
  pose proof (digits_no_dash _ Hdig) as Hno.
  unfold id_number, objId, linkId, or_str, JS.split. simpl.
  change ("" +:+ pretty n) with (pretty n).
  rewrite !(split_go_no_sep_whole "-" (pretty n) [] Hno). simpl.
  rewrite string_of_list_ascii_of_string, parseInt_pretty by exact Hn.
  split; reflexivity.
Qed.

Lemma objId_inj (a b : Z) : objId a = objId b -> a = b.
Proof.
  unfold objId. intros H. simpl in H. injection H as H.
  exact (inj pretty a b H).
Qed.

Lemma linkId_inj (a b : Z) : linkId a = linkId b -> a = b.
Proof.
  unfold linkId. intros H. simpl in H. injection H as H.
  exact (inj pretty a b H).
Qed.

Lemma inferNextId_above (objs : list SceneObject) (o : SceneObject) (m : Z) :
  o ∈ objs -> id_number (o_id o) = Some m -> m < inferNextId objs.
Proof.
  intros Hin Hm. unfold inferNextId. cbv zeta. rewrite or_num_zero.
  destruct (max_from_spec (omap (fun o => id_number (o_id o)) objs) (-1))
    as (_ & Hall & _).
  assert (m ∈ omap (fun o => id_number (o_id o)) objs)
    by (apply list_elem_of_omap; eauto).
  specialize (Hall m ltac:(assumption)). lia.
Qed.

Lemma inferNextId_nonneg (objs : list SceneObject) : 0 <= inferNextId objs.
Proof.
  unfold inferNextId. cbv zeta. rewrite or_num_zero.
  destruct (max_from_spec (omap (fun o => id_number (o_id o)) objs) (-1))
    as (Hle & _). lia.
Qed.

Lemma inferNextId_fresh (objs : list SceneObject) :
  (forall o, o ∈ objs -> exists m, 0 <= m /\ o_id o = objId m) ->
  (forall o m, o ∈ objs -> o_id o = objId m -> m < inferNextId objs) /\
  objId (inferNextId objs) ∉ ids objs.
Proof.
  intros Hids.
  assert (Habove : forall o m, o ∈ objs -> o_id o = objId m -> m < inferNextId objs).
  { intros o m Hin Hm. destruct (Hids o Hin) as (m' & Hm' & Hid).
    assert (m = m') as -> by (apply objId_inj; congruence).
    apply (inferNextId_above objs o); [exact Hin |].
    rewrite Hid. apply id_number_issued, Hm'. }
  split; [exact Habove |].
  intros Hin. apply list_elem_of_fmap in Hin as (o & Hid & Hin).
  specialize (Habove o (inferNextId objs) Hin (eq_sym Hid)). lia.
Qed.


(** X1. The number in an id that the editor issued, [obj-<n>] or
    [link-<n>] with [n] between 0 and 2^53 - 1 (the range in which the
    counter of the source, a double, is printed digit for digit), is
    read back by the parser of [inferNextId] and [inferNextLinkId]; two
    numbers of that range give the same id only when they are equal. *)
Theorem issued_ids_round_trip (n m : Z) :
  safe_number n -> safe_number m ->
  id_number (objId n) = Some n /\ id_number (linkId n) = Some n /\
  (objId n = objId m -> n = m) /\ (linkId n = linkId m -> n = m).
Proof.
  intros [Hn _] _. destruct (id_number_issued n Hn) as [Ho Hl].
  split; [exact Ho |]. split; [exact Hl |].
  split; [apply objId_inj | apply linkId_inj].
Qed.

Lemma issued_ids_round_trip_witness :
  safe_number 120 /\ safe_number 7 /\
  id_number (objId 120) = Some 120 /\ objId 120 = "obj-120"%string.
Proof.
  assert (H120 : safe_number 120) by (unfold safe_number; lia).
  assert (H7 : safe_number 7) by (unfold safe_number; lia).
  destruct (issued_ids_round_trip 120 7 H120 H7) as (Ho & _).
  split; [exact H120 |]. split; [exact H7 |]. split; [exact Ho | reflexivity].
Defined.

(** X2. For objects whose ids all have the editor's form [obj-<m>]
    with [m] between 0 and 2^53 - 1, [inferNextId] returns a counter
    between 0 and 2^53 that lies above every number in use, so the id it
    leads to is not among the existing ones (for an empty list the
    counter is 0).  The bound keeps the numbers where the source's
    doubles are exact. *)
Theorem inferNextId_never_collides (objs : list SceneObject) :
  (forall o, o ∈ objs -> exists m, safe_number m /\ o_id o = objId m) ->
  0 <= inferNextId objs <= 2 ^ 53 /\
  (forall o m, o ∈ objs -> o_id o = objId m -> m < inferNextId objs) /\
  objId (inferNextId objs) ∉ ids objs.
Proof.
  intros Hids.
  assert (Hids0 : forall o, o ∈ objs -> exists m, 0 <= m /\ o_id o = objId m).
  { intros o Ho. destruct (Hids o Ho) as (m & [Hm _] & Hid). exists m. auto. }
  split; [| apply inferNextId_fresh, Hids0].
  split; [apply inferNextId_nonneg |].
  unfold inferNextId. cbv zeta. rewrite or_num_zero.
  destruct (max_from_spec (omap (fun o => id_number (o_id o)) objs) (-1))
    as (_ & _ & [Heq | Hin]); [rewrite Heq; lia |].
  apply list_elem_of_omap in Hin as (o & Hin & Hnum).
  destruct (Hids o Hin) as (m & [Hm0 Hm] & Hid).
  rewrite Hid, (proj1 (id_number_issued m Hm0)) in Hnum.
  injection Hnum as <-. lia.
Qed.

Lemma inferNextId_never_collides_witness :
  let objs := [demo_object (objId 4) 0 0; demo_object (objId 11) 5 5] in
  (forall o, o ∈ objs -> exists m, safe_number m /\ o_id o = objId m) /\
  objId (inferNextId objs) ∉ ids objs.
Proof.
  intros objs.
  assert (Hids : forall o, o ∈ objs -> exists m, safe_number m /\ o_id o = objId m).
  { intros o Ho. apply elem_of_cons in Ho as [-> | Ho].
    - exists 4. split; [unfold safe_number; lia | reflexivity].
    - apply list_elem_of_singleton in Ho as ->. exists 11.
      split; [unfold safe_number; lia | reflexivity]. }
  split; [exact Hids |].
  exact (proj2 (proj2 (inferNextId_never_collides objs Hids))).
Defined.



(** ** Unique ids and one body per object *)

Lemma NoDup_map_filter {A B} (f : A -> B) (P : A -> Prop)
    `{forall x, Decision (P x)} (l : list A) :
  NoDup (map f l) -> NoDup (map f (filter P l)).
Proof.
  induction l as [| a l IH]; simpl; [intros _; constructor |].
  intros Hnd. apply NoDup_cons in Hnd as [Hnotin Hnd].
  rewrite filter_cons. destruct (decide (P a)); simpl; [| auto].
  apply NoDup_cons. split; [| auto].
  intros Hin. apply Hnotin.
  apply list_elem_of_fmap in Hin as (x & -> & Hx).
  apply list_elem_of_filter in Hx as [_ Hx].
  apply list_elem_of_fmap. eauto.
Qed.

Lemma strong_same_model (st st' : Playground) :
  strong st -> same_model st st' -> strong st'.
Proof.
  intros (Hc & [Huo Hul] & Hh & Ht) Hs.
  pose proof (consistent_same_model _ _ Hc Hs) as Hc'.
  destruct Hs as (Ho' & Hl' & _ & _ & Hh' & Hb').
  unfold strong, unique_ok, tracked, model_of in *. simpl in *.
  rewrite Ho', Hl', Hh'.
  split; [exact Hc' |]. split; [split; assumption |]. split; [exact Hh |].
  intros i Hi. apply Hb', Ht, Hi.
Qed.

Lemma commitHistory_strong (st : Playground) :
  strong st -> strong (commitHistory st).
Proof.
  intros Hst.
  pose proof (strong_same_model _ _ Hst (syncModelTransforms_same_model st))
    as (Hc & Hu & Hh & Ht).
  split; [apply commitHistory_consistent, Hst |].
  split; [exact Hu |]. split; [| exact Ht].
  rewrite (proj1 (commitHistory_history st)).
  apply Forall_app. split; [apply slice0_Forall, Hh |].
  apply Forall_singleton. exact Hu.
Qed.

Lemma cosmetic_strong (st st' : Playground) :
  strong st -> cosmetic st st' -> strong st'.
Proof.
  intros Hst (s & Hs & [-> | ->]).
  - exact (strong_same_model _ _ Hst Hs).
  - apply commitHistory_strong, (strong_same_model _ _ Hst Hs).
Qed.

Lemma strong_add_object (st s : Playground) :
  strong st ->
  ids (objects s) = ids (objects st) ++ [objId (nextId st)] ->
  links s = links st ->
  nextId s = nextId st + 1 ->
  nextLinkId s = nextLinkId st ->
  history s = history st ->
  (forall i, is_Some (bodyMap s !! i) <->
             is_Some (bodyMap st !! i) \/ i = objId (nextId st)) ->
  strong s.
Proof.
  intros (Hc & [Huo Hul] & Hh & Ht) Ho' Hl' Hn' Hk' Hh' Hb'.
  split; [apply (consistent_add_object st s); try assumption;
          intros i Hi; apply Hb', Hi |].
  destruct Hc as (((Hobj & _) & _) & _ & _).
  unfold strong, unique_ok, tracked, model_of in *. simpl in *.
  rewrite Ho', Hl', Hh'.
  split; [split; [| exact Hul] |]; [| split; [exact Hh |]].
  - apply NoDup_app. split; [exact Huo |]. split; [| apply NoDup_singleton].
    intros i Hi Hnew. apply list_elem_of_singleton in Hnew as ->.
    destruct (Hobj _ Hi) as (m & Hid & Hm). apply objId_inj in Hid. lia.
  - intros i Hi. apply Hb'. apply elem_of_app in Hi as [Hi | Hi].
    + left. apply Ht, Hi.
    + right. apply list_elem_of_singleton in Hi. exact Hi.
Qed.

Lemma strong_add_link (st s : Playground) (aId bId : string) (o : LinkOptions) :
  strong st ->
  is_Some (bodyMap st !! aId) -> is_Some (bodyMap st !! bId) ->
  ids (objects s) = ids (objects st) ->
  links s = links st ++ [mkLink (linkId (nextLinkId st)) aId bId o] ->
  nextId s = nextId st ->
  nextLinkId s = nextLinkId st + 1 ->
  history s = history st ->
  bodyMap s = bodyMap st ->
  strong s.
Proof.
  intros (Hc & [Huo Hul] & Hh & Ht) Ha Hb Ho' Hl' Hn' Hk' Hh' Hb'.
  split; [apply (consistent_add_link st s aId bId o); assumption |].
  destruct Hc as (((_ & Hlnk & _) & _) & _ & _).
  unfold strong, unique_ok, tracked, model_of in *. simpl in *.
  rewrite Ho', Hl', Hh', Hb'.
  split; [split; [exact Huo |] |]; [| split; [exact Hh | exact Ht]].
  rewrite map_app. simpl.
  apply NoDup_app. split; [exact Hul |]. split; [| apply NoDup_singleton].
  intros i Hi Hnew. apply list_elem_of_singleton in Hnew as ->.
  apply list_elem_of_fmap in Hi as (l & Hid & Hl).
  destruct (Hlnk l Hl) as (m & Hid' & Hm).
  rewrite Hid' in Hid. apply linkId_inj in Hid. lia.
Qed.

Lemma strong_delete (st s : Playground) (X : string) :
  strong st ->
  ids (objects s) = filter (fun i => i <> X) (ids (objects st)) ->
  links s = filter (fun link => negb (touches X link)) (links st) ->
  nextId s = nextId st ->
  nextLinkId s = nextLinkId st ->
  history s = history st ->
  bodyMap s = delete X (bodyMap st) ->
  strong s.
Proof.
  intros (Hc & [Huo Hul] & Hh & Ht) Ho' Hl' Hn' Hk' Hh' Hb'.
  split; [apply (consistent_delete st s X); assumption |].
  unfold strong, unique_ok, tracked, model_of in *. simpl in *.
  rewrite Ho', Hl', Hh', Hb'.
  split; [split |]; [| | split; [exact Hh |]].
  - apply NoDup_filter, Huo.
  - apply NoDup_map_filter, Hul.
  - intros i Hi. apply list_elem_of_filter in Hi as [Hne Hi].
    rewrite lookup_delete_ne by congruence. apply Ht, Hi.
Qed.

Lemma last_with_id_some (id : string) (objs : list SceneObject) :
  id ∈ ids objs -> is_Some (last_with_id id objs).
Proof.
  induction objs as [| a objs IH]; simpl; [intros H; inversion H |].
  intros Hin. destruct (last_with_id id objs); [eauto |].
  apply elem_of_cons in Hin as [-> | Hin].
  - rewrite String.eqb_refl. eauto.
  - destruct (IH Hin) as [? Hx]. discriminate Hx.
Qed.

Lemma applySnapshot_strong (snapshot : Snapshot) (st : Playground) :
  snapshot_ok snapshot -> unique_ok snapshot ->
  Forall snapshot_ok (history st) -> Forall unique_ok (history st) ->
  strong (applySnapshot snapshot st).
Proof.
  intros Hs Hu Hh Hhu.
  assert (Hk : s_nextLinkId snapshot <> 0)
    by (destruct Hs as ((_ & _ & _ & Hk) & _); lia).
  split; [apply applySnapshot_consistent; assumption |].
  split; [rewrite (model_of_applySnapshot _ _ Hk); exact Hu |].
  split; [rewrite (proj1 (proj2 (applySnapshot_frame snapshot st))); exact Hhu |].
  intros i Hi. rewrite applySnapshot_objects in Hi.
  pose proof (applySnapshot_bodies snapshot st i) as Hb.
  destruct (last_with_id_some i _ Hi) as [o Ho]. rewrite Ho in Hb.
  destruct Hb as [h ->]. eauto.
Qed.

Lemma history_entry_ok (st : Playground) (i : Z) (s : Snapshot) :
  strong st -> js_index (history st) i = Some s -> snapshot_ok s /\ unique_ok s.
Proof.
  intros ((_ & Hh & _) & _ & Hhu & _) Hs.
  apply js_index_elem in Hs. rewrite Forall_forall in Hh, Hhu. auto.
Qed.

Lemma undo_strong (st : Playground) : strong st -> strong (undo st).
Proof.
  intros Hst. unfold undo. destruct (Z.leb (historyIndex st) 0); [exact Hst |].
  simpl. destruct (js_index (history st) (historyIndex st - 1)) as [s |] eqn:Hs.
  - destruct (history_entry_ok _ _ _ Hst Hs) as [Hok Hu].
    apply applySnapshot_strong; try assumption; apply Hst.
  - apply (strong_same_model st); [exact Hst | repeat split; auto].
Qed.

Lemma redo_strong (st : Playground) : strong st -> strong (redo st).
Proof.
  intros Hst. unfold redo.
  destruct (Z.leb (Z.of_nat (length (history st)) - 1) (historyIndex st));
    [exact Hst |].
  simpl. destruct (js_index (history st) (historyIndex st + 1)) as [s |] eqn:Hs.
  - destruct (history_entry_ok _ _ _ Hst Hs) as [Hok Hu].
    apply applySnapshot_strong; try assumption; apply Hst.
  - apply (strong_same_model st); [exact Hst | repeat split; auto].
Qed.

Lemma createLink_strong (aId bId : string) (st : Playground) :
  strong st -> strong (createLink aId bId st).
Proof.
  intros Hst. unfold createLink.
  destruct (bodyMap st !! aId) as [bodyA |] eqn:Ha; [| exact Hst].
  destruct (bodyMap st !! bId) as [bodyB |] eqn:Hb; [| exact Hst].
  eapply (strong_add_link st _ aId bId); try reflexivity; eauto.
Qed.

Lemma handleConstraintPoint_strong (body : option Body) (st : Playground) :
  strong st -> strong (handleConstraintPoint body st).
Proof.
  intros Hst. unfold handleConstraintPoint.
  destruct body as [body |]; [| exact Hst].
  destruct (String.eqb _ ""); [exact Hst |].
  destruct (constraintAnchor st) as [anchor |].
  - destruct (String.eqb _ _).
    + apply (strong_same_model st); [exact Hst | repeat split; auto].
    + eapply strong_same_model; [| apply showHint_same_model].
      apply commitHistory_strong.
      eapply strong_same_model; [apply createLink_strong, Hst |].
      repeat split; auto.
  - apply (strong_same_model st); [exact Hst | repeat split; auto].
Qed.

Lemma insert_fresh_is_Some {V} (m : gmap string V) (k : string) (v : V) (i : string) :
  is_Some (<[k := v]> m !! i) <-> is_Some (m !! i) \/ i = k.
Proof.
  destruct (decide (k = i)) as [<- | Hne].
  - rewrite lookup_insert_eq. split; eauto.
  - rewrite lookup_insert_ne by exact Hne. split; [auto |].
    intros [Hi | ->]; [exact Hi | contradiction].
Qed.

Lemma placeModel_strong (center : Vec) (shape : Shape) (bodyType : BodyType)
    (st : Playground) :
  strong st -> strong (placeModel center shape bodyType st).
Proof.
  intros Hst. unfold placeModel, createModel.
  eapply strong_same_model; [| apply handleSelection_same_model].
  apply commitHistory_strong.
  unfold addModelToWorld, buildBody. simpl.
  eapply (strong_add_object st); try reflexivity; [exact Hst | |].
  - simpl. unfold ids. rewrite map_app. reflexivity.
  - intros i. simpl. apply insert_fresh_is_Some.
Qed.

Lemma duplicateSelection_loop_strong (st : Playground) (sel : list string) :
  strong st ->
  strong
    (fst (foldl (fun '(st, newIds) id =>
                   match find_object id (objects st) with
                   | None => (st, newIds)
                   | Some model =>
                       let clone := set_o_id (objId (nextId st)) model in
                       let st := set_nextId (nextId st + 1) st in
                       let clone :=
                         set_o_position (mkVec (vx (o_position model) + 20)
                                               (vy (o_position model) - 20)) clone in
                       let st := set_objects (objects st ++ [clone]) st in
                       let (body, st) := buildBody clone st in
                       let st := set_world (Matter.add_body (b_handle body) (world st)) st in
                       let st := set_bodyMap (<[o_id clone := body]> (bodyMap st)) st in
                       (st, newIds ++ [o_id clone])
                   end)
                (st, []) sel)).
Proof.
  intros Hst.
  apply (foldl_preserves (fun p : Playground * list string => strong (fst p)));
    [| exact Hst].
  intros [s newIds] id Hs. simpl in Hs.
  destruct (find_object id (objects s)) as [model |]; [| exact Hs].
  unfold buildBody. simpl.
  eapply (strong_add_object s); try reflexivity; [exact Hs | |].
  - simpl. unfold ids. rewrite map_app. reflexivity.
  - intros i. simpl. apply insert_fresh_is_Some.
Qed.

Lemma duplicateSelection_strong (st : Playground) :
  strong st -> strong (duplicateSelection st).
Proof.
  intros Hst. unfold duplicateSelection.
  destruct (selectedIds st) as [| i sel] eqn:Hsel; [exact Hst |].
  pose proof (duplicateSelection_loop_strong st (i :: sel) Hst) as Hc.
  match goal with |- context [foldl ?f ?a ?l] => destruct (foldl f a l) as [s newIds] end.
  simpl in Hc.
  assert (Hcommit : strong (commitHistory s)) by apply commitHistory_strong, Hc.
  destruct newIds as [| first rest]; [exact Hcommit |].
  eapply strong_same_model; [exact Hcommit | apply handleSelection_same_model].
Qed.

Lemma deleteSelection_strong (st : Playground) :
  strong st -> strong (deleteSelection st).
Proof.
  intros Hst. unfold deleteSelection.
  destruct (selectedIds st) as [| i sel] eqn:Hsel; [exact Hst |].
  apply commitHistory_strong.
  eapply strong_same_model; [| apply clearSelection_same_model].
  apply (foldl_preserves strong); [| exact Hst].
  intros s X Hs.
  destruct (deleteSelection_each_facts s X) as (Ho' & Hl' & Hn' & Hk' & Hh' & Hb').
  apply (strong_delete s _ X); assumption.
Qed.

Lemma empty_model_strong (s : Playground) :
  objects s = [] -> links s = [] -> nextId s = 1 -> nextLinkId s = 1 ->
  bodyMap s = ∅ ->
  Forall snapshot_ok (history s) -> Forall unique_ok (history s) ->
  strong s.
Proof.
  intros Ho Hl Hn Hk Hb Hh Hhu.
  unfold strong, consistent, snapshot_ok, counters_ok, endpoints_ok, unique_ok,
    tracked, model_of. simpl. rewrite Ho, Hl, Hn, Hk, Hb. simpl.
  split; [split; [split; [split; [| split; [| lia]] |] | split; [exact Hh |]] |].
  - intros i Hi. inversion Hi.
  - intros l Hin. inversion Hin.
  - intros l Hin. inversion Hin.
  - intros i [b Hi]. rewrite lookup_empty in Hi. discriminate Hi.
  - split; [split; constructor |]. split; [exact Hhu |].
    intros i Hi. inversion Hi.
Qed.

Lemma resetWorld_strong (st : Playground) : strong st -> strong (resetWorld st).
Proof.
  intros ((_ & Hh & _) & _ & Hhu & _). unfold resetWorld.
  eapply strong_same_model; [| apply showHint_same_model].
  apply commitHistory_strong.
  eapply strong_same_model; [| apply addBounds_same_model].
  apply empty_model_strong; try reflexivity; assumption.
Qed.

Lemma startup_strong : strong startup.
Proof.
  unfold startup, constructor.
  eapply strong_same_model; [| apply showHint_same_model].
  apply commitHistory_strong.
  eapply strong_same_model; [| apply addBounds_same_model].
  eapply strong_same_model; [| apply addBounds_same_model].
  apply empty_model_strong; try reflexivity; constructor.
Qed.

Lemma perform_strong (a : Action) (st : Playground) :
  strong st -> strong (perform a st).
Proof.
  intros Hst. destruct a; simpl perform.
  - apply placeModel_strong, Hst.
  - exact (strong_same_model _ _ Hst (chooseTool_same_model _ _)).
  - exact (strong_same_model _ _ Hst (handleSelection_same_model _ _ _)).
  - exact (strong_same_model _ _ Hst (clearSelection_same_model _)).
  - exact (cosmetic_strong _ _ Hst (updatePhysics_cosmetic _ _)).
  - exact (cosmetic_strong _ _ Hst (updateVisual_cosmetic _ _)).
  - exact (cosmetic_strong _ _ Hst (updateSelection_cosmetic _ _)).
  - exact (cosmetic_strong _ _ Hst (changeShape_cosmetic _ _ _)).
  - exact (cosmetic_strong _ _ Hst (changePolygonSides_cosmetic _ _)).
  - exact (cosmetic_strong _ _ Hst (toggleLock_cosmetic _ _)).
  - apply handleConstraintPoint_strong, Hst.
  - apply duplicateSelection_strong, Hst.
  - apply deleteSelection_strong, Hst.
  - apply resetWorld_strong, Hst.
  - apply undo_strong, Hst.
  - apply redo_strong, Hst.
  - exact (strong_same_model _ _ Hst (addBounds_same_model _)).
  - exact (strong_same_model _ _ Hst (tick_same_model _ _)).
Qed.

Lemma reachable_strong (st : Playground) : Reachable st -> strong st.
Proof.
  induction 1 as [| a st _ IH]; [apply startup_strong |].
  apply perform_strong, IH.
Qed.

(** X5. In every reachable state the ids that have a live body are
    exactly the ids of the objects in the model: no object is without a
    body and no body outlives its object. *)
Theorem reachable_bodies_match_objects (st : Playground) (i : string) :
  Reachable st ->
  (is_Some (bodyMap st !! i) <-> i ∈ ids (objects st)).
Proof.
  intros Hreach. destruct (reachable_strong st Hreach) as ((_ & _ & Hb) & _ & _ & Ht).
  split; [apply Hb | apply Ht].
Qed.

Lemma reachable_bodies_match_objects_witness :
  let st := perform DeleteSelection
              (perform (PlaceModel (mkVec 100 100) (circle 20) dynamic) startup) in
  Reachable st /\
  (is_Some (bodyMap st !! "obj-1") <-> "obj-1"%string ∈ ids (objects st)).
Proof.
  intros st.
  assert (Hreach : Reachable st) by (repeat apply reach_step; apply reach_init).
  split; [exact Hreach | exact (reachable_bodies_match_objects st "obj-1" Hreach)].
Defined.

(** ** The history cursor and the live model *)

Lemma strip_pose (p : Vec) (a : R) (o : SceneObject) :
  strip (set_o_angle a (set_o_position p o)) = strip o.
Proof. reflexivity. Qed.

Lemma strip_pose_map (m : gmap string Body) (objs : list SceneObject) :
  map strip
      (map (fun model =>
              match m !! o_id model with
              | None => model
              | Some body =>
                  set_o_angle (b_angle body)
                    (set_o_position (mkVec (vx (b_position body)) (vy (b_position body)))
                       model)
              end) objs)
  = map strip objs.
Proof.
  induction objs as [| o objs IH]; simpl; [reflexivity |].
  rewrite IH. destruct (m !! o_id o); reflexivity.
Qed.

Lemma js_index_range {A} (l : list A) (i : Z) (x : A) :
  js_index l i = Some x -> 0 <= i < Z.of_nat (length l).
Proof.
  unfold js_index. destruct (Z.ltb_spec i 0); [discriminate |].
  intros Hx. apply lookup_lt_Some in Hx. lia.
Qed.

Lemma js_index_in_range {A} (l : list A) (i : Z) :
  0 <= i < Z.of_nat (length l) -> is_Some (js_index l i).
Proof.
  intros Hi. unfold js_index. destruct (Z.ltb_spec i 0); [lia |].
  apply lookup_lt_is_Some. lia.
Qed.

Lemma still_refl (st : Playground) : still st st.
Proof. repeat split. Qed.

Lemma anchored_still (st st' : Playground) :
  anchored st -> still st st' -> anchored st'.
Proof.
  intros (s & Hs & Ho & Hl & Hn & Hk) (Hh' & Hi' & Ho' & Hl' & Hn' & Hk').
  exists s. rewrite Hh', Hi', Ho', Hl', Hn', Hk'.
  split; [exact Hs |]. split; [exact Ho |]. split; [exact Hl |].
  split; [exact Hn | exact Hk].
Qed.

Lemma commitHistory_anchored (st : Playground) : anchored (commitHistory st).
Proof.
  exists (model_of (commitHistory st)).
  destruct (commitHistory_history st) as [Hh Hi].
  split; [| repeat split].
  rewrite Hi, Hh, length_app. simpl length.
  replace (Z.of_nat (length (JS.slice0 (historyIndex st + 1) (history st)) + 1) - 1)
    with (Z.of_nat (length (JS.slice0 (historyIndex st + 1) (history st)))) by lia.
  apply js_index_middle.
Qed.

Lemma applySnapshot_model (s : Snapshot) (st : Playground) :
  s_nextLinkId s <> 0 ->
  objects (applySnapshot s st) = s_objects s /\
  links (applySnapshot s st) = s_links s /\
  nextId (applySnapshot s st) = s_nextId s /\
  nextLinkId (applySnapshot s st) = s_nextLinkId s.
Proof.
  intros Hk. pose proof (model_of_applySnapshot s st Hk) as Hm.
  destruct s as [o l n k]. unfold model_of in Hm.
  injection Hm as Ho Hl Hn Hk'. auto.
Qed.

Lemma applySnapshot_anchored (s : Snapshot) (st : Playground) :
  js_index (history st) (historyIndex st) = Some s ->
  s_nextLinkId s <> 0 ->
  anchored (applySnapshot s st).
Proof.
  intros Hs Hk. exists s.
  destruct (applySnapshot_frame s st) as (_ & Hh & Hi & _).
  destruct (applySnapshot_model s st Hk) as (Ho & Hl & Hn & Hk').
  rewrite Hh, Hi, Ho, Hl, Hn, Hk'. auto.
Qed.

Lemma entry_link_counter (st : Playground) (i : Z) (s : Snapshot) :
  consistent st -> js_index (history st) i = Some s -> s_nextLinkId s <> 0.
Proof.
  intros (_ & Hh & _) Hs. apply js_index_elem in Hs.
  rewrite Forall_forall in Hh. destruct (Hh s Hs) as ((_ & _ & _ & Hk) & _). lia.
Qed.

Lemma undo_applies (st : Playground) :
  anchored st -> 0 < historyIndex st ->
  exists s, js_index (history st) (historyIndex st - 1) = Some s /\
            undo st = applySnapshot s (set_historyIndex (historyIndex st - 1) st).
Proof.
  intros (s0 & Hs0 & _) Hpos. apply js_index_range in Hs0.
  destruct (js_index_in_range (history st) (historyIndex st - 1)) as [s Hs]; [lia |].
  exists s. split; [exact Hs |].
  unfold undo. destruct (Z.leb_spec (historyIndex st) 0); [lia |].
  simpl. rewrite Hs. reflexivity.
Qed.

Lemma redo_applies (st : Playground) :
  anchored st -> historyIndex st < Z.of_nat (length (history st)) - 1 ->
  exists s, js_index (history st) (historyIndex st + 1) = Some s /\
            redo st = applySnapshot s (set_historyIndex (historyIndex st + 1) st).
Proof.
  intros (s0 & Hs0 & _) Hlt. apply js_index_range in Hs0.
  destruct (js_index_in_range (history st) (historyIndex st + 1)) as [s Hs]; [lia |].
  exists s. split; [exact Hs |].
  unfold redo.
  destruct (Z.leb_spec (Z.of_nat (length (history st)) - 1) (historyIndex st)); [lia |].
  simpl. rewrite Hs. reflexivity.
Qed.

Lemma undo_anchored (st : Playground) :
  consistent st -> anchored st -> anchored (undo st).
Proof.
  intros Hc Ha. destruct (Z.leb_spec (historyIndex st) 0) as [Hle | Hpos].
  - unfold undo. destruct (Z.leb_spec (historyIndex st) 0); [exact Ha | lia].
  - destruct (undo_applies st Ha Hpos) as (s & Hs & ->).
    apply applySnapshot_anchored; [exact Hs |].
    exact (entry_link_counter st _ s Hc Hs).
Qed.

Lemma redo_anchored (st : Playground) :
  consistent st -> anchored st -> anchored (redo st).
Proof.
  intros Hc Ha.
  destruct (Z.leb_spec (Z.of_nat (length (history st)) - 1) (historyIndex st))
    as [Hle | Hlt].
  - unfold redo.
    destruct (Z.leb_spec (Z.of_nat (length (history st)) - 1) (historyIndex st));
      [exact Ha | lia].
  - destruct (redo_applies st Ha Hlt) as (s & Hs & ->).
    apply applySnapshot_anchored; [exact Hs |].
    exact (entry_link_counter st _ s Hc Hs).
Qed.

Lemma tick_still (step : Body -> Kinematics) (st : Playground) :
  still st (tick step st).
Proof.
  unfold still, tick, syncModelTransforms. simpl.
  rewrite strip_pose_map. repeat split.
Qed.

Lemma showHint_still (text : string) (st : Playground) : still st (showHint text st).
Proof. repeat split. Qed.

Lemma set_constraintAnchor_still (a : option Body) (st : Playground) :
  still st (set_constraintAnchor a st).
Proof. repeat split. Qed.

Lemma handleSelection_still (id : string) (additive : bool) (st : Playground) :
  still st (handleSelection id additive st).
Proof.
  unfold handleSelection. destruct additive; [| repeat split].
  destruct (bool_decide _); repeat split.
Qed.

Lemma still_trans (a b c : Playground) : still a b -> still b c -> still a c.
Proof.
  intros (H1 & H2 & H3 & H4 & H5 & H6) (G1 & G2 & G3 & G4 & G5 & G6).
  unfold still. rewrite G1, G2, G3, G4, G5, G6. auto 7.
Qed.

Lemma handleConstraintPoint_anchored (body : option Body) (st : Playground) :
  anchored st -> anchored (handleConstraintPoint body st).
Proof.
  intros Ha. unfold handleConstraintPoint.
  destruct body as [body |]; [| exact Ha].
  destruct (String.eqb _ ""); [exact Ha |].
  destruct (constraintAnchor st) as [anchor |].
  - destruct (String.eqb _ _).
    + exact (anchored_still _ _ Ha
               (still_trans _ _ _ (showHint_still _ _) (set_constraintAnchor_still _ _))).
    + exact (anchored_still _ _ (commitHistory_anchored _) (showHint_still _ _)).
  - exact (anchored_still _ _ Ha
             (still_trans _ _ _ (set_constraintAnchor_still _ _) (showHint_still _ _))).
Qed.

Lemma addBounds_still (st : Playground) : still st (addBounds st).
Proof. repeat split. Qed.

Lemma clearSelection_still (st : Playground) : still st (clearSelection st).
Proof. repeat split. Qed.

Lemma perform_anchored (a : Action) (st : Playground) :
  consistent st -> anchored st -> anchored (perform a st).
Proof.
  intros Hc Ha. destruct a; simpl perform.
  - unfold placeModel, createModel.
    exact (anchored_still _ _ (commitHistory_anchored _) (handleSelection_still _ _ _)).
  - exact (anchored_still _ _ Ha
             (still_trans _ _ _ (set_constraintAnchor_still _ _) (showHint_still _ _))).
  - exact (anchored_still _ _ Ha (handleSelection_still _ _ _)).
  - exact (anchored_still _ _ Ha (clearSelection_still _)).
  - unfold updatePhysics. destruct (selectedIds st);
      [exact Ha | apply commitHistory_anchored].
  - unfold updateVisual. destruct (selectedIds st);
      [exact Ha | apply commitHistory_anchored].
  - unfold updateSelection. destruct (selectedIds st);
      [exact Ha | apply commitHistory_anchored].
  - unfold changeShape. destruct (selectedIds st);
      [exact Ha | apply commitHistory_anchored].
  - unfold changePolygonSides. destruct (selectedIds st);
      [exact Ha | apply commitHistory_anchored].
  - apply commitHistory_anchored.
  - apply handleConstraintPoint_anchored, Ha.
  - unfold duplicateSelection. destruct (selectedIds st) as [| i0 sel0]; [exact Ha |].
    match goal with |- context [foldl ?f ?a ?l] => destruct (foldl f a l) as [s1 newIds] end.
    destruct newIds as [| first rest]; [apply commitHistory_anchored |].
    exact (anchored_still _ _ (commitHistory_anchored _) (handleSelection_still _ _ _)).
  - unfold deleteSelection. destruct (selectedIds st);
      [exact Ha | apply commitHistory_anchored].
  - unfold resetWorld.
    exact (anchored_still _ _ (commitHistory_anchored _) (showHint_still _ _)).
  - apply undo_anchored; assumption.
  - apply redo_anchored; assumption.
  - exact (anchored_still _ _ Ha (addBounds_still _)).
  - exact (anchored_still _ _ Ha (tick_still _ _)).
Qed.

Lemma startup_anchored : anchored startup.
Proof.
  unfold startup, constructor.
  exact (anchored_still _ _ (commitHistory_anchored _) (showHint_still _ _)).
Qed.

Lemma reachable_anchored (st : Playground) : Reachable st -> anchored st.
Proof.
  induction 1 as [| a st Hreach IH]; [apply startup_anchored |].
  apply perform_anchored; [apply reachable_consistent, Hreach | exact IH].
Qed.



Lemma commitHistory_index (st : Playground) :
  0 <= historyIndex st + 1 <= Z.of_nat (length (history st)) ->
  historyIndex (commitHistory st) = historyIndex st + 1.
Proof.
  intros Hi. destruct (commitHistory_history st) as [Hh ->].
  rewrite Hh, length_app. simpl length. unfold JS.slice0.
  destruct (Z.ltb_spec (historyIndex st + 1) 0); [lia |].
  rewrite length_take. lia.
Qed.






(** ** Springs stay attached to the current bodies *)

Lemma attachLink_linkMap (link : SpringLink) (st : Playground) :
  linkMap (attachLink link st)
  = match bodyMap st !! l_a link, bodyMap st !! l_b link with
    | Some a, Some b =>
        <[l_id link := Matter.Constraint_create (w_next (world st)) a b (l_options link)]>
          (linkMap st)
    | _, _ => linkMap st
    end.
Proof.
  unfold attachLink.
  destruct (bodyMap st !! l_a link), (bodyMap st !! l_b link); reflexivity.
Qed.

Lemma NoDup_map_elem_eq {A B} (f : A -> B) (l : list A) (x y : A) :
  NoDup (map f l) -> x ∈ l -> y ∈ l -> f x = f y -> x = y.
Proof.
  induction l as [| a l IH]; simpl; [intros _ Hx; inversion Hx |].
  intros Hnd Hx Hy Hf. apply NoDup_cons in Hnd as [Hnotin Hnd].
  apply elem_of_cons in Hx as [-> | Hx]; apply elem_of_cons in Hy as [-> | Hy].
  - reflexivity.
  - exfalso. apply Hnotin. rewrite Hf. apply list_elem_of_fmap_2, Hy.
  - exfalso. apply Hnotin. rewrite <- Hf. apply list_elem_of_fmap_2, Hx.
  - auto.
Qed.

Section AttachLoop.

Variable step : Playground -> SpringLink -> Playground.
Variable P : SpringLink -> bool.
Variable handle : Playground -> SpringLink -> Handle.

Hypothesis step_bodyMap : forall st l, bodyMap (step st l) = bodyMap st.
Hypothesis step_linkMap : forall st l,
  linkMap (step st l)
  = if P l then
      match bodyMap st !! l_a l, bodyMap st !! l_b l with
      | Some a, Some b =>
          <[l_id l := Matter.Constraint_create (handle st l) a b (l_options l)]>
            (linkMap st)
      | _, _ => linkMap st
      end
    else linkMap st.

Lemma loop_bodyMap (ls : list SpringLink) :
  forall s, bodyMap (foldl step s ls) = bodyMap s.
Proof.
  induction ls as [| a ls IH]; intros s; simpl; [reflexivity |].
  rewrite IH. apply step_bodyMap.
Qed.

Lemma loop_other (ls : list SpringLink) (k : string) :
  forall s,
    (forall l, l ∈ ls -> P l = true -> l_id l <> k) ->
    linkMap (foldl step s ls) !! k = linkMap s !! k.
Proof.
  induction ls as [| a ls IH]; intros s Hk; simpl; [reflexivity |].
  rewrite IH by (intros l Hl; apply Hk; right; exact Hl).
  rewrite step_linkMap. destruct (P a) eqn:HP; [| reflexivity].
  destruct (bodyMap s !! l_a a), (bodyMap s !! l_b a); try reflexivity.
  apply lookup_insert_ne. apply Hk; [left | exact HP].
Qed.

Lemma loop_joins (ls : list SpringLink) :
  forall s l,
    NoDup (map l_id ls) -> l ∈ ls -> P l = true ->
    is_Some (bodyMap s !! l_a l) -> is_Some (bodyMap s !! l_b l) ->
    joins (bodyMap s) (linkMap (foldl step s ls)) l.
Proof.
  induction ls as [| a ls IH]; intros s l Hnd Hl HP Ha Hb; [inversion Hl |].
  simpl in Hnd. apply NoDup_cons in Hnd as [Hnotin Hnd]. simpl.
  destruct (decide (l_id l = l_id a)) as [Hid | Hne].
  - assert (l = a) as ->.
    { apply elem_of_cons in Hl as [-> | Hl]; [reflexivity |].
      exfalso. apply Hnotin. rewrite <- Hid. apply list_elem_of_fmap_2, Hl. }
    destruct Ha as [bodyA HbodyA], Hb as [bodyB HbodyB].
    exists (Matter.Constraint_create (handle s a) bodyA bodyB (l_options a)),
           bodyA, bodyB.
    split; [| repeat split; assumption].
    rewrite loop_other.
    + rewrite step_linkMap, HP, HbodyA, HbodyB. apply lookup_insert_eq.
    + intros l' Hl' _ Heq. apply Hnotin. rewrite <- Heq.
      apply list_elem_of_fmap_2, Hl'.
  - apply elem_of_cons in Hl as [-> | Hl]; [congruence |].
    rewrite <- (step_bodyMap s a).
    apply IH; try assumption; rewrite step_bodyMap; assumption.
Qed.

Lemma loop_keys (ls : list SpringLink) (k : string) :
  forall s,
    is_Some (linkMap (foldl step s ls) !! k) ->
    is_Some (linkMap s !! k) \/ k ∈ map l_id ls.
Proof.
  induction ls as [| a ls IH]; intros s Hk; simpl in *; [left; exact Hk |].
  destruct (IH _ Hk) as [Hin | Hin]; [| right; right; exact Hin].
  rewrite step_linkMap in Hin. destruct (P a); [| left; exact Hin].
  destruct (bodyMap s !! l_a a), (bodyMap s !! l_b a); try (left; exact Hin).
  destruct (decide (l_id a = k)) as [<- | Hne]; [right; left |].
  rewrite lookup_insert_ne in Hin by exact Hne. left; exact Hin.
Qed.

End AttachLoop.

Lemma refreshLinksFor_each_bodyMap (id : string) (st : Playground) (link : SpringLink) :
  bodyMap (if touches id link then
             attachLink link
               match linkMap st !! l_id link with
               | Some existing =>
                   set_world (Matter.remove_constraint (c_handle existing) (world st)) st
               | None => st
               end
           else st)
  = bodyMap st.
Proof.
  destruct (touches id link); [| reflexivity].
  rewrite (proj1 (attachLink_frame _ _)).
  destruct (linkMap st !! l_id link); reflexivity.
Qed.

Lemma refreshLinksFor_each_linkMap (id : string) (st : Playground) (link : SpringLink) :
  linkMap (if touches id link then
             attachLink link
               match linkMap st !! l_id link with
               | Some existing =>
                   set_world (Matter.remove_constraint (c_handle existing) (world st)) st
               | None => st
               end
           else st)
  = if touches id link then
      match bodyMap st !! l_a link, bodyMap st !! l_b link with
      | Some a, Some b =>
          <[l_id link := Matter.Constraint_create (w_next (world st)) a b (l_options link)]>
            (linkMap st)
      | _, _ => linkMap st
      end
    else linkMap st.
Proof.
  destruct (touches id link); [| reflexivity].
  rewrite attachLink_linkMap.
  destruct (linkMap st !! l_id link); reflexivity.
Qed.

Lemma wired_frame (st st' : Playground) :
  links st' = links st -> linkMap st' = linkMap st ->
  (forall i b, bodyMap st !! i = Some b ->
               exists b', bodyMap st' !! i = Some b' /\ b_handle b' = b_handle b) ->
  wired st -> wired st'.
Proof.
  intros Hl Hm Hb Hw l Hin. rewrite Hl in Hin.
  destruct (Hw l Hin) as (c & bodyA & bodyB & Hc & Ha & Hb' & HA & HB & Ho).
  destruct (Hb _ _ Ha) as (a' & Ha' & HhA), (Hb _ _ Hb') as (b' & Hb'' & HhB).
  exists c, a', b'. unfold attached. rewrite Hm.
  repeat split; try assumption; congruence.
Qed.

Lemma wired_same_bodies (st st' : Playground) :
  links st' = links st -> linkMap st' = linkMap st -> bodyMap st' = bodyMap st ->
  wired st -> wired st'.
Proof.
  intros Hl Hm Hb. apply wired_frame; try assumption.
  intros i b Hi. exists b. rewrite Hb. auto.
Qed.

Lemma refreshLinksFor_wired (id : string) (st : Playground) :
  NoDup (map l_id (links st)) ->
  (forall l, l ∈ links st -> touches id l = true ->
             is_Some (bodyMap st !! l_a l) /\ is_Some (bodyMap st !! l_b l)) ->
  (forall l, l ∈ links st -> touches id l = false -> attached st l) ->
  wired (refreshLinksFor id st).
Proof.
  intros Hnd Htouch Hrest l Hl.
  destruct (refreshLinksFor_frame id st) as (Hb & _ & _ & Hlinks & _).
  rewrite Hlinks in Hl. unfold attached. rewrite Hb.
  unfold refreshLinksFor.
  destruct (touches id l) eqn:Ht.
  - destruct (Htouch l Hl Ht) as [Ha Hb'].
    apply (loop_joins _ (touches id) (fun s _ => w_next (world s))
             (refreshLinksFor_each_bodyMap id) (refreshLinksFor_each_linkMap id));
      assumption.
  - destruct (Hrest l Hl Ht) as (c & bodyA & bodyB & Hc & Hrest').
    exists c, bodyA, bodyB. split; [| exact Hrest'].
    rewrite (loop_other _ (touches id) (fun s _ => w_next (world s))
               (refreshLinksFor_each_linkMap id)); [exact Hc |].
    intros l' Hl' Ht' Heq.
    assert (l' = l) as -> by (apply (NoDup_map_elem_eq l_id (links st)); assumption).
    congruence.
Qed.

Lemma touches_false (id : string) (l : SpringLink) :
  touches id l = false -> l_a l <> id /\ l_b l <> id.
Proof.
  unfold touches. intros H. apply orb_false_elim in H as [Ha Hb].
  apply String.eqb_neq in Ha, Hb. auto.
Qed.

Lemma rebuildBody_links (model : SceneObject) (st : Playground) :
  links (rebuildBody model st) = links st.
Proof. exact (proj1 (proj2 (rebuildBody_same_model model st))). Qed.

Lemma rebuildBody_wired (model : SceneObject) (st : Playground) :
  NoDup (map l_id (links st)) -> wired st -> wired (rebuildBody model st).
Proof.
  intros Hnd Hw.
  destruct (bodyMap st !! o_id model) as [existing |] eqn:Hlive;
    [| unfold rebuildBody; rewrite Hlive; exact Hw].
  rewrite (rebuildBody_live _ _ _ Hlive).
  apply refreshLinksFor_wired; [exact Hnd | |].
  - intros l Hl _. destruct (Hw l Hl) as (c & bodyA & bodyB & _ & Ha & Hb & _).
    simpl. split.
    + destruct (decide (o_id model = l_a l)) as [<- | Hne];
        [rewrite lookup_insert_eq | rewrite lookup_insert_ne by exact Hne]; eauto.
    + destruct (decide (o_id model = l_b l)) as [<- | Hne];
        [rewrite lookup_insert_eq | rewrite lookup_insert_ne by exact Hne]; eauto.
  - intros l Hl Ht. apply touches_false in Ht as [Hane Hbne].
    destruct (Hw l Hl) as (c & bodyA & bodyB & Hc & Ha & Hb & Hrest).
    exists c, bodyA, bodyB. simpl.
    rewrite !lookup_insert_ne by congruence. auto.
Qed.

Lemma commitHistory_wired (st : Playground) : wired st -> wired (commitHistory st).
Proof.
  apply wired_same_bodies; [| reflexivity | reflexivity].
  exact (proj2 (proj2 (commitHistory_counters st))).
Qed.

Lemma applySnapshot_loop_links (objs : list SceneObject) :
  forall s, links (foldl applySnapshot_each s objs) = links s /\
            linkMap (foldl applySnapshot_each s objs) = linkMap s.
Proof.
  induction objs as [| o objs IH]; intros s; simpl; [split; reflexivity |].
  destruct (IH (applySnapshot_each s o)) as [-> ->]. split; reflexivity.
Qed.

Lemma attachLink_loop_links (ls : list SpringLink) :
  forall s, links (foldl (fun st link => attachLink link st) s ls) = links s.
Proof.
  induction ls as [| a ls IH]; intros s; simpl; [reflexivity |].
  rewrite IH. exact (proj1 (proj2 (proj2 (proj2 (attachLink_frame a s))))).
Qed.

Lemma applySnapshot_wired (s : Snapshot) (st : Playground) :
  NoDup (map l_id (s_links s)) ->
  endpoints_ok (ids (s_objects s)) (s_links s) ->
  wired (applySnapshot s st).
Proof.
  intros Hnd Hends l Hl.
  assert (Hlinks : links (applySnapshot s st) = s_links s).
  { destruct (applySnapshot_frame s st) as (Hm & _).
    unfold model_of in Hm. injection Hm as _ Hlinks _ _. exact Hlinks. }
  rewrite Hlinks in Hl. destruct (Hends l Hl) as [Ha Hb].
  assert (Hbody : forall i, i ∈ ids (s_objects s) ->
                            is_Some (bodyMap (applySnapshot s st) !! i)).
  { intros i Hi. pose proof (applySnapshot_bodies s st i) as Hbod.
    destruct (last_with_id_some i _ Hi) as [o Ho]. rewrite Ho in Hbod.
    destruct Hbod as [h ->]. eauto. }
  pose proof (Hbody _ Ha) as HA. pose proof (Hbody _ Hb) as HB.
  unfold attached. revert HA HB. unfold applySnapshot.
  rewrite attachLink_loop_bodyMap.
  match goal with |- context [foldl applySnapshot_each ?s0 ?objs] =>
    set (S1 := foldl applySnapshot_each s0 objs);
    assert (HS1 : links S1 = s_links s)
      by (unfold S1; rewrite (proj1 (applySnapshot_loop_links objs s0)); reflexivity)
  end.
  intros HA HB. rewrite HS1.
  apply (loop_joins (fun st link => attachLink link st) (fun _ => true)
           (fun st _ => w_next (world st))
           (fun st l => proj1 (attachLink_frame l st))
           (fun st l => attachLink_linkMap l st)); auto.
Qed.

Lemma undo_wired (st : Playground) : strong st -> wired st -> wired (undo st).
Proof.
  intros Hst Hw. unfold undo. destruct (Z.leb (historyIndex st) 0); [exact Hw |].
  simpl. destruct (js_index (history st) (historyIndex st - 1)) as [s |] eqn:Hs.
  - destruct (history_entry_ok _ _ _ Hst Hs) as [[_ Hends] [_ Hnd]].
    apply applySnapshot_wired; assumption.
  - exact (wired_same_bodies st _ eq_refl eq_refl eq_refl Hw).
Qed.

Lemma redo_wired (st : Playground) : strong st -> wired st -> wired (redo st).
Proof.
  intros Hst Hw. unfold redo.
  destruct (Z.leb (Z.of_nat (length (history st)) - 1) (historyIndex st));
    [exact Hw |].
  simpl. destruct (js_index (history st) (historyIndex st + 1)) as [s |] eqn:Hs.
  - destruct (history_entry_ok _ _ _ Hst Hs) as [[_ Hends] [_ Hnd]].
    apply applySnapshot_wired; assumption.
  - exact (wired_same_bodies st _ eq_refl eq_refl eq_refl Hw).
Qed.

Lemma createLink_wired (aId bId : string) (st : Playground) :
  consistent st -> wired st -> wired (createLink aId bId st).
Proof.
  intros (((_ & Hlnk & _) & _) & _ & _) Hw. unfold createLink.
  destruct (bodyMap st !! aId) as [bodyA |] eqn:Ha; [| exact Hw].
  destruct (bodyMap st !! bId) as [bodyB |] eqn:Hb; [| exact Hw].
  intros l Hl. simpl in Hl. unfold attached. simpl.
  apply elem_of_app in Hl as [Hl | Hl].
  - destruct (Hw l Hl) as (c & a & b & Hc & Hrest).
    exists c, a, b. split; [| exact Hrest].
    rewrite lookup_insert_ne; [exact Hc |].
    destruct (Hlnk l Hl) as (m & Hid & Hm). rewrite Hid.
    unfold model_of in Hm. simpl in Hm.
    intros Heq. apply linkId_inj in Heq. lia.
  - apply list_elem_of_singleton in Hl as ->. simpl.
    eexists _, bodyA, bodyB. rewrite lookup_insert_eq.
    repeat split; try reflexivity; assumption.
Qed.

Lemma showHint_wired (text : string) (st : Playground) :
  wired st -> wired (showHint text st).
Proof. exact (wired_same_bodies st _ eq_refl eq_refl eq_refl). Qed.

Lemma set_constraintAnchor_wired (a : option Body) (st : Playground) :
  wired st -> wired (set_constraintAnchor a st).
Proof. exact (wired_same_bodies st _ eq_refl eq_refl eq_refl). Qed.

Lemma handleSelection_wired (id : string) (additive : bool) (st : Playground) :
  wired st -> wired (handleSelection id additive st).
Proof.
  unfold handleSelection. destruct additive.
  - destruct (bool_decide _); [tauto |].
    exact (wired_same_bodies st _ eq_refl eq_refl eq_refl).
  - exact (wired_same_bodies st _ eq_refl eq_refl eq_refl).
Qed.

Lemma clearSelection_wired (st : Playground) : wired st -> wired (clearSelection st).
Proof. exact (wired_same_bodies st _ eq_refl eq_refl eq_refl). Qed.

Lemma addBounds_wired (st : Playground) : wired st -> wired (addBounds st).
Proof. exact (wired_same_bodies st _ eq_refl eq_refl eq_refl). Qed.

Lemma set_objects_wired (objs : list SceneObject) (st : Playground) :
  wired st -> wired (set_objects objs st).
Proof. exact (wired_same_bodies st _ eq_refl eq_refl eq_refl). Qed.

Lemma handleConstraintPoint_wired (body : option Body) (st : Playground) :
  consistent st -> wired st -> wired (handleConstraintPoint body st).
Proof.
  intros Hc Hw. unfold handleConstraintPoint.
  destruct body as [body |]; [| exact Hw].
  destruct (String.eqb _ ""); [exact Hw |].
  destruct (constraintAnchor st) as [anchor |].
  - destruct (String.eqb _ _).
    + apply set_constraintAnchor_wired, showHint_wired, Hw.
    + apply showHint_wired, commitHistory_wired, set_constraintAnchor_wired,
        createLink_wired; assumption.
  - apply showHint_wired, set_constraintAnchor_wired, Hw.
Qed.

Lemma fresh_id_no_body (st : Playground) :
  consistent st -> bodyMap st !! objId (nextId st) = None.
Proof.
  intros (((Hobj & _) & _) & _ & Hb).
  destruct (bodyMap st !! objId (nextId st)) as [b |] eqn:Hlook; [| reflexivity].
  destruct (Hobj _ (Hb _ (ex_intro _ b Hlook))) as (m & Hid & Hm).
  unfold model_of in Hm. simpl in Hm.
  apply objId_inj in Hid. lia.
Qed.

Lemma wired_add_body (st st' : Playground) (id : string) (body : Body) :
  bodyMap st !! id = None ->
  links st' = links st -> linkMap st' = linkMap st ->
  bodyMap st' = <[id := body]> (bodyMap st) ->
  wired st -> wired st'.
Proof.
  intros Hfresh Hl Hm Hb. apply wired_frame; try assumption.
  intros i b Hi. exists b. rewrite Hb, lookup_insert_ne by congruence. auto.
Qed.

Lemma placeModel_wired (center : Vec) (shape : Shape) (bodyType : BodyType)
    (st : Playground) :
  consistent st -> wired st -> wired (placeModel center shape bodyType st).
Proof.
  intros Hc Hw. unfold placeModel, createModel.
  apply handleSelection_wired, commitHistory_wired.
  eapply (wired_add_body st _ (objId (nextId st)));
    [apply fresh_id_no_body, Hc | reflexivity | reflexivity | | exact Hw].
  unfold addModelToWorld, buildBody. simpl. reflexivity.
Qed.

Lemma duplicateSelection_loop_wired (st : Playground) (sel : list string) :
  strong st -> wired st ->
  wired
    (fst (foldl (fun '(st, newIds) id =>
                   match find_object id (objects st) with
                   | None => (st, newIds)
                   | Some model =>
                       let clone := set_o_id (objId (nextId st)) model in
                       let st := set_nextId (nextId st + 1) st in
                       let clone :=
                         set_o_position (mkVec (vx (o_position model) + 20)
                                               (vy (o_position model) - 20)) clone in
                       let st := set_objects (objects st ++ [clone]) st in
                       let (body, st) := buildBody clone st in
                       let st := set_world (Matter.add_body (b_handle body) (world st)) st in
                       let st := set_bodyMap (<[o_id clone := body]> (bodyMap st)) st in
                       (st, newIds ++ [o_id clone])
                   end)
                (st, []) sel)).
Proof.
  intros Hst Hw.
  apply (foldl_preserves
           (fun p : Playground * list string => strong (fst p) /\ wired (fst p)));
    [| split; assumption].
  intros [s newIds] id [Hs Hws]. simpl in Hs, Hws.
  destruct (find_object id (objects s)) as [model |]; [| split; assumption].
  unfold buildBody. simpl. split.
  - eapply (strong_add_object s); try reflexivity; [exact Hs | |].
    + simpl. unfold ids. rewrite map_app. reflexivity.
    + intros i. simpl. apply insert_fresh_is_Some.
  - eapply (wired_add_body s _ (objId (nextId s)));
      [apply fresh_id_no_body, Hs | reflexivity | reflexivity | | exact Hws].
    simpl. reflexivity.
Qed.

Lemma duplicateSelection_wired (st : Playground) :
  strong st -> wired st -> wired (duplicateSelection st).
Proof.
  intros Hst Hw. unfold duplicateSelection.
  destruct (selectedIds st) as [| i sel] eqn:Hsel; [exact Hw |].
  pose proof (duplicateSelection_loop_wired st (i :: sel) Hst Hw) as Hc.
  match goal with |- context [foldl ?f ?a ?l] => destruct (foldl f a l) as [s newIds] end.
  simpl in Hc.
  destruct newIds as [| first rest]; [apply commitHistory_wired, Hc |].
  apply handleSelection_wired, commitHistory_wired, Hc.
Qed.

Lemma deleteSelection_each_wired (st : Playground) (X : string) :
  NoDup (map l_id (links st)) /\ wired st ->
  NoDup (map l_id (links (deleteSelection_each st X))) /\
  wired (deleteSelection_each st X).
Proof.
  intros [Hnd Hw]. unfold deleteSelection_each.
  set (s0 := set_objects _ (set_bodyMap _ _)).
  assert (Hl0 : links s0 = links st)
    by (unfold s0; destruct (bodyMap st !! X); reflexivity).
  assert (Hb0 : bodyMap s0 = delete X (bodyMap st))
    by (unfold s0; destruct (bodyMap st !! X); reflexivity).
  assert (Hm0 : linkMap s0 = linkMap st)
    by (unfold s0; destruct (bodyMap st !! X); reflexivity).
  destruct (removeLinksFor_spec X s0)
    as (Hl & _ & Hb & _ & _ & _ & _ & _ & _ & Hkeep & _).
  cbv zeta. split.
  - rewrite Hl, Hl0. apply NoDup_map_filter, Hnd.
  - intros l Hin. rewrite Hl, Hl0 in Hin.
    apply list_elem_of_filter in Hin as [Hnt Hin].
    destruct (touches X l) eqn:Ht; [contradiction |].
    destruct (Hw l Hin) as (c & bodyA & bodyB & Hc & Ha & Hb' & Hrest).
    apply touches_false in Ht as [Hane Hbne].
    exists c, bodyA, bodyB. rewrite Hb, Hb0.
    rewrite !lookup_delete_ne by congruence.
    split; [| split; [exact Ha | split; [exact Hb' | exact Hrest]]].
    rewrite Hkeep, Hm0; [exact Hc |].
    intros l' Hl' Ht' Heq. rewrite Hl0 in Hl'.
    assert (l' = l) as -> by (apply (NoDup_map_elem_eq l_id (links st)); assumption).
    unfold touches in Ht'. apply orb_true_iff in Ht' as [Ht' | Ht'];
      apply String.eqb_eq in Ht'; congruence.
Qed.

Lemma deleteSelection_wired (st : Playground) :
  strong st -> wired st -> wired (deleteSelection st).
Proof.
  intros (_ & [_ Hnd] & _) Hw. unfold deleteSelection.
  destruct (selectedIds st) as [| i sel] eqn:Hsel; [exact Hw |].
  apply commitHistory_wired, clearSelection_wired.
  apply (foldl_preserves (fun s => NoDup (map l_id (links s)) /\ wired s));
    [| split; assumption].
  intros s X Hs. apply deleteSelection_each_wired, Hs.
Qed.

Lemma edit_step_wired (model : SceneObject) (objs : list SceneObject) (st : Playground) :
  NoDup (map l_id (links st)) /\ wired st ->
  NoDup (map l_id (links (rebuildBody model (set_objects objs st)))) /\
  wired (rebuildBody model (set_objects objs st)).
Proof.
  intros [Hnd Hw]. split.
  - rewrite rebuildBody_links. exact Hnd.
  - apply rebuildBody_wired; [exact Hnd | apply set_objects_wired, Hw].
Qed.

Lemma edit_and_rebuild_wired (f : SceneObject -> SceneObject) (st : Playground) :
  NoDup (map l_id (links st)) -> wired st -> wired (edit_and_rebuild f st).
Proof.
  intros Hnd Hw. unfold edit_and_rebuild.
  apply (foldl_preserves (fun s => NoDup (map l_id (links s)) /\ wired s));
    [| split; assumption].
  intros s id Hs. destruct (find_object id (objects s)); [| exact Hs].
  apply edit_step_wired, Hs.
Qed.

Lemma toggleLock_wired (lock : bool) (st : Playground) :
  wired st -> wired (toggleLock lock st).
Proof.
  intros Hw. unfold toggleLock. apply commitHistory_wired.
  apply (foldl_preserves wired); [| exact Hw].
  intros s id Hs. destruct (find_object id (objects s)); [| exact Hs].
  apply (wired_frame s); [reflexivity | reflexivity | | exact Hs].
  intros i b Hi. simpl.
  destruct (decide (id = i)) as [-> | Hne].
  - rewrite lookup_alter_eq, Hi. simpl. eauto.
  - rewrite lookup_alter_ne by exact Hne. eauto.
Qed.

Lemma tick_wired (step : Body -> Kinematics) (st : Playground) :
  wired st -> wired (tick step st).
Proof.
  apply wired_frame; [reflexivity | reflexivity |].
  intros i b Hi. unfold tick, syncModelTransforms. simpl.
  rewrite lookup_fmap, Hi. simpl. eauto.
Qed.

Lemma no_links_wired (st : Playground) : links st = [] -> wired st.
Proof. intros Hl l Hin. rewrite Hl in Hin. inversion Hin. Qed.

Lemma perform_wired (a : Action) (st : Playground) :
  strong st -> wired st -> wired (perform a st).
Proof.
  intros Hst Hw. pose proof (proj1 Hst) as Hc.
  pose proof (proj2 (proj1 (proj2 Hst))) as Hnd. simpl in Hnd.
  destruct a; simpl perform.
  - apply placeModel_wired; assumption.
  - apply showHint_wired, set_constraintAnchor_wired, Hw.
  - apply handleSelection_wired, Hw.
  - apply clearSelection_wired, Hw.
  - unfold updatePhysics. destruct (selectedIds st) as [| i0 sel0]; [exact Hw |].
    apply commitHistory_wired, edit_and_rebuild_wired; assumption.
  - unfold updateVisual. destruct (selectedIds st) as [| i0 sel0]; [exact Hw |].
    apply commitHistory_wired. apply (foldl_preserves wired); [| exact Hw].
    intros s id Hs. destruct (find_object id (objects s)); [| exact Hs].
    apply set_objects_wired, Hs.
  - unfold updateSelection. destruct (selectedIds st) as [| i0 sel0]; [exact Hw |].
    apply commitHistory_wired, edit_and_rebuild_wired; assumption.
  - unfold changeShape. destruct (selectedIds st) as [| i0 sel0]; [exact Hw |].
    apply commitHistory_wired.
    apply (foldl_preserves (fun s => NoDup (map l_id (links s)) /\ wired s));
      [| split; assumption].
    intros s id Hs. destruct (find_object id (objects s)); [| exact Hs].
    destruct (bodyMap s !! id); [| exact Hs].
    apply edit_step_wired, Hs.
  - unfold changePolygonSides. destruct (selectedIds st) as [| i0 sel0]; [exact Hw |].
    apply commitHistory_wired.
    apply (foldl_preserves (fun s => NoDup (map l_id (links s)) /\ wired s));
      [| split; assumption].
    intros s id Hs. destruct (find_object id (objects s)) as [model |]; [| exact Hs].
    destruct (o_shape model); try exact Hs.
    apply edit_step_wired, Hs.
  - apply toggleLock_wired, Hw.
  - apply handleConstraintPoint_wired; assumption.
  - apply duplicateSelection_wired; assumption.
  - apply deleteSelection_wired; assumption.
  - unfold resetWorld. apply showHint_wired, commitHistory_wired, addBounds_wired.
    apply no_links_wired. reflexivity.
  - apply undo_wired; assumption.
  - apply redo_wired; assumption.
  - apply addBounds_wired, Hw.
  - apply tick_wired, Hw.
Qed.

Lemma startup_wired : wired startup.
Proof.
  unfold startup, constructor.
  apply showHint_wired, commitHistory_wired, addBounds_wired, addBounds_wired.
  apply no_links_wired. reflexivity.
Qed.

Lemma reachable_wired (st : Playground) : Reachable st -> wired st.
Proof.
  induction 1 as [| a st Hreach IH]; [apply startup_wired |].
  apply perform_wired; [apply reachable_strong, Hreach | exact IH].
Qed.

Lemma last_with_id_unique (o : SceneObject) (objs : list SceneObject) :
  NoDup (ids objs) -> o ∈ objs -> last_with_id (o_id o) objs = Some o.
Proof.
  induction objs as [| a objs IH]; simpl; [intros _ H; inversion H |].
  intros Hnd Hin. apply NoDup_cons in Hnd as [Hnotin Hnd].
  apply elem_of_cons in Hin as [-> | Hin].
  - destruct (last_with_id (o_id a) objs) as [o' |] eqn:Hlast.
    + exfalso. apply Hnotin.
      rewrite <- (last_with_id_id _ _ _ Hlast).
      apply list_elem_of_fmap_2, (last_with_id_in _ _ _ Hlast).
    + rewrite String.eqb_refl. reflexivity.
  - rewrite (IH Hnd Hin). reflexivity.
Qed.

Lemma last_with_id_none (id : string) (objs : list SceneObject) :
  id ∉ ids objs -> last_with_id id objs = None.
Proof.
  intros Hnotin. destruct (last_with_id id objs) as [o |] eqn:Hlast; [| reflexivity].
  exfalso. apply Hnotin. rewrite <- (last_with_id_id _ _ _ Hlast).
  apply list_elem_of_fmap_2, (last_with_id_in _ _ _ Hlast).
Qed.

Lemma applySnapshot_linkMap_keys (s : Snapshot) (st : Playground) (k : string) :
  is_Some (linkMap (applySnapshot s st) !! k) -> k ∈ map l_id (s_links s).
Proof.
  unfold applySnapshot.
  match goal with |- context [foldl applySnapshot_each ?s0 ?objs] =>
    set (S1 := foldl applySnapshot_each s0 objs);
    assert (HS1 : links S1 = s_links s /\ linkMap S1 = ∅)
      by (unfold S1; destruct (applySnapshot_loop_links objs s0) as [-> ->];
          split; reflexivity)
  end.
  destruct HS1 as [Hl Hm]. rewrite Hl. intros Hk.
  apply (loop_keys (fun st link => attachLink link st) (fun _ => true)
           (fun st _ => w_next (world st))
           (fun st l => attachLink_linkMap l st)) in Hk.
  destruct Hk as [Hk | Hk]; [| exact Hk].
  rewrite Hm, lookup_empty in Hk. destruct Hk as [? Hk]. discriminate Hk.
Qed.

(** X9. Restoring a snapshot (undo, redo, scene load) whose ids are
    unique and whose links have present endpoints rebuilds the whole
    scene: every object gets a body at the recorded position and angle
    and at rest, no other id keeps a body, every link is attached to the
    new bodies, no other constraint survives, and the selection is
    empty. *)
Theorem applySnapshot_rebuilds_scene (s : Snapshot) (st : Playground) :
  NoDup (ids (s_objects s)) ->
  NoDup (map l_id (s_links s)) ->
  endpoints_ok (ids (s_objects s)) (s_links s) ->
  let st' := applySnapshot s st in
  selectedIds st' = [] /\
  (forall o, o ∈ s_objects s ->
     exists h, bodyMap st' !! o_id o
               = Some (mkBody h (geometry_of (o_shape o)) (opts_of o) (o_position o)
                              (mkVec 0 0) (o_angle o) 0
                              (mkPlugin (o_id o) (o_locked o)))) /\
  (forall i, i ∉ ids (s_objects s) -> bodyMap st' !! i = None) /\
  (forall l, l ∈ s_links s -> attached st' l) /\
  (forall k, is_Some (linkMap st' !! k) -> k ∈ map l_id (s_links s)).
Proof.
  intros Hobj Hlnk Hends st'.
  split; [exact (proj2 (proj2 (proj2 (applySnapshot_frame s st)))) |].
  split; [| split; [| split]].
  - intros o Ho. pose proof (applySnapshot_bodies s st (o_id o)) as Hb.
    rewrite (last_with_id_unique o _ Hobj Ho) in Hb.
    destruct Hb as [h Hb]. exists h. rewrite <- body_of_eq. exact Hb.
  - intros i Hi. pose proof (applySnapshot_bodies s st i) as Hb.
    rewrite (last_with_id_none i _ Hi) in Hb. exact Hb.
  - intros l Hl. apply (applySnapshot_wired s st Hlnk Hends).
    destruct (applySnapshot_frame s st) as (Hm & _).
    unfold model_of in Hm. injection Hm as _ Hlinks _ _.
    unfold st'. rewrite Hlinks. exact Hl.
  - apply applySnapshot_linkMap_keys.
Qed.

Lemma applySnapshot_rebuilds_scene_witness :
  NoDup (ids (s_objects linked_snapshot)) /\
  NoDup (map l_id (s_links linked_snapshot)) /\
  endpoints_ok (ids (s_objects linked_snapshot)) (s_links linked_snapshot) /\
  selectedIds (applySnapshot linked_snapshot two_objects) = [] /\
  attached (applySnapshot linked_snapshot two_objects) demo_link.
Proof.
  assert (Hobj : NoDup (ids (s_objects linked_snapshot))).
  { apply NoDup_cons. split; [| apply NoDup_singleton].
    intros Hin. apply list_elem_of_singleton in Hin. discriminate Hin. }
  assert (Hlnk : NoDup (map l_id (s_links linked_snapshot)))
    by apply NoDup_singleton.
  assert (Hends : endpoints_ok (ids (s_objects linked_snapshot))
                               (s_links linked_snapshot)).
  { intros l Hl. apply list_elem_of_singleton in Hl as ->.
    split; [left | right; left]. }
  split; [exact Hobj |]. split; [exact Hlnk |]. split; [exact Hends |].
  destruct (applySnapshot_rebuilds_scene linked_snapshot two_objects Hobj Hlnk Hends)
    as (Hsel & _ & _ & Hatt & _).
  split; [exact Hsel |]. apply Hatt. left.
Defined.

Lemma rebuildBody_bodyMap (model : SceneObject) (existing : Body) (st : Playground) :
  bodyMap st !! o_id model = Some existing ->
  bodyMap (rebuildBody model st)
  = <[o_id model := set_kinematics (kinematics existing)
                      (body_of model (w_next (world st)))]> (bodyMap st).
Proof.
  intros Hlive. rewrite (rebuildBody_live _ _ _ Hlive).
  rewrite (proj1 (refreshLinksFor_frame _ _)). reflexivity.
Qed.

Lemma rebuildBody_linkMap_other (model : SceneObject) (st : Playground) (k : string) :
  (forall l, l ∈ links st -> touches (o_id model) l = true -> l_id l <> k) ->
  linkMap (rebuildBody model st) !! k = linkMap st !! k.
Proof.
  intros Hk. destruct (bodyMap st !! o_id model) as [existing |] eqn:Hlive;
    [| unfold rebuildBody; rewrite Hlive; reflexivity].
  rewrite (rebuildBody_live _ _ _ Hlive). unfold refreshLinksFor.
  rewrite (loop_other _ (touches (o_id model)) (fun s _ => w_next (world s))
             (refreshLinksFor_each_linkMap (o_id model))); [reflexivity |].
  exact Hk.
Qed.

(** X10. Rebuilding the body of an object re-attaches its springs: after
    [rebuildBody] every link still has a constraint with the link's
    options, the constraint of a link that ends at the rebuilt object is
    tied to the new body on that side, and a link that does not touch
    the object keeps the constraint it had. *)
Theorem rebuildBody_reattaches_links
    (model : SceneObject) (existing : Body) (st : Playground) :
  NoDup (map l_id (links st)) ->
  (forall l, l ∈ links st -> attached st l) ->
  bodyMap st !! o_id model = Some existing ->
  let st' := rebuildBody model st in
  let h := w_next (world st) in
  links st' = links st /\
  forall l, l ∈ links st ->
    exists c,
      linkMap st' !! l_id l = Some c /\ c_options c = l_options l /\
      (l_a l = o_id model -> c_bodyA c = h) /\
      (l_b l = o_id model -> c_bodyB c = h) /\
      (l_a l <> o_id model -> l_b l <> o_id model ->
       linkMap st !! l_id l = Some c).
Proof.
  intros Hnd Hw Hlive st' h.
  split; [apply rebuildBody_links |].
  intros l Hl.
  assert (Hl' : l ∈ links st') by (unfold st'; rewrite rebuildBody_links; exact Hl).
  destruct (rebuildBody_wired model st Hnd Hw l Hl')
    as (c & bodyA & bodyB & Hc & Ha & Hb & HA & HB & Ho).
  rewrite (rebuildBody_bodyMap _ _ _ Hlive) in Ha, Hb.
  exists c. split; [exact Hc |]. split; [exact Ho |].
  split; [| split].
  - intros Heq. rewrite Heq, lookup_insert_eq in Ha.
    injection Ha as <-. rewrite HA. simpl. apply body_of_handle.
  - intros Heq. rewrite Heq, lookup_insert_eq in Hb.
    injection Hb as <-. rewrite HB. simpl. apply body_of_handle.
  - intros Hane Hbne. rewrite <- Hc. symmetry.
    apply rebuildBody_linkMap_other.
    intros l0 Hl0 Ht Heq.
    assert (l0 = l) as -> by (apply (NoDup_map_elem_eq l_id (links st)); assumption).
    unfold touches in Ht. apply orb_true_iff in Ht as [Ht | Ht];
      apply String.eqb_eq in Ht; congruence.
Qed.

Lemma rebuildBody_reattaches_links_witness :
  let model := set_o_shape (rectangle 40 30) (demo_object "obj-1" 100 100) in
  NoDup (map l_id (links linked_pair)) /\
  (forall l, l ∈ links linked_pair -> attached linked_pair l) /\
  bodyMap linked_pair !! o_id model = Some (demo_body 9%positive "obj-1" 100 100) /\
  exists c,
    linkMap (rebuildBody model linked_pair) !! "link-1" = Some c /\
    c_bodyA c = 12%positive.
Proof.
  intros model.
  assert (Hnd : NoDup (map l_id (links linked_pair))) by apply NoDup_singleton.
  assert (Hw : forall l, l ∈ links linked_pair -> attached linked_pair l).
  { intros l Hl. apply list_elem_of_singleton in Hl as ->.
    exists (mkConstraint 11%positive 9%positive 10%positive (mkOptions 0.04 0.02 220)),
           (demo_body 9%positive "obj-1" 100 100),
           (demo_body 10%positive "obj-2" 400 100).
    repeat split. }
  assert (Hlive : bodyMap linked_pair !! o_id model
                  = Some (demo_body 9%positive "obj-1" 100 100)) by reflexivity.
  split; [exact Hnd |]. split; [exact Hw |]. split; [exact Hlive |].
  destruct (rebuildBody_reattaches_links model _ linked_pair Hnd Hw Hlive)
    as (_ & Hall).
  destruct (Hall demo_link) as (c & Hc & _ & HA & _); [left |].
  exists c. split; [exact Hc | exact (HA eq_refl)].
Defined.

(** ** Drawing a shape and connecting two bodies *)

Lemma pose_fixed (o : SceneObject) (h : Handle) :
  set_o_angle (b_angle (body_of o h))
    (set_o_position (mkVec (vx (b_position (body_of o h)))
                           (vy (b_position (body_of o h)))) o)
  = o.
Proof.
  destruct (body_of_pose o h) as [-> ->]. destruct o. reflexivity.
Qed.

Lemma placeModel_facts (center : Vec) (shape : Shape) (bodyType : BodyType)
    (st : Playground) :
  let model := mkObject (objId (nextId st)) (shape_label (shape_type shape)) center 0
                        bodyType false shape DEFAULT_PHYSICS DEFAULT_VISUAL in
  let st' := placeModel center shape bodyType st in
  (exists older, objects st' = older ++ [model] /\ ids older = ids (objects st)) /\
  selectedIds st' = [objId (nextId st)] /\
  bodyMap st' = <[objId (nextId st) := body_of model (w_next (world st))]> (bodyMap st) /\
  linkMap st' = linkMap st /\
  nextId st' = nextId st + 1 /\ nextLinkId st' = nextLinkId st /\
  links st' = links st /\ constraintAnchor st' = constraintAnchor st /\
  history st' = JS.slice0 (historyIndex st + 1) (history st) ++ [model_of st'] /\
  w_bodies (world st') = {[w_next (world st)]} ∪ w_bodies (world st).
Proof.
  intros model st'. unfold st', placeModel, createModel. fold model.
  set (X := addModelToWorld model (set_nextId (nextId st + 1) st)).
  assert (HX : objects X = objects st ++ [model] /\
               bodyMap X = <[objId (nextId st) := body_of model (w_next (world st))]>
                             (bodyMap st))
    by (split; reflexivity).
  destruct HX as [Ho Hb].
  split; [| split; [reflexivity |]].
  - change (objects (handleSelection ?i ?a ?s)) with (objects s).
    rewrite commitHistory_objects, Ho, map_app.
    eexists. split.
    + apply (f_equal2 (@app SceneObject)); [reflexivity |].
      cbn [map]. change (o_id model) with (objId (nextId st)).
      rewrite Hb, lookup_insert_eq, pose_fixed. reflexivity.
    + unfold ids. rewrite map_map. apply map_ext.
      intros o. destruct (bodyMap X !! o_id o); reflexivity.
  - split; [exact Hb |]. split; [reflexivity |]. split; [reflexivity |].
    split; [reflexivity |]. split; [reflexivity |]. split; [reflexivity |].
    split.
    + change (history (handleSelection ?i ?a ?s)) with (history s).
      change (model_of (handleSelection ?i ?a ?s)) with (model_of s).
      exact (proj1 (commitHistory_history X)).
    + change (w_bodies (world (handleSelection (o_id model) false (commitHistory X))))
        with ({[b_handle (body_of model (w_next (world st)))]} ∪ w_bodies (world st)).
      rewrite body_of_handle. reflexivity.
Qed.

Lemma drawn_cases (tool : string) (start end_ : Vec) (sides : Z) :
  tool ∈ DRAW_TOOLS ->
  let shape := drawnShape tool start end_ sides in
  let bodyType := drawnBodyType tool in
  (tool = "circle"%string /\ bodyType = dynamic /\
   exists r, shape = circle r /\ (16 <= r)%R) \/
  (tool = "rectangle"%string /\ bodyType = dynamic /\
   exists w h, shape = rectangle w h /\ (32 <= w)%R /\ (32 <= h)%R) \/
  (tool = "polygon"%string /\ bodyType = dynamic /\
   exists r, shape = polygon sides r /\ (16 <= r)%R) \/
  (tool = "wall"%string /\ bodyType = static /\
   exists w h, shape = rectangle w h /\ (32 <= w)%R /\ (32 <= h)%R) \/
  (tool = "sensor"%string /\ bodyType = sensor /\
   exists r, shape = circle r /\ (16 <= r)%R).
Proof.
  intros Hin shape bodyType. unfold DRAW_TOOLS in Hin.
  assert (Hr : forall a : R, (16 <= Rmax a (32 / 2))%R)
    by (intros a; pose proof (Rmax_r a (32 / 2)); lra).
  assert (Hs : forall a : R, (32 <= Rmax a 32)%R) by (intros a; apply Rmax_r).
  repeat (apply elem_of_cons in Hin as [-> | Hin]).
  - left. repeat split. eexists. split; [reflexivity | apply Hr].
  - right; left. repeat split. eexists _, _.
    split; [reflexivity | split; apply Hs].
  - right; right; left. repeat split. eexists. split; [reflexivity | apply Hr].
  - right; right; right; left. repeat split. eexists _, _.
    split; [reflexivity | split; apply Hs].
  - right; right; right; right. repeat split. eexists. split; [reflexivity | apply Hr].
  - inversion Hin.
Qed.

(** X11. Releasing the pointer ends a drag.  With no drag in progress or
    a tool that does not draw, nothing changes.  Otherwise exactly one
    object is appended, under the id [obj-<nextId>], centred on the
    midpoint of the drag, unrotated and unlocked with the default
    material; the tool fixes its kind (wall: static rectangle, sensor:
    sensor circle, others dynamic) and no shape is smaller than the
    minimum (radius 16, sides 32); its body is at rest, it becomes the
    selection, and one history entry is added. *)
Theorem handleCanvasUp_places_shape
    (isDrawing : bool) (tool : string) (dragStart end_ : Vec) (sides : Z)
    (st : Playground) :
  let st' := handleCanvasUp isDrawing tool dragStart end_ sides st in
  (isDrawing = false \/ tool ∉ DRAW_TOOLS -> st' = st) /\
  (isDrawing = true -> tool ∈ DRAW_TOOLS ->
   exists older model,
     objects st' = older ++ [model] /\ ids older = ids (objects st) /\
     o_id model = objId (nextId st) /\
     o_position model
     = mkVec ((vx dragStart + vx end_) / 2) ((vy dragStart + vy end_) / 2) /\
     o_angle model = 0%R /\ o_locked model = false /\
     o_physics model = DEFAULT_PHYSICS /\ o_visual model = DEFAULT_VISUAL /\
     ((tool = "circle"%string /\ o_bodyType model = dynamic /\
       exists r, o_shape model = circle r /\ (16 <= r)%R) \/
      (tool = "rectangle"%string /\ o_bodyType model = dynamic /\
       exists w h, o_shape model = rectangle w h /\ (32 <= w)%R /\ (32 <= h)%R) \/
      (tool = "polygon"%string /\ o_bodyType model = dynamic /\
       exists r, o_shape model = polygon sides r /\ (16 <= r)%R) \/
      (tool = "wall"%string /\ o_bodyType model = static /\
       exists w h, o_shape model = rectangle w h /\ (32 <= w)%R /\ (32 <= h)%R) \/
      (tool = "sensor"%string /\ o_bodyType model = sensor /\
       exists r, o_shape model = circle r /\ (16 <= r)%R)) /\
     selectedIds st' = [objId (nextId st)] /\
     nextId st' = nextId st + 1 /\ links st' = links st /\
     bodyMap st' !! objId (nextId st)
     = Some (mkBody (w_next (world st)) (geometry_of (o_shape model)) (opts_of model)
                    (o_position model) (mkVec 0 0) 0 0
                    (mkPlugin (objId (nextId st)) false)) /\
     history st'
     = JS.slice0 (historyIndex st + 1) (history st) ++ [model_of st']).
Proof.
  intros st'. split.
  - intros Hidle. unfold st', handleCanvasUp.
    destruct Hidle as [-> | Hout]; [reflexivity |].
    rewrite (bool_decide_eq_false_2 _ Hout). rewrite orb_true_r. reflexivity.
  - intros -> Hin. unfold st', handleCanvasUp.
    rewrite (bool_decide_eq_true_2 _ Hin). cbn [negb orb].
    set (center := mkVec ((vx dragStart + vx end_) / 2) ((vy dragStart + vy end_) / 2)).
    pose proof (drawn_cases tool dragStart end_ sides Hin) as Hcases.
    cbv zeta in Hcases.
    destruct (placeModel_facts center (drawnShape tool dragStart end_ sides)
                (drawnBodyType tool) st)
      as ((older & Ho & Hids) & Hsel & Hb & _ & Hn & _ & Hl & _ & Hh & _).
    eexists older, _. split; [exact Ho |]. split; [exact Hids |].
    split; [reflexivity |]. split; [reflexivity |]. split; [reflexivity |].
    split; [reflexivity |]. split; [reflexivity |]. split; [reflexivity |].
    split; [exact Hcases |]. split; [exact Hsel |]. split; [exact Hn |].
    split; [exact Hl |]. split; [| exact Hh].
    rewrite Hb, lookup_insert_eq, body_of_eq. reflexivity.
Qed.

Lemma handleCanvasUp_places_shape_witness :
  let st' := handleCanvasUp true "wall" (mkVec 10 10) (mkVec 110 14) 5 two_objects in
  "wall"%string ∈ DRAW_TOOLS /\
  selectedIds st' = ["obj-3"%string] /\ nextId st' = 4.
Proof.
  intros st'.
  assert (Hin : "wall"%string ∈ DRAW_TOOLS) by (unfold DRAW_TOOLS; set_solver).
  split; [exact Hin |].
  destruct (proj2 (handleCanvasUp_places_shape true "wall" (mkVec 10 10) (mkVec 110 14)
                     5 two_objects) eq_refl Hin)
    as (older & model & _ & _ & _ & _ & _ & _ & _ & _ & _ & Hsel & Hn & _).
  split; [exact Hsel | exact Hn].
Defined.

Lemma createLink_facts (aId bId : string) (bodyA bodyB : Body) (st : Playground) :
  bodyMap st !! aId = Some bodyA -> bodyMap st !! bId = Some bodyB ->
  let options :=
    mkOptions 0.04 0.02
      (Rmin 220 (Matter.hypot (vx (b_position bodyB) - vx (b_position bodyA))
                              (vy (b_position bodyB) - vy (b_position bodyA)))) in
  let st' := createLink aId bId st in
  links st' = links st ++ [mkLink (linkId (nextLinkId st)) aId bId options] /\
  linkMap st'
  = <[linkId (nextLinkId st) :=
        mkConstraint (w_next (world st)) (b_handle bodyA) (b_handle bodyB) options]>
      (linkMap st) /\
  nextLinkId st' = nextLinkId st + 1 /\ nextId st' = nextId st /\
  objects st' = objects st /\ bodyMap st' = bodyMap st /\
  history st' = history st /\ historyIndex st' = historyIndex st /\
  w_bodies (world st') = w_bodies (world st) /\
  w_constraints (world st') = {[w_next (world st)]} ∪ w_constraints (world st).
Proof.
  intros Ha Hb. unfold createLink. rewrite Ha, Hb. repeat split.
Qed.

Lemma handleConstraintPoint_first (body : Body) (st : Playground) :
  constraintAnchor st = None -> modelId (b_plugin body) <> ""%string ->
  handleConstraintPoint (Some body) st
  = showHint "Choose another object to connect" (set_constraintAnchor (Some body) st).
Proof.
  intros Hanchor Hid. unfold handleConstraintPoint.
  apply String.eqb_neq in Hid. rewrite Hid, Hanchor. reflexivity.
Qed.

Lemma handleConstraintPoint_second (anchor body : Body) (st : Playground) :
  constraintAnchor st = Some anchor -> modelId (b_plugin body) <> ""%string ->
  modelId (b_plugin anchor) <> modelId (b_plugin body) ->
  handleConstraintPoint (Some body) st
  = showHint "Constraint added • drag to feel the spring"
      (commitHistory
         (set_constraintAnchor None
            (createLink (modelId (b_plugin anchor)) (modelId (b_plugin body)) st))).
Proof.
  intros Hanchor Hid Hne. unfold handleConstraintPoint.
  apply String.eqb_neq in Hid, Hne. rewrite Hid, Hanchor, Hne. reflexivity.
Qed.

Lemma first_click_frame (body : Body) (st : Playground) :
  let s := showHint "Choose another object to connect"
             (set_constraintAnchor (Some body) st) in
  constraintAnchor s = Some body /\
  bodyMap s = bodyMap st /\ links s = links st /\ linkMap s = linkMap st /\
  nextLinkId s = nextLinkId st /\ nextId s = nextId st /\
  objects s = objects st /\ history s = history st /\
  historyIndex s = historyIndex st /\ world s = world st.
Proof. repeat split. Qed.

Lemma second_click_frame (text : string) (s : Playground) :
  let r := showHint text (commitHistory (set_constraintAnchor None s)) in
  links r = links s /\ linkMap r = linkMap s /\
  nextLinkId r = nextLinkId s /\ nextId r = nextId s /\
  ids (objects r) = ids (objects s) /\ bodyMap r = bodyMap s /\
  constraintAnchor r = None /\
  history r = JS.slice0 (historyIndex s + 1) (history s) ++ [model_of r] /\
  hint r = text.
Proof.
  intros r. split; [exact (proj2 (proj2 (commitHistory_counters _))) |].
  split; [reflexivity |]. split; [reflexivity |]. split; [reflexivity |].
  split; [exact (syncModelTransforms_ids (set_constraintAnchor None s)) |].
  split; [reflexivity |]. split; [reflexivity |]. split; [| reflexivity].
  exact (proj1 (commitHistory_history (set_constraintAnchor None s))).
Qed.

Lemma connect_gesture (first second bodyA bodyB : Body) (st : Playground) :
  constraintAnchor st = None ->
  modelId (b_plugin first) <> ""%string -> modelId (b_plugin second) <> ""%string ->
  modelId (b_plugin first) <> modelId (b_plugin second) ->
  bodyMap st !! modelId (b_plugin first) = Some bodyA ->
  bodyMap st !! modelId (b_plugin second) = Some bodyB ->
  let options :=
    mkOptions 0.04 0.02
      (Rmin 220 (Matter.hypot (vx (b_position bodyB) - vx (b_position bodyA))
                              (vy (b_position bodyB) - vy (b_position bodyA)))) in
  let st' := handleConstraintPoint (Some second)
               (handleConstraintPoint (Some first) st) in
  links st'
  = links st ++ [mkLink (linkId (nextLinkId st)) (modelId (b_plugin first))
                        (modelId (b_plugin second)) options] /\
  linkMap st'
  = <[linkId (nextLinkId st) :=
        mkConstraint (w_next (world st)) (b_handle bodyA) (b_handle bodyB) options]>
      (linkMap st) /\
  nextLinkId st' = nextLinkId st + 1 /\ nextId st' = nextId st /\
  ids (objects st') = ids (objects st) /\ bodyMap st' = bodyMap st /\
  constraintAnchor st' = None /\
  history st' = JS.slice0 (historyIndex st + 1) (history st) ++ [model_of st'] /\
  hint st' = "Constraint added • drag to feel the spring"%string.
Proof.
  intros Hanchor Hfirst Hsecond Hne Ha Hb options st'.
  unfold st'. rewrite (handleConstraintPoint_first _ _ Hanchor Hfirst).
  destruct (first_click_frame first st)
    as (Hanchor1 & Hb1 & Hl1 & Hm1 & Hk1 & Hn1 & Ho1 & Hh1 & Hi1 & Hw1).
  remember (showHint "Choose another object to connect"
              (set_constraintAnchor (Some first) st)) as s1 eqn:Es1.
  clear Es1.
  rewrite (handleConstraintPoint_second first second s1 Hanchor1 Hsecond Hne).
  rewrite <- Hb1 in Ha, Hb.
  destruct (createLink_facts _ _ bodyA bodyB s1 Ha Hb)
    as (Hl & Hm & Hk & Hn & Ho & Hbm & Hh & Hi & _).
  fold options in Hl, Hm.
  remember (createLink (modelId (b_plugin first)) (modelId (b_plugin second)) s1)
    as s2 eqn:Es2.
  clear Es2.
  destruct (second_click_frame "Constraint added • drag to feel the spring" s2)
    as (Gl & Gm & Gk & Gn & Go & Gb & Ga & Gh & Gt).
  rewrite Gl, Gm, Gk, Gn, Go, Gb, Ga, Gh, Gt.
  rewrite Hl, Hm, Hk, Hn, Ho, Hbm, Hh, Hi.
  rewrite Hl1, Hm1, Hk1, Hn1, Ho1, Hb1, Hh1, Hi1, Hw1.
  repeat split.
Qed.

(** X12. The constraint tool takes two clicks.  A click on a first body
    and then on a different body, both registered, adds exactly one
    link between them under the id [link-<nextLinkId>], with its
    constraint tied to the two registered bodies; the link counter
    advances by one, the anchor is cleared, the objects and bodies are
    untouched, and one history entry is committed. *)
Theorem connect_gesture_adds_one_link
    (first second bodyA bodyB : Body) (st : Playground) :
  constraintAnchor st = None ->
  modelId (b_plugin first) <> ""%string -> modelId (b_plugin second) <> ""%string ->
  modelId (b_plugin first) <> modelId (b_plugin second) ->
  bodyMap st !! modelId (b_plugin first) = Some bodyA ->
  bodyMap st !! modelId (b_plugin second) = Some bodyB ->
  let options :=
    mkOptions 0.04 0.02
      (Rmin 220 (Matter.hypot (vx (b_position bodyB) - vx (b_position bodyA))
                              (vy (b_position bodyB) - vy (b_position bodyA)))) in
  let st' := handleConstraintPoint (Some second)
               (handleConstraintPoint (Some first) st) in
  links st'
  = links st ++ [mkLink (linkId (nextLinkId st)) (modelId (b_plugin first))
                        (modelId (b_plugin second)) options] /\
  linkMap st'
  = <[linkId (nextLinkId st) :=
        mkConstraint (w_next (world st)) (b_handle bodyA) (b_handle bodyB) options]>
      (linkMap st) /\
  nextLinkId st' = nextLinkId st + 1 /\ nextId st' = nextId st /\
  ids (objects st') = ids (objects st) /\ bodyMap st' = bodyMap st /\
  constraintAnchor st' = None /\
  history st' = JS.slice0 (historyIndex st + 1) (history st) ++ [model_of st'] /\
  hint st' = "Constraint added • drag to feel the spring"%string.
Proof.
  intros Hanchor Hfirst Hsecond Hne Ha Hb.
  exact (connect_gesture first second bodyA bodyB st Hanchor Hfirst Hsecond Hne Ha Hb).
Qed.

Lemma connect_gesture_adds_one_link_witness :
  let first := demo_body 9%positive "obj-1" 100 100 in
  let second := demo_body 10%positive "obj-2" 400 100 in
  let st' := handleConstraintPoint (Some second)
               (handleConstraintPoint (Some first) two_objects) in
  constraintAnchor two_objects = None /\
  bodyMap two_objects !! "obj-1" = Some first /\
  bodyMap two_objects !! "obj-2" = Some second /\
  nextLinkId st' = 2 /\ constraintAnchor st' = None.
Proof.
  intros first second st'.
  assert (Ha : bodyMap two_objects !! modelId (b_plugin first) = Some first)
    by reflexivity.
  assert (Hb : bodyMap two_objects !! modelId (b_plugin second) = Some second)
    by reflexivity.
  split; [reflexivity |]. split; [exact Ha |]. split; [exact Hb |].
  assert (H1 : modelId (b_plugin first) <> ""%string) by discriminate.
  assert (H2 : modelId (b_plugin second) <> ""%string) by discriminate.
  assert (H3 : modelId (b_plugin first) <> modelId (b_plugin second)) by discriminate.
  destruct (connect_gesture_adds_one_link first second first second two_objects
              eq_refl H1 H2 H3 Ha Hb)
    as (_ & _ & Hk & _ & _ & _ & Hanchor & _).
  split; [exact Hk | exact Hanchor].
Defined.

Lemma startup_facts :
  nextId startup = 1 /\ nextLinkId startup = 1 /\ constraintAnchor startup = None /\
  links startup = [] /\ objects startup = [] /\ bodyMap startup = ∅ /\
  selectedIds startup = [].
Proof. repeat split. Qed.

Lemma drawn_pair_facts :
  constraintAnchor drawn_pair = None /\ nextLinkId drawn_pair = 1 /\
  links drawn_pair = [] /\
  (exists b, bodyMap drawn_pair !! "obj-1" = Some b) /\
  (exists b, bodyMap drawn_pair !! "obj-2" = Some b).
Proof.
  destruct startup_facts as (Hn0 & Hk0 & Ha0 & Hl0 & _).
  unfold drawn_pair, perform.
  destruct (placeModel_facts (mkVec 100 100) (circle 20) dynamic startup)
    as (_ & _ & Hb1 & _ & Hn1 & Hk1 & Hl1 & Ha1 & _).
  remember (placeModel (mkVec 100 100) (circle 20) dynamic startup) as p1 eqn:Ep1.
  clear Ep1.
  destruct (placeModel_facts (mkVec 400 100) (circle 20) dynamic p1)
    as (_ & _ & Hb2 & _ & _ & Hk2 & Hl2 & Ha2 & _).
  rewrite Ha2, Ha1, Hk2, Hk1, Hl2, Hl1, Hb2, Hb1, Hn1, Hn0.
  split; [exact Ha0 |]. split; [exact Hk0 |]. split; [exact Hl0 |].
  change (objId (1 + 1)) with "obj-2"%string.
  change (objId 1) with "obj-1"%string.
  split; eexists.
  - rewrite lookup_insert_ne by discriminate. apply lookup_insert_eq.
  - apply lookup_insert_eq.
Qed.

(** ** Which actions leave the motion of the bodies alone *)









Lemma handleSelection_bodyMap (id : string) (additive : bool) (st : Playground) :
  bodyMap (handleSelection id additive st) = bodyMap st.
Proof.
  unfold handleSelection. destruct additive; [| reflexivity].
  destruct (bool_decide _); reflexivity.
Qed.

Lemma createLink_bodyMap (aId bId : string) (st : Playground) :
  bodyMap (createLink aId bId st) = bodyMap st.
Proof.
  unfold createLink.
  destruct (bodyMap st !! aId); [| reflexivity].
  destruct (bodyMap st !! bId); reflexivity.
Qed.

Lemma handleConstraintPoint_bodyMap (body : option Body) (st : Playground) :
  bodyMap (handleConstraintPoint body st) = bodyMap st.
Proof.
  unfold handleConstraintPoint.
  destruct body as [body |]; [| reflexivity].
  destruct (String.eqb _ ""); [reflexivity |].
  destruct (constraintAnchor st) as [anchor |]; [| reflexivity].
  destruct (String.eqb _ _); [reflexivity |].
  change (bodyMap (showHint ?t (commitHistory (set_constraintAnchor None ?s))))
    with (bodyMap s).
  apply createLink_bodyMap.
Qed.







(** ** The model records where the bodies are *)

Lemma sync_map_synced (m : gmap string Body) (objs : list SceneObject)
    (o : SceneObject) (b : Body) :
  o ∈ map (fun model =>
             match m !! o_id model with
             | None => model
             | Some body =>
                 set_o_angle (b_angle body)
                   (set_o_position (mkVec (vx (b_position body)) (vy (b_position body)))
                      model)
             end) objs ->
  m !! o_id o = Some b ->
  o_position o = b_position b /\ o_angle o = b_angle b.
Proof.
  intros Hin Hb. apply list_elem_of_fmap in Hin as (model & -> & _).
  destruct (m !! o_id model) as [body |] eqn:Hlook.
  - simpl in Hb. rewrite Hlook in Hb. injection Hb as <-.
    simpl. destruct (b_position body). split; reflexivity.
  - rewrite Hlook in Hb. discriminate Hb.
Qed.

Lemma commitHistory_synced (st : Playground) : synced (commitHistory st).
Proof.
  intros o b Hin Hb. rewrite commitHistory_objects in Hin.
  exact (sync_map_synced (bodyMap st) (objects st) o b Hin Hb).
Qed.

Lemma synced_frame (st st' : Playground) :
  objects st' = objects st -> bodyMap st' = bodyMap st -> synced st -> synced st'.
Proof.
  intros Ho Hb Hs o b Hin Hlook. rewrite Ho in Hin. rewrite Hb in Hlook.
  exact (Hs o b Hin Hlook).
Qed.

Lemma handleSelection_objects (id : string) (additive : bool) (st : Playground) :
  objects (handleSelection id additive st) = objects st.
Proof.
  unfold handleSelection. destruct additive; [| reflexivity].
  destruct (bool_decide _); reflexivity.
Qed.

Lemma handleSelection_synced (id : string) (additive : bool) (st : Playground) :
  synced st -> synced (handleSelection id additive st).
Proof.
  apply synced_frame; [apply handleSelection_objects | apply handleSelection_bodyMap].
Qed.

Lemma showHint_synced (text : string) (st : Playground) :
  synced st -> synced (showHint text st).
Proof. apply synced_frame; reflexivity. Qed.

Lemma applySnapshot_synced (s : Snapshot) (st : Playground) :
  NoDup (ids (s_objects s)) -> synced (applySnapshot s st).
Proof.
  intros Hnd o b Hin Hb. rewrite applySnapshot_objects in Hin.
  pose proof (applySnapshot_bodies s st (o_id o)) as Hbod.
  rewrite (last_with_id_unique o _ Hnd Hin) in Hbod.
  destruct Hbod as [h Hbod]. rewrite Hbod in Hb. injection Hb as <-.
  rewrite body_of_eq. split; reflexivity.
Qed.

Lemma undo_synced (st : Playground) : strong st -> synced st -> synced (undo st).
Proof.
  intros Hst Hs. unfold undo. destruct (Z.leb (historyIndex st) 0); [exact Hs |].
  simpl. destruct (js_index (history st) (historyIndex st - 1)) as [s |] eqn:Hlook.
  - destruct (history_entry_ok _ _ _ Hst Hlook) as [_ [Hnd _]].
    apply applySnapshot_synced, Hnd.
  - exact (synced_frame st _ eq_refl eq_refl Hs).
Qed.

Lemma redo_synced (st : Playground) : strong st -> synced st -> synced (redo st).
Proof.
  intros Hst Hs. unfold redo.
  destruct (Z.leb (Z.of_nat (length (history st)) - 1) (historyIndex st));
    [exact Hs |].
  simpl. destruct (js_index (history st) (historyIndex st + 1)) as [s |] eqn:Hlook.
  - destruct (history_entry_ok _ _ _ Hst Hlook) as [_ [Hnd _]].
    apply applySnapshot_synced, Hnd.
  - exact (synced_frame st _ eq_refl eq_refl Hs).
Qed.

Lemma tick_synced (step : Body -> Kinematics) (st : Playground) :
  synced (tick step st).
Proof.
  intros o b Hin Hb. unfold tick, syncModelTransforms in Hin, Hb. simpl in Hin, Hb.
  exact (sync_map_synced _ _ o b Hin Hb).
Qed.

Lemma handleConstraintPoint_synced (body : option Body) (st : Playground) :
  synced st -> synced (handleConstraintPoint body st).
Proof.
  intros Hs. unfold handleConstraintPoint.
  destruct body as [body |]; [| exact Hs].
  destruct (String.eqb _ ""); [exact Hs |].
  destruct (constraintAnchor st) as [anchor |].
  - destruct (String.eqb _ _).
    + exact (synced_frame st _ eq_refl eq_refl Hs).
    + apply showHint_synced, commitHistory_synced.
  - exact (synced_frame st _ eq_refl eq_refl Hs).
Qed.

Lemma perform_synced (a : Action) (st : Playground) :
  strong st -> synced st -> synced (perform a st).
Proof.
  intros Hst Hs. destruct a; simpl perform.
  - unfold placeModel, createModel. apply handleSelection_synced, commitHistory_synced.
  - exact (synced_frame st _ eq_refl eq_refl Hs).
  - apply handleSelection_synced, Hs.
  - exact (synced_frame st _ eq_refl eq_refl Hs).
  - unfold updatePhysics. destruct (selectedIds st);
      [exact Hs | apply commitHistory_synced].
  - unfold updateVisual. destruct (selectedIds st);
      [exact Hs | apply commitHistory_synced].
  - unfold updateSelection. destruct (selectedIds st);
      [exact Hs | apply commitHistory_synced].
  - unfold changeShape. destruct (selectedIds st);
      [exact Hs | apply commitHistory_synced].
  - unfold changePolygonSides. destruct (selectedIds st);
      [exact Hs | apply commitHistory_synced].
  - apply commitHistory_synced.
  - apply handleConstraintPoint_synced, Hs.
  - unfold duplicateSelection. destruct (selectedIds st) as [| i0 sel0]; [exact Hs |].
    match goal with |- context [foldl ?f ?a ?l] => destruct (foldl f a l) as [s1 newIds] end.
    destruct newIds as [| first rest]; [apply commitHistory_synced |].
    apply handleSelection_synced, commitHistory_synced.
  - unfold deleteSelection. destruct (selectedIds st);
      [exact Hs | apply commitHistory_synced].
  - unfold resetWorld. apply showHint_synced, commitHistory_synced.
  - apply undo_synced; assumption.
  - apply redo_synced; assumption.
  - exact (synced_frame st _ eq_refl eq_refl Hs).
  - apply tick_synced.
Qed.

Lemma reachable_synced (st : Playground) : Reachable st -> synced st.
Proof.
  induction 1 as [| a st Hreach IH].
  - unfold startup, constructor. apply showHint_synced, commitHistory_synced.
  - apply perform_synced; [apply reachable_strong, Hreach | exact IH].
Qed.

Lemma labelled_frame (st st' : Playground) :
  bodyMap st' = bodyMap st -> labelled st -> labelled st'.
Proof. intros Hb Hl id b Hlook. rewrite Hb in Hlook. exact (Hl id b Hlook). Qed.

Lemma labelled_insert (st st' : Playground) (id : string) (body : Body) :
  modelId (b_plugin body) = id ->
  bodyMap st' = <[id := body]> (bodyMap st) ->
  labelled st -> labelled st'.
Proof.
  intros Hid Hb Hl i b Hlook. rewrite Hb in Hlook.
  destruct (decide (id = i)) as [<- | Hne].
  - rewrite lookup_insert_eq in Hlook. injection Hlook as <-. exact Hid.
  - rewrite lookup_insert_ne in Hlook by exact Hne. exact (Hl i b Hlook).
Qed.

Lemma body_of_label (model : SceneObject) (h : Handle) :
  modelId (b_plugin (body_of model h)) = o_id model.
Proof. rewrite body_of_eq. reflexivity. Qed.

Lemma rebuildBody_labelled (model : SceneObject) (st : Playground) :
  labelled st -> labelled (rebuildBody model st).
Proof.
  intros Hl. destruct (bodyMap st !! o_id model) as [existing |] eqn:Hlive;
    [| unfold rebuildBody; rewrite Hlive; exact Hl].
  refine (labelled_insert st _ _ _ _ (rebuildBody_bodyMap _ _ _ Hlive) Hl).
  simpl. apply body_of_label.
Qed.

Lemma edit_step_labelled (model : SceneObject) (objs : list SceneObject)
    (st : Playground) :
  labelled st -> labelled (rebuildBody model (set_objects objs st)).
Proof.
  intros Hl. apply rebuildBody_labelled.
  exact (labelled_frame st _ eq_refl Hl).
Qed.

Lemma applySnapshot_labelled (s : Snapshot) (st : Playground) :
  labelled (applySnapshot s st).
Proof.
  intros id b Hb. pose proof (applySnapshot_bodies s st id) as Hbod.
  destruct (last_with_id id (s_objects s)) as [o |] eqn:Hlast.
  - destruct Hbod as [h Hbod]. rewrite Hbod in Hb. injection Hb as <-.
    rewrite body_of_label. exact (last_with_id_id _ _ _ Hlast).
  - rewrite Hbod in Hb. discriminate Hb.
Qed.

Lemma commitHistory_labelled (st : Playground) :
  labelled st -> labelled (commitHistory st).
Proof. exact (labelled_frame st _ eq_refl). Qed.

Lemma showHint_labelled (text : string) (st : Playground) :
  labelled st -> labelled (showHint text st).
Proof. exact (labelled_frame st _ eq_refl). Qed.

Lemma addBounds_labelled (st : Playground) : labelled st -> labelled (addBounds st).
Proof. exact (labelled_frame st _ eq_refl). Qed.

Lemma clearSelection_labelled (st : Playground) :
  labelled st -> labelled (clearSelection st).
Proof. exact (labelled_frame st _ eq_refl). Qed.

Lemma set_objects_labelled (objs : list SceneObject) (st : Playground) :
  labelled st -> labelled (set_objects objs st).
Proof. exact (labelled_frame st _ eq_refl). Qed.

Lemma set_constraintAnchor_labelled (a : option Body) (st : Playground) :
  labelled st -> labelled (set_constraintAnchor a st).
Proof. exact (labelled_frame st _ eq_refl). Qed.

Lemma handleSelection_labelled (id : string) (additive : bool) (st : Playground) :
  labelled st -> labelled (handleSelection id additive st).
Proof. exact (labelled_frame st _ (handleSelection_bodyMap _ _ _)). Qed.

Lemma empty_labelled (st : Playground) : bodyMap st = ∅ -> labelled st.
Proof. intros He i b Hb. rewrite He, lookup_empty in Hb. discriminate Hb. Qed.

Lemma edit_and_rebuild_labelled (f : SceneObject -> SceneObject) (st : Playground) :
  labelled st -> labelled (edit_and_rebuild f st).
Proof.
  intros Hl. unfold edit_and_rebuild.
  apply (foldl_preserves labelled); [| exact Hl].
  intros s id Hs. destruct (find_object id (objects s)); [| exact Hs].
  apply edit_step_labelled, Hs.
Qed.

Lemma toggleLock_labelled (lock : bool) (st : Playground) :
  labelled st -> labelled (toggleLock lock st).
Proof.
  intros Hl. unfold toggleLock. apply commitHistory_labelled.
  apply (foldl_preserves labelled); [| exact Hl].
  intros s id Hs. destruct (find_object id (objects s)); [| exact Hs].
  intros i b Hb. simpl in Hb.
  destruct (decide (id = i)) as [-> | Hne].
  - rewrite lookup_alter_eq in Hb.
    destruct (bodyMap s !! i) as [b0 |] eqn:Hlook; [| discriminate Hb].
    simpl in Hb. injection Hb as <-. simpl. exact (Hs i b0 Hlook).
  - rewrite lookup_alter_ne in Hb by exact Hne. exact (Hs i b Hb).
Qed.

Lemma duplicateSelection_labelled (st : Playground) :
  labelled st -> labelled (duplicateSelection st).
Proof.
  intros Hl. unfold duplicateSelection.
  destruct (selectedIds st) as [| i0 sel0]; [exact Hl |].
  match goal with |- context [foldl ?f ?a ?l] =>
    assert (Hloop : labelled (fst (foldl f a l)))
  end.
  { apply (foldl_preserves (fun p : Playground * list string => labelled (fst p)));
      [| exact Hl].
    intros [s newIds] id Hs. simpl in Hs.
    destruct (find_object id (objects s)) as [model |]; [| exact Hs].
    unfold buildBody. simpl.
    eapply (labelled_insert s _ (objId (nextId s)));
      [| simpl; reflexivity | exact Hs].
    apply body_of_label. }
  match goal with |- context [foldl ?f ?a ?l] => destruct (foldl f a l) as [s1 newIds] end.
  simpl in Hloop.
  destruct newIds as [| first rest]; [apply commitHistory_labelled, Hloop |].
  apply handleSelection_labelled, commitHistory_labelled, Hloop.
Qed.

Lemma deleteSelection_labelled (st : Playground) :
  labelled st -> labelled (deleteSelection st).
Proof.
  intros Hl. unfold deleteSelection.
  destruct (selectedIds st) as [| i0 sel0]; [exact Hl |].
  apply commitHistory_labelled, clearSelection_labelled.
  apply (foldl_preserves labelled); [| exact Hl].
  intros s X Hs i b Hb.
  destruct (deleteSelection_each_facts s X) as (_ & _ & _ & _ & _ & Hbm).
  rewrite Hbm in Hb.
  destruct (decide (X = i)) as [-> | Hne].
  - rewrite lookup_delete_eq in Hb. discriminate Hb.
  - rewrite lookup_delete_ne in Hb by exact Hne. exact (Hs i b Hb).
Qed.

Lemma tick_labelled (step : Body -> Kinematics) (st : Playground) :
  labelled st -> labelled (tick step st).
Proof.
  intros Hl i b Hb.
  assert (Hb' : ((fun b => set_kinematics (step b) b) <$> bodyMap st) !! i = Some b)
    by exact Hb.
  rewrite lookup_fmap in Hb'.
  destruct (bodyMap st !! i) as [b0 |] eqn:Hlook; [| discriminate Hb'].
  simpl in Hb'. injection Hb' as <-. simpl. exact (Hl i b0 Hlook).
Qed.

Lemma perform_labelled (a : Action) (st : Playground) :
  labelled st -> labelled (perform a st).
Proof.
  intros Hl. destruct a; simpl perform.
  - destruct (placeModel_facts center shape bodyType st) as (_ & _ & Hb & _).
    refine (labelled_insert st _ _ _ _ Hb Hl). apply body_of_label.
  - apply showHint_labelled, set_constraintAnchor_labelled, Hl.
  - apply handleSelection_labelled, Hl.
  - apply clearSelection_labelled, Hl.
  - unfold updatePhysics. destruct (selectedIds st) as [| i0 sel0]; [exact Hl |].
    apply commitHistory_labelled, edit_and_rebuild_labelled, Hl.
  - unfold updateVisual. destruct (selectedIds st) as [| i0 sel0]; [exact Hl |].
    apply commitHistory_labelled.
    apply (foldl_preserves labelled); [| exact Hl].
    intros s id Hs. destruct (find_object id (objects s)); [| exact Hs].
    apply set_objects_labelled, Hs.
  - unfold updateSelection. destruct (selectedIds st) as [| i0 sel0]; [exact Hl |].
    apply commitHistory_labelled, edit_and_rebuild_labelled, Hl.
  - unfold changeShape. destruct (selectedIds st) as [| i0 sel0]; [exact Hl |].
    apply commitHistory_labelled.
    apply (foldl_preserves labelled); [| exact Hl].
    intros s id Hs. destruct (find_object id (objects s)); [| exact Hs].
    destruct (bodyMap s !! id); [| exact Hs].
    apply edit_step_labelled, Hs.
  - unfold changePolygonSides. destruct (selectedIds st) as [| i0 sel0]; [exact Hl |].
    apply commitHistory_labelled.
    apply (foldl_preserves labelled); [| exact Hl].
    intros s id Hs. destruct (find_object id (objects s)) as [model |]; [| exact Hs].
    destruct (o_shape model); try exact Hs.
    apply edit_step_labelled, Hs.
  - apply toggleLock_labelled, Hl.
  - exact (labelled_frame st _ (handleConstraintPoint_bodyMap _ _) Hl).
  - apply duplicateSelection_labelled, Hl.
  - apply deleteSelection_labelled, Hl.
  - unfold resetWorld.
    apply showHint_labelled, commitHistory_labelled, addBounds_labelled.
    apply empty_labelled. reflexivity.
  - unfold undo. destruct (Z.leb (historyIndex st) 0); [exact Hl |].
    simpl. destruct (js_index (history st) (historyIndex st - 1));
      [apply applySnapshot_labelled | exact (labelled_frame st _ eq_refl Hl)].
  - unfold redo.
    destruct (Z.leb (Z.of_nat (length (history st)) - 1) (historyIndex st));
      [exact Hl |].
    simpl. destruct (js_index (history st) (historyIndex st + 1));
      [apply applySnapshot_labelled | exact (labelled_frame st _ eq_refl Hl)].
  - apply addBounds_labelled, Hl.
  - apply tick_labelled, Hl.
Qed.

Lemma reachable_labelled (st : Playground) : Reachable st -> labelled st.
Proof.
  induction 1 as [| a st Hreach IH]; [| apply perform_labelled, IH].
  unfold startup, constructor.
  apply showHint_labelled, commitHistory_labelled, addBounds_labelled,
    addBounds_labelled.
  apply empty_labelled. reflexivity.
Qed.

Lemma tick_ids (step : Body -> Kinematics) (st : Playground) :
  ids (objects (tick step st)) = ids (objects st).
Proof.
  unfold tick, ids. rewrite syncModelTransforms_ids. reflexivity.
Qed.

Lemma perform_Tick (step : Body -> Kinematics) (st : Playground) :
  perform (Tick step) st = tick step st.
Proof. reflexivity. Qed.

Lemma perform_PlaceModel (center : Vec) (shape : Shape) (bodyType : BodyType)
    (st : Playground) :
  perform (PlaceModel center shape bodyType) st = placeModel center shape bodyType st.
Proof. reflexivity. Qed.

Lemma last_id_has_object (id : string) (model : SceneObject)
    (objs older : list SceneObject) :
  o_id model = id -> ids objs = ids (older ++ [model]) -> exists o, o ∈ objs.
Proof.
  intros Hm Hids.
  assert (Hid : id ∈ ids objs).
  { rewrite Hids. unfold ids. rewrite map_app. apply elem_of_app. right.
    rewrite <- Hm. left. }
  apply list_elem_of_fmap in Hid as (o & _ & Hin). exists o. exact Hin.
Qed.

Lemma placed_object_survives_tick (step : Body -> Kinematics)
    (center : Vec) (shape : Shape) (bodyType : BodyType) (st : Playground) :
  exists o, o ∈ objects (perform (Tick step) (perform (PlaceModel center shape bodyType) st)).
Proof.
  rewrite perform_Tick, perform_PlaceModel.
  destruct (placeModel_facts center shape bodyType st) as ((older & Ho & _) & _).
  pose proof (eq_trans (tick_ids step (placeModel center shape bodyType st))
                (f_equal ids Ho)) as Hids.
  refine (last_id_has_object (objId (nextId st)) _ _ older _ Hids). reflexivity.
Qed.

(** X14. In every reachable state the model is in step with the
    simulation: every object has a registered body, the object's
    position and angle are that body's position and angle (so a saved
    scene and every committed snapshot hold where the bodies are), and
    the body is tagged with the object's id, which is what a click on
    it selects. *)
Theorem reachable_model_tracks_bodies (st : Playground) (o : SceneObject) :
  Reachable st -> o ∈ objects st ->
  exists b,
    bodyMap st !! o_id o = Some b /\
    o_position o = b_position b /\ o_angle o = b_angle b /\
    modelId (b_plugin b) = o_id o.
Proof.
  intros Hreach Hin.
  destruct (reachable_strong st Hreach) as (_ & _ & _ & Ht).
  destruct (Ht (o_id o)) as [b Hb]; [apply list_elem_of_fmap_2, Hin |].
  destruct (reachable_synced st Hreach o b Hin Hb) as [Hp Ha].
  exists b. split; [exact Hb |]. split; [exact Hp |]. split; [exact Ha |].
  exact (reachable_labelled st Hreach _ _ Hb).
Qed.

Lemma reachable_model_tracks_bodies_witness :
  let st := perform (Tick (fun b => mkKin (mkVec 1 2) (mkVec 0 0) 0 0))
              (perform (PlaceModel (mkVec 100 100) (circle 20) dynamic) startup) in
  exists o, Reachable st /\ o ∈ objects st /\ is_Some (bodyMap st !! o_id o).
Proof.
  intros st.
  assert (Hreach : Reachable st) by (repeat apply reach_step; apply reach_init).
  destruct (placed_object_survives_tick (fun b => mkKin (mkVec 1 2) (mkVec 0 0) 0 0)
              (mkVec 100 100) (circle 20) dynamic startup) as [o Hin].
  exists o. split; [exact Hreach |]. split; [exact Hin |].
  destruct (reachable_model_tracks_bodies st o Hreach Hin) as (b & Hb & _).
  exists b. exact Hb.
Defined.

(** ** Loading a scene is one undoable step *)

Lemma js_index_slice0_app {A} (l : list A) (x : A) (i : Z) :
  0 <= i < Z.of_nat (length l) ->
  js_index (JS.slice0 (i + 1) l ++ [x]) i = js_index l i.
Proof.
  intros Hi. unfold js_index, JS.slice0.
  destruct (Z.ltb_spec i 0); [lia |].
  destruct (Z.ltb_spec (i + 1) 0); [lia |].
  rewrite lookup_app_l by (rewrite length_take; lia).
  apply lookup_take_lt. lia.
Qed.

Lemma commit_then_undo (st : Playground) (s0 : Snapshot) :
  js_index (history st) (historyIndex st) = Some s0 ->
  s_nextLinkId s0 <> 0 ->
  let c := commitHistory st in
  history c = JS.slice0 (historyIndex st + 1) (history st) ++ [model_of c] /\
  historyIndex c = historyIndex st + 1 /\
  history (undo c) = history c /\
  historyIndex (undo c) = historyIndex st /\
  model_of (undo c) = s0.
Proof.
  intros Hs0 Hk c.
  pose proof (js_index_range _ _ _ Hs0) as Hrange.
  destruct (commitHistory_history st) as [Hh _]. fold c in Hh.
  assert (Hi : historyIndex c = historyIndex st + 1)
    by (apply commitHistory_index; lia).
  assert (Ha : anchored c) by apply commitHistory_anchored.
  assert (Hpos : 0 < historyIndex c) by lia.
  destruct (undo_applies c Ha Hpos) as (s & Hs & Hu).
  rewrite Hi, Hh in Hs.
  replace (historyIndex st + 1 - 1) with (historyIndex st) in Hs by lia.
  rewrite (js_index_slice0_app _ _ _ Hrange), Hs0 in Hs. injection Hs as <-.
  clearbody c. rewrite Hu.
  destruct (applySnapshot_frame s0 (set_historyIndex (historyIndex c - 1) c))
    as (_ & Hh' & Hi' & _).
  rewrite Hh', Hi', (model_of_applySnapshot _ _ Hk).
  split; [exact Hh |]. split; [exact Hi |]. split; [reflexivity |].
  split; [simpl; lia | reflexivity].
Qed.

Lemma loadScene_commit (data : Document) (objs : list SceneObject) (st : Playground) :
  d_objects data = Some objs ->
  loadScene data st
  = (commitHistory
       (applySnapshot
          (mkSnapshot objs (default [] (d_links data))
             (JS.or_opt_num (d_nextId data) (inferNextId objs))
             (JS.or_opt_num (d_nextLinkId data) 1)) st), None).
Proof. intros Hd. unfold loadScene. rewrite Hd. reflexivity. Qed.

Lemma commitHistory_selectedIds (st : Playground) :
  selectedIds (commitHistory st) = selectedIds st.
Proof. reflexivity. Qed.

(** X15. Loading a document with well-formed content (an [objects] key
    that holds object records, and links, if any, that are link records:
    the documents of type [Document]) in a state that the editor reached
    without a scene load is one undoable step: no alert is raised, the
    loaded scene is committed as a single new history entry right after
    the entry that was current (any redo tail is dropped), nothing is
    selected, and one [undo] brings back exactly the entry that was
    current before the load.  A document with the key and malformed
    content is outside the statement. *)
Theorem loadScene_is_one_undoable_step
    (data : Document) (objs : list SceneObject) (st : Playground) :
  Reachable st -> d_objects data = Some objs ->
  let st' := fst (loadScene data st) in
  snd (loadScene data st) = None /\
  history st' = JS.slice0 (historyIndex st + 1) (history st) ++ [model_of st'] /\
  historyIndex st' = historyIndex st + 1 /\
  selectedIds st' = [] /\
  historyIndex (undo st') = historyIndex st /\
  js_index (history st) (historyIndex st) = Some (model_of (undo st')).
Proof.
  intros Hreach Hd st'. unfold st'. rewrite (loadScene_commit _ _ _ Hd).
  cbn [fst snd].
  destruct (reachable_anchored st Hreach) as (s0 & Hs0 & _).
  pose proof (entry_link_counter st _ s0 (reachable_consistent st Hreach) Hs0) as Hk.
  set (S := mkSnapshot objs _ _ _).
  destruct (applySnapshot_frame S st) as (_ & Hh & Hi & Hsel).
  rewrite <- Hh, <- Hi in Hs0.
  destruct (commit_then_undo (applySnapshot S st) s0 Hs0 Hk)
    as (Hc & Hci & _ & Hui & Hum).
  rewrite Hh, Hi in Hc. rewrite Hi in Hci, Hui. rewrite Hh, Hi in Hs0.
  split; [reflexivity |]. split; [exact Hc |]. split; [exact Hci |].
  split; [rewrite commitHistory_selectedIds; exact Hsel |].
  split; [exact Hui |]. rewrite Hum. exact Hs0.
Qed.

Lemma loadScene_is_one_undoable_step_witness :
  let data := mkDocument (Some [demo_object "obj-7" 50 60]) None None None in
  Reachable startup /\ d_objects data = Some [demo_object "obj-7" 50 60] /\
  selectedIds (fst (loadScene data startup)) = [].
Proof.
  intros data.
  split; [apply reach_init |]. split; [reflexivity |].
  exact (proj1 (proj2 (proj2 (proj2
           (loadScene_is_one_undoable_step data _ startup reach_init eq_refl))))).
Defined.

(** ** Duplicating the selected object *)

Lemma duplicateSelection_single_facts (st : Playground) (X : string) (model : SceneObject) :
  selectedIds st = [X] -> find_object X (objects st) = Some model ->
  let clone :=
    set_o_position (mkVec (vx (o_position model) + 20) (vy (o_position model) - 20))
      (set_o_id (objId (nextId st)) model) in
  let st' := duplicateSelection st in
  (exists older, objects st' = older ++ [clone] /\ ids older = ids (objects st)) /\
  selectedIds st' = [objId (nextId st)] /\
  nextId st' = nextId st + 1 /\ nextLinkId st' = nextLinkId st /\
  links st' = links st /\ linkMap st' = linkMap st /\
  bodyMap st' = <[objId (nextId st) := body_of clone (w_next (world st))]> (bodyMap st) /\
  history st' = JS.slice0 (historyIndex st + 1) (history st) ++ [model_of st'].
Proof.
  intros Hsel Hfind clone st'. unfold st', duplicateSelection.
  rewrite Hsel. cbn [foldl]. rewrite Hfind.
  unfold buildBody, Matter.fresh. cbv beta iota zeta. cbn [app]. fold clone.
  match goal with |- context [commitHistory ?s] => set (S := s) end.
  assert (HS : objects S = objects st ++ [clone] /\
               bodyMap S = <[objId (nextId st) := body_of clone (w_next (world st))]>
                             (bodyMap st))
    by (split; reflexivity).
  destruct HS as [Ho Hb].
  split; [| split; [reflexivity |]].
  - change (objects (handleSelection ?i ?a ?s)) with (objects s).
    rewrite commitHistory_objects, Ho, map_app.
    eexists. split.
    + apply (f_equal2 (@app SceneObject)); [reflexivity |].
      cbn [map]. change (o_id clone) with (objId (nextId st)).
      rewrite Hb, lookup_insert_eq, pose_fixed. reflexivity.
    + unfold ids. rewrite map_map. apply map_ext.
      intros o. destruct (bodyMap S !! o_id o); reflexivity.
  - split; [reflexivity |]. split; [reflexivity |]. split; [reflexivity |].
    split; [reflexivity |]. split; [exact Hb |].
    change (history (handleSelection ?i ?a ?s)) with (history s).
    change (model_of (handleSelection ?i ?a ?s)) with (model_of s).
    exact (proj1 (commitHistory_history S)).
Qed.

(** X16. Duplicating a single selected object appends one copy under the
    fresh id [obj-<nextId>]: same label, shape, material, appearance,
    body type and lock, shifted by (+20, -20) from the position the model
    records; its body starts at rest; the copy becomes the selection;
    the springs of the original are not copied; one history entry is
    committed. *)
Theorem duplicateSelection_copies_object
    (st : Playground) (X : string) (model : SceneObject) :
  selectedIds st = [X] -> find_object X (objects st) = Some model ->
  let st' := duplicateSelection st in
  let new := objId (nextId st) in
  exists older clone,
    objects st' = older ++ [clone] /\ ids older = ids (objects st) /\
    o_id clone = new /\
    o_position clone
    = mkVec (vx (o_position model) + 20) (vy (o_position model) - 20) /\
    o_angle clone = o_angle model /\ o_label clone = o_label model /\
    o_shape clone = o_shape model /\ o_physics clone = o_physics model /\
    o_visual clone = o_visual model /\ o_bodyType clone = o_bodyType model /\
    o_locked clone = o_locked model /\
    selectedIds st' = [new] /\ nextId st' = nextId st + 1 /\
    links st' = links st /\ linkMap st' = linkMap st /\
    bodyMap st' !! new
    = Some (mkBody (w_next (world st)) (geometry_of (o_shape model)) (opts_of model)
                   (o_position clone) (mkVec 0 0) (o_angle model) 0
                   (mkPlugin new (o_locked model))) /\
    (forall i, i <> new -> bodyMap st' !! i = bodyMap st !! i) /\
    history st' = JS.slice0 (historyIndex st + 1) (history st) ++ [model_of st'].
Proof.
  intros Hsel Hfind st' new.
  destruct (duplicateSelection_single_facts st X model Hsel Hfind)
    as ((older & Ho & Hids) & Hs & Hn & _ & Hl & Hm & Hb & Hh).
  fold st' in Ho, Hs, Hn, Hl, Hm, Hb, Hh.
  eexists older, _. split; [exact Ho |]. split; [exact Hids |].
  split; [reflexivity |]. split; [reflexivity |]. split; [reflexivity |].
  split; [reflexivity |]. split; [reflexivity |]. split; [reflexivity |].
  split; [reflexivity |]. split; [reflexivity |]. split; [reflexivity |].
  split; [exact Hs |]. split; [exact Hn |]. split; [exact Hl |].
  split; [exact Hm |]. split; [| split; [| exact Hh]].
  - rewrite Hb. unfold new. rewrite lookup_insert_eq, body_of_eq. reflexivity.
  - intros i Hi. rewrite Hb. apply lookup_insert_ne.
    intros Heq. apply Hi. symmetry. exact Heq.
Qed.

Lemma duplicateSelection_copies_object_witness :
  selectedIds linked_pair = ["obj-1"%string] /\
  find_object "obj-1" (objects linked_pair) = Some (demo_object "obj-1" 100 100) /\
  selectedIds (duplicateSelection linked_pair) = ["obj-3"%string] /\
  links (duplicateSelection linked_pair) = [demo_link].
Proof.
  assert (Hsel : selectedIds linked_pair = ["obj-1"%string]) by reflexivity.
  assert (Hfind : find_object "obj-1" (objects linked_pair)
                  = Some (demo_object "obj-1" 100 100)) by reflexivity.
  split; [exact Hsel |]. split; [exact Hfind |].
  destruct (duplicateSelection_copies_object linked_pair "obj-1" _ Hsel Hfind)
    as (older & clone & _ & _ & _ & _ & _ & _ & _ & _ & _ & _ & _ & Hs & _ & Hl & _).
  split; [exact Hs | exact Hl].
Defined.

(** ** What the inspector edits change *)

Lemma find_object_id (id : string) (objs : list SceneObject) (model : SceneObject) :
  find_object id objs = Some model -> o_id model = id /\ model ∈ objs.
Proof.
  unfold find_object. intros Hfind. apply find_some in Hfind as [Hin Heq].
  apply String.eqb_eq in Heq. split; [exact Heq |].
  apply list_elem_of_In. exact Hin.
Qed.

Lemma update_object_elem (id : string) (f : SceneObject -> SceneObject)
    (objs : list SceneObject) (o : SceneObject) :
  o ∈ update_object id f objs ->
  o ∈ objs \/ exists o0, o0 ∈ objs /\ o_id o0 = id /\ o = f o0.
Proof.
  induction objs as [| a objs IH]; simpl; [intros H; inversion H |].
  destruct (String.eqb (o_id a) id) eqn:Heq; intros Hin.
  - apply String.eqb_eq in Heq.
    apply elem_of_cons in Hin as [-> | Hin].
    + right. exists a. split; [left | auto].
    + left. right. exact Hin.
  - apply elem_of_cons in Hin as [-> | Hin]; [left; left |].
    destruct (IH Hin) as [Hold | (o0 & Ho0 & Hid & ->)].
    + left. right. exact Hold.
    + right. exists o0. split; [right; exact Ho0 | auto].
Qed.

Lemma sync_fixed (o : SceneObject) (b : Body) :
  o_position o = b_position b -> o_angle o = b_angle b ->
  set_o_angle (b_angle b)
    (set_o_position (mkVec (vx (b_position b)) (vy (b_position b))) o) = o.
Proof.
  intros Hp Ha. destruct o as [i l p a t k s ph v]. simpl in Hp, Ha. subst p a.
  destruct (b_position b). reflexivity.
Qed.

Lemma sync_map_fixed (m : gmap string Body) (objs : list SceneObject) :
  (forall o b, o ∈ objs -> m !! o_id o = Some b ->
               o_position o = b_position b /\ o_angle o = b_angle b) ->
  map (fun model =>
         match m !! o_id model with
         | None => model
         | Some body =>
             set_o_angle (b_angle body)
               (set_o_position (mkVec (vx (b_position body)) (vy (b_position body)))
                  model)
         end) objs
  = objs.
Proof.
  induction objs as [| a objs IH]; intros Hs; simpl; [reflexivity |].
  rewrite IH by (intros o b Ho; apply Hs; right; exact Ho).
  destruct (m !! o_id a) as [b |] eqn:Hb; [| reflexivity].
  destruct (Hs a b) as [Hp Ha]; [left | exact Hb |].
  rewrite (sync_fixed a b Hp Ha). reflexivity.
Qed.

Lemma attachLink_selectedIds (link : SpringLink) (st : Playground) :
  selectedIds (attachLink link st) = selectedIds st.
Proof.
  unfold attachLink.
  destruct (bodyMap st !! l_a link), (bodyMap st !! l_b link); reflexivity.
Qed.

Lemma refreshLinksFor_selectedIds (id : string) (st : Playground) :
  selectedIds (refreshLinksFor id st) = selectedIds st.
Proof.
  unfold refreshLinksFor.
  apply (foldl_preserves (fun s => selectedIds s = selectedIds st)); [| reflexivity].
  intros s link Hs. destruct (touches id link); [| exact Hs].
  rewrite attachLink_selectedIds.
  destruct (linkMap s !! l_id link); exact Hs.
Qed.

Lemma rebuildBody_frame (model : SceneObject) (st : Playground) :
  objects (rebuildBody model st) = objects st /\
  links (rebuildBody model st) = links st /\
  nextId (rebuildBody model st) = nextId st /\
  nextLinkId (rebuildBody model st) = nextLinkId st /\
  history (rebuildBody model st) = history st /\
  historyIndex (rebuildBody model st) = historyIndex st /\
  selectedIds (rebuildBody model st) = selectedIds st.
Proof.
  destruct (bodyMap st !! o_id model) as [existing |] eqn:Hlive;
    [| unfold rebuildBody; rewrite Hlive; repeat split].
  rewrite (rebuildBody_live _ _ _ Hlive).
  match goal with |- context [refreshLinksFor ?i ?s] =>
    destruct (refreshLinksFor_frame i s) as (_ & _ & Ho & Hl & Hn & Hk & Hh & Hi);
    pose proof (refreshLinksFor_selectedIds i s) as Hsel
  end.
  rewrite Ho, Hl, Hn, Hk, Hh, Hi, Hsel. repeat split.
Qed.

Lemma single_edit_facts (f : SceneObject -> SceneObject) (st : Playground)
    (X : string) (model : SceneObject) (existing : Body) :
  synced st -> selectedIds st = [X] ->
  find_object X (objects st) = Some model ->
  bodyMap st !! X = Some existing ->
  (forall o, o_id (f o) = o_id o /\ o_position (f o) = o_position o /\
             o_angle (f o) = o_angle o) ->
  let st' := commitHistory (edit_and_rebuild f st) in
  objects st' = update_object X f (objects st) /\
  bodyMap st'
  = <[X := set_kinematics (kinematics existing)
             (body_of (f model) (w_next (world st)))]> (bodyMap st) /\
  links st' = links st /\ nextId st' = nextId st /\ nextLinkId st' = nextLinkId st /\
  selectedIds st' = [X] /\
  history st' = JS.slice0 (historyIndex st + 1) (history st) ++ [model_of st'].
Proof.
  intros Hsync Hsel Hfind Hlive Hf st'.
  destruct (find_object_id _ _ _ Hfind) as [Hid Hmodel].
  assert (HfX : o_id (f model) = X) by (rewrite (proj1 (Hf model)); exact Hid).
  unfold st', edit_and_rebuild. rewrite Hsel. cbn [foldl]. rewrite Hfind.
  set (S0 := set_objects (update_object X f (objects st)) st).
  assert (Hlive0 : bodyMap S0 !! o_id (f model) = Some existing)
    by (rewrite HfX; exact Hlive).
  pose proof (rebuildBody_bodyMap (f model) existing S0 Hlive0) as Hb.
  rewrite HfX in Hb.
  change (bodyMap S0) with (bodyMap st) in Hb.
  change (w_next (world S0)) with (w_next (world st)) in Hb.
  destruct (rebuildBody_frame (f model) S0) as (Ho & Hl & Hn & Hk & Hh & Hi & Hs).
  change (objects S0) with (update_object X f (objects st)) in Ho.
  change (links S0) with (links st) in Hl.
  change (nextId S0) with (nextId st) in Hn.
  change (nextLinkId S0) with (nextLinkId st) in Hk.
  change (history S0) with (history st) in Hh.
  change (historyIndex S0) with (historyIndex st) in Hi.
  change (selectedIds S0) with (selectedIds st) in Hs.
  remember (rebuildBody (f model) S0) as R eqn:ER. clear ER S0 Hlive0.
  split.
  { rewrite commitHistory_objects, Ho. apply sync_map_fixed.
    intros o b Hin Hlook. rewrite Hb in Hlook.
    assert (Hpose : forall o0, o0 ∈ objects st ->
              (o_id o0 = X -> o_position o0 = b_position existing /\
                              o_angle o0 = b_angle existing) /\
              (forall b0, o_id o0 <> X -> bodyMap st !! o_id o0 = Some b0 ->
                          o_position o0 = b_position b0 /\ o_angle o0 = b_angle b0)).
    { intros o0 Ho0. split.
      - intros Hx. apply (Hsync o0 existing Ho0). rewrite Hx. exact Hlive.
      - intros b0 _ Hb0. exact (Hsync o0 b0 Ho0 Hb0). }
    destruct (decide (X = o_id o)) as [Hx | Hx].
    - rewrite <- Hx, lookup_insert_eq in Hlook. injection Hlook as <-. simpl.
      apply update_object_elem in Hin as [Hold | (o0 & Ho0 & Hid0 & ->)].
      + apply (proj1 (Hpose o Hold)). symmetry. exact Hx.
      + destruct (Hf o0) as (_ & -> & ->). apply (proj1 (Hpose o0 Ho0)). exact Hid0.
    - rewrite lookup_insert_ne in Hlook by exact Hx.
      apply update_object_elem in Hin as [Hold | (o0 & Ho0 & Hid0 & ->)].
      + apply (proj2 (Hpose o Hold)); [congruence | exact Hlook].
      + exfalso. apply Hx. rewrite (proj1 (Hf o0)). symmetry. exact Hid0. }
  split; [exact Hb |].
  split; [rewrite (proj2 (proj2 (commitHistory_counters R))); exact Hl |].
  split; [exact Hn |]. split; [exact Hk |].
  split; [rewrite commitHistory_selectedIds, Hs; exact Hsel |].
  rewrite (proj1 (commitHistory_history R)), Hh, Hi. reflexivity.
Qed.

Lemma reachable_body_of_object (st : Playground) (X : string) (model : SceneObject) :
  Reachable st -> find_object X (objects st) = Some model ->
  exists existing, bodyMap st !! X = Some existing.
Proof.
  intros Hreach Hfind. destruct (find_object_id _ _ _ Hfind) as [Hid Hin].
  destruct (reachable_strong st Hreach) as (_ & _ & _ & Ht).
  destruct (Ht X) as [b Hb]; [rewrite <- Hid; apply list_elem_of_fmap_2, Hin |].
  exists b. exact Hb.
Qed.

(** X17. With one object selected in a reachable state, editing its
    material ([updatePhysics]) or its body type ([updateSelection])
    changes exactly that field of that object in the model and nothing
    else; the object's body is rebuilt with the new material or flags,
    the old shape and the old motion; the other bodies, the links and the
    selection stay, and one history entry is committed. *)
Theorem material_edit_single
    (patch : PhysicsPatch) (type : BodyType) (st : Playground) (X : string)
    (model : SceneObject) :
  Reachable st -> selectedIds st = [X] ->
  find_object X (objects st) = Some model ->
  exists existing,
    bodyMap st !! X = Some existing /\
    (let st' := updatePhysics patch st in
     let edited := set_o_physics (merge_physics (o_physics model) patch) model in
     objects st'
     = update_object X (fun m => set_o_physics (merge_physics (o_physics m) patch) m)
         (objects st) /\
     (exists b, bodyMap st' !! X = Some b /\
        opt_restitution (b_opts b)
        = default (restitution (o_physics model)) (p_restitution patch) /\
        opt_friction (b_opts b)
        = default (friction (o_physics model)) (p_friction patch) /\
        opt_frictionAir (b_opts b)
        = default (frictionAir (o_physics model)) (p_frictionAir patch) /\
        opt_frictionStatic (b_opts b)
        = default (frictionStatic (o_physics model)) (p_frictionStatic patch) /\
        opt_density (b_opts b)
        = default (density (o_physics model)) (p_density patch) /\
        isStatic (b_opts b) = bool_decide (o_bodyType model = static) /\
        isSensor (b_opts b) = bool_decide (o_bodyType model = sensor) /\
        b_geometry b = geometry_of (o_shape model) /\
        kinematics b = kinematics existing) /\
     (forall i, i <> X -> bodyMap st' !! i = bodyMap st !! i) /\
     links st' = links st /\ selectedIds st' = [X] /\
     history st' = JS.slice0 (historyIndex st + 1) (history st) ++ [model_of st']) /\
    (let st' := updateSelection type st in
     objects st' = update_object X (set_o_bodyType type) (objects st) /\
     (exists b, bodyMap st' !! X = Some b /\
        isStatic (b_opts b) = bool_decide (type = static) /\
        isSensor (b_opts b) = bool_decide (type = sensor) /\
        opt_restitution (b_opts b) = restitution (o_physics model) /\
        opt_density (b_opts b) = density (o_physics model) /\
        b_geometry b = geometry_of (o_shape model) /\
        kinematics b = kinematics existing) /\
     (forall i, i <> X -> bodyMap st' !! i = bodyMap st !! i) /\
     links st' = links st /\ selectedIds st' = [X] /\
     history st' = JS.slice0 (historyIndex st + 1) (history st) ++ [model_of st']).
Proof.
  intros Hreach Hsel Hfind.
  destruct (reachable_body_of_object st X model Hreach Hfind) as [existing Hlive].
  pose proof (reachable_synced st Hreach) as Hsync.
  exists existing. split; [exact Hlive |]. split.
  - destruct (single_edit_facts
                (fun m => set_o_physics (merge_physics (o_physics m) patch) m)
                st X model existing Hsync Hsel Hfind Hlive)
      as (Ho & Hb & Hl & _ & _ & Hs & Hh); [intros o; repeat split |].
    unfold updatePhysics. rewrite Hsel.
    split; [exact Ho |]. split; [| split; [| split; [exact Hl | split; [exact Hs | exact Hh]]]].
    + eexists. rewrite Hb, lookup_insert_eq. split; [reflexivity |].
      rewrite body_of_eq. repeat split.
    + intros i Hi. rewrite Hb. apply lookup_insert_ne.
      intros Heq. apply Hi. symmetry. exact Heq.
  - destruct (single_edit_facts (set_o_bodyType type)
                st X model existing Hsync Hsel Hfind Hlive)
      as (Ho & Hb & Hl & _ & _ & Hs & Hh); [intros o; repeat split |].
    unfold updateSelection. rewrite Hsel.
    split; [exact Ho |]. split; [| split; [| split; [exact Hl | split; [exact Hs | exact Hh]]]].
    + eexists. rewrite Hb, lookup_insert_eq. split; [reflexivity |].
      rewrite body_of_eq. repeat split.
    + intros i Hi. rewrite Hb. apply lookup_insert_ne.
      intros Heq. apply Hi. symmetry. exact Heq.
Qed.

Lemma first_placed_facts (center : Vec) (shape : Shape) (bodyType : BodyType)
    (st : Playground) :
  objects st = [] ->
  let model := mkObject (objId (nextId st)) (shape_label (shape_type shape)) center 0
                        bodyType false shape DEFAULT_PHYSICS DEFAULT_VISUAL in
  let st' := perform (PlaceModel center shape bodyType) st in
  selectedIds st' = [objId (nextId st)] /\
  find_object (objId (nextId st)) (objects st') = Some model.
Proof.
  intros Hempty model st'. unfold st'. rewrite perform_PlaceModel.
  destruct (placeModel_facts center shape bodyType st)
    as ((older & Ho & Hids) & Hsel & _).
  split; [exact Hsel |].
  rewrite Hempty in Hids. destruct older as [| o older]; [| discriminate Hids].
  rewrite Ho. unfold find_object. cbn [app find o_id].
  rewrite String.eqb_refl. reflexivity.
Qed.

Lemma material_edit_single_witness :
  let st := perform (PlaceModel (mkVec 100 100) (circle 20) dynamic) startup in
  let patch := mkPhysicsPatch (Some 0.9%R) None None None None in
  exists model,
    Reachable st /\ selectedIds st = ["obj-1"%string] /\
    find_object "obj-1" (objects st) = Some model /\
    selectedIds (updatePhysics patch st) = ["obj-1"%string].
Proof.
  intros st patch.
  assert (Hreach : Reachable st) by (repeat apply reach_step; apply reach_init).
  destruct (first_placed_facts (mkVec 100 100) (circle 20) dynamic startup eq_refl)
    as [Hsel Hfind].
  eexists. split; [exact Hreach |]. split; [exact Hsel |]. split; [exact Hfind |].
  destruct (material_edit_single patch static st "obj-1" _ Hreach Hsel Hfind)
    as (existing & _ & (_ & _ & _ & _ & Hs & _) & _).
  exact Hs.
Defined.

Lemma edited_objects_synced (f : SceneObject -> SceneObject) (st : Playground)
    (X : string) :
  synced st ->
  (forall o, o_id (f o) = o_id o /\ o_position (f o) = o_position o /\
             o_angle (f o) = o_angle o) ->
  forall o b, o ∈ update_object X f (objects st) -> bodyMap st !! o_id o = Some b ->
              o_position o = b_position b /\ o_angle o = b_angle b.
Proof.
  intros Hsync Hf o b Hin Hb.
  apply update_object_elem in Hin as [Hold | (o0 & Ho0 & _ & ->)].
  - exact (Hsync o b Hold Hb).
  - destruct (Hf o0) as (Hid & -> & ->). rewrite Hid in Hb.
    exact (Hsync o0 b Ho0 Hb).
Qed.

Lemma updateVisual_frame (patch : VisualPatch) (st : Playground) :
  let st' := updateVisual patch st in
  bodyMap st' = bodyMap st /\ linkMap st' = linkMap st /\ world st' = world st /\
  links st' = links st /\ nextId st' = nextId st /\ nextLinkId st' = nextLinkId st /\
  selectedIds st' = selectedIds st.
Proof.
  unfold updateVisual. destruct (selectedIds st) as [| i0 sel0] eqn:Hsel;
    [repeat split; exact Hsel |].
  rewrite <- Hsel.
  match goal with |- context [commitHistory ?s] =>
    assert (HP : bodyMap s = bodyMap st /\ linkMap s = linkMap st /\
                 world s = world st /\ links s = links st /\
                 nextId s = nextId st /\ nextLinkId s = nextLinkId st /\
                 selectedIds s = selectedIds st);
    [| remember s as S0 eqn:ES; clear ES]
  end.
  { apply (foldl_preserves
             (fun s => bodyMap s = bodyMap st /\ linkMap s = linkMap st /\
                       world s = world st /\ links s = links st /\
                       nextId s = nextId st /\ nextLinkId s = nextLinkId st /\
                       selectedIds s = selectedIds st)); [| repeat split].
    intros s id Hs. destruct (find_object id (objects s)); exact Hs. }
  destruct HP as (Hb & Hm & Hw & Hl & Hn & Hk & Hs).
  cbv zeta. rewrite (proj2 (proj2 (commitHistory_counters S0))).
  rewrite commitHistory_selectedIds.
  change (bodyMap (commitHistory S0)) with (bodyMap S0).
  change (linkMap (commitHistory S0)) with (linkMap S0).
  change (world (commitHistory S0)) with (world S0).
  change (nextId (commitHistory S0)) with (nextId S0).
  change (nextLinkId (commitHistory S0)) with (nextLinkId S0).
  auto 8.
Qed.

(** X18. Changing the appearance never touches the simulation: after
    [updateVisual] the bodies, the constraints, the world, the links,
    the counters and the selection are the same objects as before.
    With one object selected in a reachable state the model changes in
    exactly that object's visual, which becomes the old one overridden by
    the patch, and one history entry is committed. *)
Theorem updateVisual_only_restyles
    (patch : VisualPatch) (st : Playground) (X : string) (model : SceneObject) :
  let st' := updateVisual patch st in
  (bodyMap st' = bodyMap st /\ linkMap st' = linkMap st /\ world st' = world st /\
   links st' = links st /\ nextId st' = nextId st /\ nextLinkId st' = nextLinkId st /\
   selectedIds st' = selectedIds st) /\
  (Reachable st -> selectedIds st = [X] ->
   find_object X (objects st) = Some model ->
   objects st'
   = update_object X (fun m => set_o_visual (merge_visual (o_visual m) patch) m)
       (objects st) /\
   find_object X (objects st')
   = Some (set_o_visual (merge_visual (o_visual model) patch) model) /\
   history st' = JS.slice0 (historyIndex st + 1) (history st) ++ [model_of st']).
Proof.
  intros st'. split; [exact (updateVisual_frame patch st) |].
  intros Hreach Hsel Hfind.
  pose proof (reachable_synced st Hreach) as Hsync.
  assert (Hobjs : objects st'
                  = update_object X
                      (fun m => set_o_visual (merge_visual (o_visual m) patch) m)
                      (objects st) /\
                  history st'
                  = JS.slice0 (historyIndex st + 1) (history st) ++ [model_of st']).
  { unfold st', updateVisual. rewrite Hsel. cbn [foldl]. rewrite Hfind.
    match goal with |- context [commitHistory ?s] => set (S0 := s) end.
    split; [| exact (proj1 (commitHistory_history S0))].
    rewrite commitHistory_objects.
    change (objects S0)
      with (update_object X
              (fun m => set_o_visual (merge_visual (o_visual m) patch) m) (objects st)).
    change (bodyMap S0) with (bodyMap st).
    apply sync_map_fixed.
    apply (edited_objects_synced _ st X Hsync). intros o. repeat split. }
  destruct Hobjs as [Ho Hh].
  split; [exact Ho |]. split; [| exact Hh].
  rewrite Ho. clear Ho Hh Hsync Hreach Hsel. unfold find_object in *.
  induction (objects st) as [| a objs IH]; [discriminate Hfind |].
  simpl in Hfind. simpl.
  destruct (String.eqb (o_id a) X) eqn:Heq.
  - injection Hfind as <-. simpl. rewrite Heq. reflexivity.
  - simpl. rewrite Heq. exact (IH Hfind).
Qed.

Lemma updateVisual_only_restyles_witness :
  let st := perform (PlaceModel (mkVec 100 100) (circle 20) dynamic) startup in
  let patch := mkVisualPatch (Some "#ff0000"%string) None None None None in
  exists model,
    Reachable st /\ selectedIds st = ["obj-1"%string] /\
    find_object "obj-1" (objects st) = Some model /\
    bodyMap (updateVisual patch st) = bodyMap st /\
    exists model',
      find_object "obj-1" (objects (updateVisual patch st)) = Some model' /\
      fill (o_visual model') = "#ff0000"%string.
Proof.
  intros st patch.
  assert (Hreach : Reachable st) by (repeat apply reach_step; apply reach_init).
  destruct (first_placed_facts (mkVec 100 100) (circle 20) dynamic startup eq_refl)
    as [Hsel Hfind].
  eexists. split; [exact Hreach |]. split; [exact Hsel |]. split; [exact Hfind |].
  destruct (updateVisual_only_restyles patch st "obj-1"
              (mkObject "obj-1" "circle" (mkVec 100 100) 0 dynamic false (circle 20)
                 DEFAULT_PHYSICS DEFAULT_VISUAL)) as [(Hb & _) Hedit].
  split; [exact Hb |].
  destruct (Hedit Hreach Hsel Hfind) as (_ & Hfind' & _).
  eexists. split; [exact Hfind' | reflexivity].
Defined.

Lemma toggleLock_loop (lock : bool) (st : Playground) (sel : list string) :
  let s' :=
    foldl (fun st id =>
             match find_object id (objects st) with
             | Some model =>
                 let st := set_objects
                             (update_object id (set_o_locked lock) (objects st)) st in
                 set_bodyMap
                   (alter (fun body =>
                             Matter.set_plugin body
                               (mkPlugin (modelId (b_plugin body)) lock))
                          id (bodyMap st)) st
             | None => st
             end) st sel in
  world s' = world st /\ linkMap s' = linkMap st /\ links s' = links st /\
  nextId s' = nextId st /\ nextLinkId s' = nextLinkId st /\
  selectedIds s' = selectedIds st /\
  history s' = history st /\ historyIndex s' = historyIndex st /\
  forall id b, bodyMap st !! id = Some b ->
    exists b', bodyMap s' !! id = Some b' /\
      b_handle b' = b_handle b /\ b_geometry b' = b_geometry b /\
      b_opts b' = b_opts b /\ kinematics b' = kinematics b /\
      modelId (b_plugin b') = modelId (b_plugin b).
Proof.
  cbv zeta.
  apply (foldl_preserves
           (fun s' =>
              world s' = world st /\ linkMap s' = linkMap st /\ links s' = links st /\
              nextId s' = nextId st /\ nextLinkId s' = nextLinkId st /\
              selectedIds s' = selectedIds st /\
              history s' = history st /\ historyIndex s' = historyIndex st /\
              forall id b, bodyMap st !! id = Some b ->
                exists b', bodyMap s' !! id = Some b' /\
                  b_handle b' = b_handle b /\ b_geometry b' = b_geometry b /\
                  b_opts b' = b_opts b /\ kinematics b' = kinematics b /\
                  modelId (b_plugin b') = modelId (b_plugin b))).
  - intros s id (Hw & Hm & Hl & Hn & Hk & Hs & Hh & Hi & Hb).
    destruct (find_object id (objects s));
      [| split; [exact Hw |]; auto 10].
    split; [exact Hw |]. split; [exact Hm |]. split; [exact Hl |].
    split; [exact Hn |]. split; [exact Hk |]. split; [exact Hs |].
    split; [exact Hh |]. split; [exact Hi |].
    intros i b Hlook. destruct (Hb i b Hlook) as (b' & Hb' & Hrest).
    simpl. destruct (decide (id = i)) as [-> | Hne].
    + rewrite lookup_alter_eq, Hb'. simpl. eexists. split; [reflexivity |].
      exact Hrest.
    + rewrite lookup_alter_ne by exact Hne. eauto.
  - repeat split. intros id b Hb. exists b. auto 10.
Qed.

(** X19. Locking or unlocking never rebuilds anything: after
    [toggleLock] the world, the constraints, the links, the counters and
    the selection are the same, and every body keeps its handle, shape,
    material, motion and tag; a history entry is committed whatever the
    selection.  With one object selected in a reachable state, exactly
    that object's [locked] flag changes in the model and its body's
    plugin carries the new flag. *)
Theorem toggleLock_only_flags
    (lock : bool) (st : Playground) (X : string) (model : SceneObject) :
  let st' := toggleLock lock st in
  (world st' = world st /\ linkMap st' = linkMap st /\ links st' = links st /\
   nextId st' = nextId st /\ nextLinkId st' = nextLinkId st /\
   selectedIds st' = selectedIds st /\
   history st' = JS.slice0 (historyIndex st + 1) (history st) ++ [model_of st'] /\
   forall id b, bodyMap st !! id = Some b ->
     exists b', bodyMap st' !! id = Some b' /\
       b_handle b' = b_handle b /\ b_geometry b' = b_geometry b /\
       b_opts b' = b_opts b /\ kinematics b' = kinematics b /\
       modelId (b_plugin b') = modelId (b_plugin b)) /\
  (Reachable st -> selectedIds st = [X] ->
   find_object X (objects st) = Some model ->
   objects st' = update_object X (set_o_locked lock) (objects st) /\
   exists b', bodyMap st' !! X = Some b' /\ locked (b_plugin b') = lock).
Proof.
  intros st'. split.
  - destruct (toggleLock_loop lock st (selectedIds st))
      as (Hw & Hm & Hl & Hn & Hk & Hs & Hh & Hi & Hb).
    unfold st', toggleLock.
    match goal with |- context [commitHistory ?s] =>
      remember s as S0 eqn:ES; clear ES
    end.
    rewrite (proj2 (proj2 (commitHistory_counters S0))), commitHistory_selectedIds.
    rewrite (proj1 (commitHistory_history S0)), Hh, Hi.
    change (world (commitHistory S0)) with (world S0).
    change (linkMap (commitHistory S0)) with (linkMap S0).
    change (nextId (commitHistory S0)) with (nextId S0).
    change (nextLinkId (commitHistory S0)) with (nextLinkId S0).
    change (bodyMap (commitHistory S0)) with (bodyMap S0).
    split; [exact Hw |]. split; [exact Hm |]. split; [exact Hl |].
    split; [exact Hn |]. split; [exact Hk |]. split; [exact Hs |].
    split; [reflexivity | exact Hb].
  - intros Hreach Hsel Hfind.
    pose proof (reachable_synced st Hreach) as Hsync.
    destruct (reachable_body_of_object st X model Hreach Hfind) as [existing Hlive].
    unfold st', toggleLock. rewrite Hsel. cbn [foldl]. rewrite Hfind.
    match goal with |- context [commitHistory ?s] => set (S0 := s) end.
    assert (Hb0 : bodyMap S0
                  = alter (fun body =>
                             Matter.set_plugin body
                               (mkPlugin (modelId (b_plugin body)) lock))
                          X (bodyMap st)) by reflexivity.
    assert (Ho0 : objects S0 = update_object X (set_o_locked lock) (objects st))
      by reflexivity.
    change (bodyMap (commitHistory S0)) with (bodyMap S0).
    rewrite commitHistory_objects, Ho0, Hb0. clearbody S0. split.
    + apply sync_map_fixed. intros o b Hin Hb.
      destruct (decide (X = o_id o)) as [Hx | Hx].
      * rewrite <- Hx, lookup_alter_eq, Hlive in Hb. simpl in Hb.
        injection Hb as <-. simpl.
        apply (edited_objects_synced (set_o_locked lock) st X Hsync);
          [intros o'; repeat split | exact Hin | rewrite <- Hx; exact Hlive].
      * rewrite lookup_alter_ne in Hb by exact Hx.
        apply (edited_objects_synced (set_o_locked lock) st X Hsync);
          [intros o'; repeat split | exact Hin | exact Hb].
    + rewrite lookup_alter_eq, Hlive. simpl. eexists. split; reflexivity.
Qed.

Lemma toggleLock_only_flags_witness :
  let st := perform (PlaceModel (mkVec 100 100) (circle 20) dynamic) startup in
  exists model,
    Reachable st /\ selectedIds st = ["obj-1"%string] /\
    find_object "obj-1" (objects st) = Some model /\
    world (toggleLock true st) = world st /\
    exists b', bodyMap (toggleLock true st) !! "obj-1" = Some b' /\
               locked (b_plugin b') = true.
Proof.
  intros st.
  assert (Hreach : Reachable st) by (repeat apply reach_step; apply reach_init).
  destruct (first_placed_facts (mkVec 100 100) (circle 20) dynamic startup eq_refl)
    as [Hsel Hfind].
  eexists. split; [exact Hreach |]. split; [exact Hsel |]. split; [exact Hfind |].
  destruct (toggleLock_only_flags true st "obj-1"
              (mkObject "obj-1" "circle" (mkVec 100 100) 0 dynamic false (circle 20)
                 DEFAULT_PHYSICS DEFAULT_VISUAL)) as [(Hw & _) Hedit].
  split; [exact Hw |].
  destruct (Hedit Hreach Hsel Hfind) as (_ & Hb). exact Hb.
Defined.

Lemma single_rebuild_facts (f : SceneObject -> SceneObject) (st : Playground)
    (X : string) (model : SceneObject) (existing : Body) :
  synced st ->
  find_object X (objects st) = Some model ->
  bodyMap st !! X = Some existing ->
  (forall o, o_id (f o) = o_id o) ->
  (forall o, o ∈ objects st -> o_id o = X ->
             o_position (f o) = b_position existing /\
             o_angle (f o) = b_angle existing) ->
  let st' := commitHistory
               (rebuildBody (f model)
                  (set_objects (update_object X f (objects st)) st)) in
  objects st' = update_object X f (objects st) /\
  bodyMap st'
  = <[X := set_kinematics (kinematics existing)
             (body_of (f model) (w_next (world st)))]> (bodyMap st) /\
  links st' = links st /\ nextId st' = nextId st /\ nextLinkId st' = nextLinkId st /\
  selectedIds st' = selectedIds st /\
  history st' = JS.slice0 (historyIndex st + 1) (history st) ++ [model_of st'].
Proof.
  intros Hsync Hfind Hlive Hfid Hfpose st'.
  destruct (find_object_id _ _ _ Hfind) as [Hid Hmodel].
  assert (HfX : o_id (f model) = X) by (rewrite Hfid; exact Hid).
  unfold st'.
  set (S0 := set_objects (update_object X f (objects st)) st).
  assert (Hlive0 : bodyMap S0 !! o_id (f model) = Some existing)
    by (rewrite HfX; exact Hlive).
  pose proof (rebuildBody_bodyMap (f model) existing S0 Hlive0) as Hb.
  rewrite HfX in Hb.
  change (bodyMap S0) with (bodyMap st) in Hb.
  change (w_next (world S0)) with (w_next (world st)) in Hb.
  destruct (rebuildBody_frame (f model) S0) as (Ho & Hl & Hn & Hk & Hh & Hi & Hs).
  change (objects S0) with (update_object X f (objects st)) in Ho.
  change (links S0) with (links st) in Hl.
  change (nextId S0) with (nextId st) in Hn.
  change (nextLinkId S0) with (nextLinkId st) in Hk.
  change (history S0) with (history st) in Hh.
  change (historyIndex S0) with (historyIndex st) in Hi.
  change (selectedIds S0) with (selectedIds st) in Hs.
  remember (rebuildBody (f model) S0) as R eqn:ER. clear ER S0 Hlive0.
  split.
  { rewrite commitHistory_objects, Ho. apply sync_map_fixed.
    intros o b Hin Hlook. rewrite Hb in Hlook.
    destruct (decide (X = o_id o)) as [Hx | Hx].
    - rewrite <- Hx, lookup_insert_eq in Hlook. injection Hlook as <-. simpl.
      apply update_object_elem in Hin as [Hold | (o0 & Ho0 & Hid0 & ->)].
      + apply (Hsync o existing Hold). rewrite <- Hx. exact Hlive.
      + exact (Hfpose o0 Ho0 Hid0).
    - rewrite lookup_insert_ne in Hlook by exact Hx.
      apply update_object_elem in Hin as [Hold | (o0 & Ho0 & Hid0 & ->)].
      + exact (Hsync o b Hold Hlook).
      + exfalso. apply Hx. rewrite Hfid. symmetry. exact Hid0. }
  split; [exact Hb |].
  split; [rewrite (proj2 (proj2 (commitHistory_counters R))); exact Hl |].
  split; [exact Hn |]. split; [exact Hk |].
  split; [rewrite commitHistory_selectedIds; exact Hs |].
  rewrite (proj1 (commitHistory_history R)), Hh, Hi. reflexivity.
Qed.

Lemma update_object_first (X : string) (f g : SceneObject -> SceneObject)
    (objs : list SceneObject) (model : SceneObject) :
  find_object X objs = Some model -> f model = g model ->
  update_object X f objs = update_object X g objs.
Proof.
  unfold find_object. intros Hfind Heq.
  induction objs as [| a objs IH]; [reflexivity |].
  simpl in *. destruct (String.eqb (o_id a) X).
  - injection Hfind as ->. rewrite Heq. reflexivity.
  - rewrite (IH Hfind). reflexivity.
Qed.

(** X20. With one object selected in a reachable state, [changeShape]
    replaces the object's shape by the default of the requested kind,
    sized from the bounding box of its body (a circle or pentagon of
    radius half the larger side, or a rectangle of the box's width and
    height), relabels it, and leaves its recorded position as it is;
    the body is rebuilt with that geometry, the same material and the
    same motion; other bodies, links and the selection stay, and one
    history entry is committed. *)
Theorem changeShape_single
    (extent : Body -> Vec) (shapeType : ShapeType) (st : Playground) (X : string)
    (model : SceneObject) :
  Reachable st -> selectedIds st = [X] ->
  find_object X (objects st) = Some model ->
  exists existing,
    bodyMap st !! X = Some existing /\
    let size := extent existing in
    let radius := (Rmax (vx size) (vy size) / 2)%R in
    let st' := changeShape extent shapeType st in
    objects st'
    = update_object X
        (fun m => set_o_label (shape_label shapeType)
                    (set_o_shape (shapeDefaults shapeType size radius) m))
        (objects st) /\
    (exists b, bodyMap st' !! X = Some b /\
       b_geometry b
       = match shapeType with
         | t_circle => g_circle radius
         | t_polygon => g_polygon 5 radius
         | t_rectangle => g_rectangle (vx size) (vy size)
         end /\
       b_opts b = opts_of model /\ kinematics b = kinematics existing) /\
    (forall i, i <> X -> bodyMap st' !! i = bodyMap st !! i) /\
    links st' = links st /\ selectedIds st' = [X] /\
    history st' = JS.slice0 (historyIndex st + 1) (history st) ++ [model_of st'].
Proof.
  intros Hreach Hsel Hfind.
  destruct (reachable_body_of_object st X model Hreach Hfind) as [existing Hlive].
  pose proof (reachable_synced st Hreach) as Hsync.
  destruct (find_object_id _ _ _ Hfind) as [Hid Hmodel].
  exists existing. split; [exact Hlive |]. intros size radius st'.
  set (f := fun m => set_o_label (shape_label shapeType)
                       (set_o_position
                          (mkVec (vx (b_position existing)) (vy (b_position existing)))
                          (set_o_shape (shapeDefaults shapeType size radius) m))).
  assert (Hpos : mkVec (vx (b_position existing)) (vy (b_position existing))
                 = b_position existing) by (destruct (b_position existing); reflexivity).
  destruct (single_rebuild_facts f st X model existing Hsync Hfind Hlive)
    as (Ho & Hb & Hl & _ & _ & Hs & Hh).
  { intros o. reflexivity. }
  { intros o Hin Hx. split; [exact Hpos |].
    apply (Hsync o existing Hin). rewrite Hx. exact Hlive. }
  assert (Hst' : st' = commitHistory
                         (rebuildBody (f model)
                            (set_objects (update_object X f (objects st)) st))).
  { unfold st', changeShape. rewrite Hsel. cbn [foldl]. rewrite Hfind, Hlive.
    reflexivity. }
  rewrite Hst'. clear Hst'.
  split.
  { rewrite Ho. apply (update_object_first X _ _ _ model Hfind).
    unfold f. destruct (Hsync model existing Hmodel) as [Hp _];
      [rewrite Hid; exact Hlive |].
    rewrite Hpos, <- Hp. destruct model. reflexivity. }
  split; [| split; [| split; [exact Hl | split; [rewrite Hs; exact Hsel | exact Hh]]]].
  - eexists. rewrite Hb, lookup_insert_eq. split; [reflexivity |].
    rewrite body_of_eq. simpl. split; [| split; reflexivity].
    destruct shapeType; reflexivity.
  - intros i Hi. rewrite Hb. apply lookup_insert_ne.
    intros Heq. apply Hi. symmetry. exact Heq.
Qed.

Lemma changeShape_single_witness :
  let st := perform (PlaceModel (mkVec 100 100) (circle 20) dynamic) startup in
  exists model,
    Reachable st /\ selectedIds st = ["obj-1"%string] /\
    find_object "obj-1" (objects st) = Some model /\
    selectedIds (changeShape (fun _ => mkVec 40 30) t_rectangle st) = ["obj-1"%string].
Proof.
  intros st.
  assert (Hreach : Reachable st) by (repeat apply reach_step; apply reach_init).
  destruct (first_placed_facts (mkVec 100 100) (circle 20) dynamic startup eq_refl)
    as [Hsel Hfind].
  eexists. split; [exact Hreach |]. split; [exact Hsel |]. split; [exact Hfind |].
  destruct (changeShape_single (fun _ => mkVec 40 30) t_rectangle st "obj-1" _
              Hreach Hsel Hfind)
    as (existing & _ & _ & _ & _ & _ & Hs & _).
  exact Hs.
Defined.

Lemma commitHistory_synced_objects (st : Playground) :
  synced st -> objects (commitHistory st) = objects st.
Proof.
  intros Hsync. rewrite commitHistory_objects. apply sync_map_fixed. exact Hsync.
Qed.

(** X21. With one object selected in a reachable state,
    [changePolygonSides] stores the requested number of sides in a
    polygon's shape and rebuilds its body with the same radius, material
    and motion, but the body never has fewer than 3 sides and gets 5 when
    0 is requested, whatever the model records; on an object that is not
    a polygon nothing changes in the model or the bodies.  In both cases
    one history entry is committed. *)
Theorem changePolygonSides_single
    (sides : Z) (st : Playground) (X : string) (model : SceneObject) :
  Reachable st -> selectedIds st = [X] ->
  find_object X (objects st) = Some model ->
  let st' := changePolygonSides sides st in
  history st' = JS.slice0 (historyIndex st + 1) (history st) ++ [model_of st'] /\
  links st' = links st /\ selectedIds st' = [X] /\
  match o_shape model with
  | polygon n r =>
      objects st' = update_object X (set_o_shape (polygon sides r)) (objects st) /\
      exists existing b,
        bodyMap st !! X = Some existing /\ bodyMap st' !! X = Some b /\
        b_geometry b = g_polygon (if sides =? 0 then 5 else Z.max 3 sides) r /\
        b_opts b = opts_of model /\ kinematics b = kinematics existing
  | _ => objects st' = objects st /\ bodyMap st' = bodyMap st
  end.
Proof.
  intros Hreach Hsel Hfind st'.
  destruct (reachable_body_of_object st X model Hreach Hfind) as [existing Hlive].
  pose proof (reachable_synced st Hreach) as Hsync.
  destruct (o_shape model) as [r | w h | n r] eqn:Hshape.
  - assert (Hst' : st' = commitHistory st).
    { unfold st', changePolygonSides. rewrite Hsel. cbn [foldl].
      rewrite Hfind, Hshape. reflexivity. }
    rewrite Hst'.
    split; [exact (proj1 (commitHistory_history st)) |].
    split; [exact (proj2 (proj2 (commitHistory_counters st))) |].
    split; [rewrite commitHistory_selectedIds; exact Hsel |].
    split; [exact (commitHistory_synced_objects st Hsync) | reflexivity].
  - assert (Hst' : st' = commitHistory st).
    { unfold st', changePolygonSides. rewrite Hsel. cbn [foldl].
      rewrite Hfind, Hshape. reflexivity. }
    rewrite Hst'.
    split; [exact (proj1 (commitHistory_history st)) |].
    split; [exact (proj2 (proj2 (commitHistory_counters st))) |].
    split; [rewrite commitHistory_selectedIds; exact Hsel |].
    split; [exact (commitHistory_synced_objects st Hsync) | reflexivity].
  - set (f := set_o_shape (polygon sides r)).
    assert (Hst' : st' = commitHistory
                           (rebuildBody (f model)
                              (set_objects (update_object X f (objects st)) st))).
    { unfold st', changePolygonSides. rewrite Hsel. cbn [foldl].
      rewrite Hfind, Hshape. reflexivity. }
    destruct (single_rebuild_facts f st X model existing Hsync Hfind Hlive)
      as (Ho & Hb & Hl & _ & _ & Hs & Hh).
    { intros o. reflexivity. }
    { intros o Hin Hx. apply (Hsync o existing Hin). rewrite Hx. exact Hlive. }
    rewrite Hst'. clear Hst'.
    split; [exact Hh |]. split; [exact Hl |]. split; [rewrite Hs; exact Hsel |].
    split; [exact Ho |].
    exists existing. eexists. split; [exact Hlive |].
    rewrite Hb, lookup_insert_eq. split; [reflexivity |].
    rewrite body_of_eq. simpl. split; [| split; reflexivity].
    unfold JS.or_num. destruct (sides =? 0); reflexivity.
Qed.

Lemma changePolygonSides_single_witness :
  let st := perform (PlaceModel (mkVec 100 100) (polygon 5 20) dynamic) startup in
  exists model,
    Reachable st /\ selectedIds st = ["obj-1"%string] /\
    find_object "obj-1" (objects st) = Some model /\
    selectedIds (changePolygonSides 2 st) = ["obj-1"%string].
Proof.
  intros st.
  assert (Hreach : Reachable st) by (repeat apply reach_step; apply reach_init).
  destruct (first_placed_facts (mkVec 100 100) (polygon 5 20) dynamic startup eq_refl)
    as [Hsel Hfind].
  eexists. split; [exact Hreach |]. split; [exact Hsel |]. split; [exact Hfind |].
  exact (proj1 (proj2 (proj2
           (changePolygonSides_single 2 st "obj-1" _ Hreach Hsel Hfind)))).
Defined.

(** ** Saving and loading back *)


Lemma commitHistory_bodyMap (st : Playground) :
  bodyMap (commitHistory st) = bodyMap st.
Proof. reflexivity. Qed.




(** ** Deleting a selection of several objects *)

Lemma deleteSelection_each_index (st : Playground) (X : string) :
  historyIndex (deleteSelection_each st X) = historyIndex st.
Proof.
  unfold deleteSelection_each.
  set (s0 := set_objects _ (set_bodyMap _ _)).
  destruct (removeLinksFor_spec X s0) as (_ & _ & _ & _ & _ & _ & _ & Hi & _).
  cbv zeta. rewrite Hi. subst s0.
  destruct (bodyMap st !! X); reflexivity.
Qed.

Lemma filter_all {A} (P : A -> Prop) `{forall x, Decision (P x)} (l : list A) :
  (forall x, x ∈ l -> P x) -> filter P l = l.
Proof.
  induction l as [| a l IH]; intros Hall; [reflexivity |].
  rewrite filter_cons. destruct (decide (P a)) as [_ | Hno].
  - rewrite IH by (intros x Hx; apply Hall; right; exact Hx). reflexivity.
  - exfalso. apply Hno, Hall. left.
Qed.

Lemma deleteSelection_loop_model (sel : list string) :
  forall st : Playground,
    let s := foldl deleteSelection_each st sel in
    ids (objects s) = filter (fun i => i ∉ sel) (ids (objects st)) /\
    links s = filter (fun l => (l_a l ∉ sel) /\ (l_b l ∉ sel)) (links st) /\
    (forall i, bodyMap s !! i = (if decide (i ∈ sel) then None else bodyMap st !! i)) /\
    nextId s = nextId st /\ nextLinkId s = nextLinkId st /\
    history s = history st /\ historyIndex s = historyIndex st.
Proof.
  induction sel as [| X sel IH]; intros st; cbn [foldl].
  - split; [symmetry; apply filter_all; intros i _ Hin; inversion Hin |].
    split; [symmetry; apply filter_all; intros l _;
            split; intros Hin; inversion Hin |].
    split; [| repeat split]. intros i.
    destruct (decide (i ∈ [])) as [Hin | _]; [inversion Hin | reflexivity].
  - destruct (IH (deleteSelection_each st X)) as (Ho & Hl & Hb & Hn & Hk & Hh & Hi).
    destruct (deleteSelection_each_facts st X) as (Ho1 & Hl1 & Hn1 & Hk1 & Hh1 & Hb1).
    cbv zeta. rewrite Ho, Hl, Hn, Hk, Hh, Hi, Ho1, Hl1, Hn1, Hk1, Hh1,
      (deleteSelection_each_index st X).
    split; [| split; [| split; [| repeat split]]].
    + rewrite list_filter_filter. apply list_filter_iff. intros i.
      rewrite elem_of_cons. split.
      * intros [Hns Hne] [Heq | Hin]; [exact (Hne Heq) | exact (Hns Hin)].
      * intros Hno. split; [intros Hin; apply Hno; right; exact Hin |].
        intros Heq. apply Hno. left. exact Heq.
    + rewrite list_filter_filter. apply list_filter_iff. intros l.
      rewrite !elem_of_cons. unfold touches.
      destruct (String.eqb_spec (l_a l) X) as [Ha | Ha];
        destruct (String.eqb_spec (l_b l) X) as [Hb' | Hb']; simpl;
        intuition congruence.
    + intros i. rewrite Hb, Hb1.
      destruct (decide (i ∈ sel)) as [Hin | Hout].
      * rewrite decide_True by (right; exact Hin). reflexivity.
      * destruct (decide (i = X)) as [-> | Hne].
        -- rewrite decide_True by left. apply lookup_delete_eq.
        -- rewrite decide_False
             by (intros Hin; apply elem_of_cons in Hin as [? | ?]; contradiction).
           apply lookup_delete_ne. congruence.
Qed.

(** X23. Deleting a selection of any size removes exactly the selected
    objects and their bodies, and exactly the links with a selected
    endpoint; the other objects, bodies and links stay in order; the
    selection and the constraint anchor are cleared, the counters do not
    move, and the whole deletion is one history entry. *)
Theorem deleteSelection_removes_selection (st : Playground) :
  selectedIds st <> [] ->
  let sel := selectedIds st in
  let st' := deleteSelection st in
  ids (objects st') = filter (fun i => i ∉ sel) (ids (objects st)) /\
  links st' = filter (fun l => (l_a l ∉ sel) /\ (l_b l ∉ sel)) (links st) /\
  (forall X, X ∈ sel -> bodyMap st' !! X = None) /\
  (forall Y, Y ∉ sel -> bodyMap st' !! Y = bodyMap st !! Y) /\
  selectedIds st' = [] /\ constraintAnchor st' = None /\
  nextId st' = nextId st /\ nextLinkId st' = nextLinkId st /\
  history st' = JS.slice0 (historyIndex st + 1) (history st) ++ [model_of st'].
Proof.
  intros Hsel sel st'.
  destruct (deleteSelection_loop_model sel st) as (Ho & Hl & Hb & Hn & Hk & Hh & Hi).
  assert (Hst' : st' = commitHistory
                         (clearSelection (foldl deleteSelection_each st sel))).
  { unfold st', deleteSelection, sel.
    destruct (selectedIds st); [contradiction | reflexivity]. }
  remember (foldl deleteSelection_each st sel) as S0 eqn:ES. clear ES.
  rewrite Hst'. clear Hst'.
  split.
  { unfold ids.
    change (objects (commitHistory (clearSelection S0)))
      with (objects (syncModelTransforms (clearSelection S0))).
    rewrite syncModelTransforms_ids. exact Ho. }
  split; [rewrite (proj2 (proj2 (commitHistory_counters _))); exact Hl |].
  rewrite commitHistory_bodyMap.
  change (bodyMap (clearSelection S0)) with (bodyMap S0).
  split; [intros X HX; rewrite Hb, decide_True by exact HX; reflexivity |].
  split; [intros Y HY; rewrite Hb, decide_False by exact HY; reflexivity |].
  split; [reflexivity |]. split; [reflexivity |].
  split; [exact Hn |]. split; [exact Hk |].
  rewrite (proj1 (commitHistory_history (clearSelection S0))).
  change (history (clearSelection S0)) with (history S0).
  change (historyIndex (clearSelection S0)) with (historyIndex S0).
  rewrite Hh, Hi. reflexivity.
Qed.

Lemma deleteSelection_removes_selection_witness :
  selectedIds linked_pair <> [] /\
  links (deleteSelection linked_pair) = [] /\
  ids (objects (deleteSelection linked_pair)) = ["obj-2"%string].
Proof.
  assert (Hsel : selectedIds linked_pair <> []) by discriminate.
  split; [exact Hsel |].
  destruct (deleteSelection_removes_selection linked_pair Hsel) as (Ho & Hl & _).
  split.
  - rewrite Hl. reflexivity.
  - rewrite Ho. reflexivity.
Defined.

(** ** One action, at most one undo step *)

Lemma undo_model (st : Playground) (s : Snapshot) :
  0 < historyIndex st ->
  js_index (history st) (historyIndex st - 1) = Some s ->
  s_nextLinkId s <> 0 ->
  model_of (undo st) = s /\ historyIndex (undo st) = historyIndex st - 1.
Proof.
  intros Hpos Hs Hk. unfold undo.
  destruct (Z.leb_spec (historyIndex st) 0); [lia |].
  simpl. rewrite Hs.
  destruct (applySnapshot_frame s (set_historyIndex (historyIndex st - 1) st))
    as (_ & _ & Hi & _).
  rewrite Hi, (model_of_applySnapshot _ _ Hk). split; reflexivity.
Qed.


Lemma showHint_after (text : string) (c : Playground) :
  history (showHint text c) = history c /\
  historyIndex (showHint text c) = historyIndex c /\
  model_of (showHint text c) = model_of c.
Proof. repeat split. Qed.








(** * Undo, redo and scene loads: link requests, counters and endpoints *)

(** ** Link requests with a missing endpoint *)

(** [createLink] with an endpoint id that has no live body returns
    without touching the state, and without telling its caller. *)
Lemma createLink_missing (st : Playground) (aId bId : string) :
  bodyMap st !! aId = None \/ bodyMap st !! bId = None ->
  createLink aId bId st = st.
Proof.
  intros Hmissing. unfold createLink.
  destruct Hmissing as [Ha | Hb].
  - rewrite Ha. reflexivity.
  - rewrite Hb. destruct (bodyMap st !! aId); reflexivity.
Qed.

Lemma applySnapshot_each_constraintAnchor (st : Playground) (model : SceneObject) :
  constraintAnchor (applySnapshot_each st model) = constraintAnchor st.
Proof. reflexivity. Qed.

Lemma attachLink_constraintAnchor (link : SpringLink) (st : Playground) :
  constraintAnchor (attachLink link st) = constraintAnchor st.
Proof.
  unfold attachLink.
  destruct (bodyMap st !! l_a link), (bodyMap st !! l_b link); reflexivity.
Qed.

(** [applySnapshot], hence [undo] and [redo], leave the pending anchor
    of the constraint tool where it is. *)
Lemma applySnapshot_constraintAnchor (s : Snapshot) (st : Playground) :
  constraintAnchor (applySnapshot s st) = constraintAnchor st.
Proof.
  unfold applySnapshot.
  apply (foldl_preserves (fun x => constraintAnchor x = constraintAnchor st)).
  { intros x link Hx. rewrite attachLink_constraintAnchor. exact Hx. }
  apply (foldl_preserves (fun x => constraintAnchor x = constraintAnchor st)).
  { intros x model Hx. rewrite applySnapshot_each_constraintAnchor. exact Hx. }
  reflexivity.
Qed.

Lemma undo_constraintAnchor (st : Playground) :
  constraintAnchor (undo st) = constraintAnchor st.
Proof.
  unfold undo. destruct (Z.leb (historyIndex st) 0); [reflexivity |].
  cbv zeta.
  destruct (js_index (history (set_historyIndex (historyIndex st - 1) st))
              (historyIndex (set_historyIndex (historyIndex st - 1) st)));
    [| reflexivity].
  rewrite applySnapshot_constraintAnchor. reflexivity.
Qed.

Lemma objId_nonempty (m : Z) : objId m <> ""%string.
Proof. unfold objId. discriminate. Qed.

(** The second click of the constraint tool when the object of the
    first click is gone: [createLink] returns early, and the handler
    goes on to commit a history entry and to announce a constraint. *)
Lemma stale_anchor_commits (st : Playground) (anchor body : Body) :
  Reachable st ->
  constraintAnchor st = Some anchor ->
  bodyMap st !! modelId (b_plugin anchor) = None ->
  bodyMap st !! modelId (b_plugin body) = Some body ->
  let st' := handleConstraintPoint (Some body) st in
  st' = showHint "Constraint added • drag to feel the spring"
          (commitHistory (set_constraintAnchor None st)) /\
  links st' = links st /\
  linkMap st' = linkMap st /\
  historyIndex st' = historyIndex st + 1 /\
  history st' = JS.slice0 (historyIndex st + 1) (history st) ++ [model_of st'] /\
  hint st' = "Constraint added • drag to feel the spring".
Proof.
  intros Hreach Hanchor Hgone Hlive st'.
  pose proof (reachable_consistent st Hreach) as Hc.
  assert (Hid : modelId (b_plugin body) <> ""%string).
  { destruct Hc as (((Hobj & _) & _) & _ & Hb).
    destruct (Hobj (modelId (b_plugin body))) as (m & -> & _).
    - apply Hb. rewrite Hlive. eauto.
    - apply objId_nonempty. }
  assert (Hne : modelId (b_plugin anchor) <> modelId (b_plugin body)).
  { intros Heq. rewrite Heq, Hlive in Hgone. discriminate Hgone. }
  assert (Hst' : st' = showHint "Constraint added • drag to feel the spring"
                         (commitHistory (set_constraintAnchor None st))).
  { unfold st'. rewrite (handleConstraintPoint_second anchor body st Hanchor Hid Hne).
    rewrite (createLink_missing st _ _ (or_introl Hgone)). reflexivity. }
  split; [exact Hst' |].
  destruct (reachable_anchored st Hreach) as (s & Hs & _).
  apply js_index_range in Hs.
  remember (set_constraintAnchor None st) as S eqn:HS.
  assert (HhS : history S = history st) by (subst S; reflexivity).
  assert (HiS : historyIndex S = historyIndex st) by (subst S; reflexivity).
  assert (HlS : links S = links st) by (subst S; reflexivity).
  assert (HmS : linkMap S = linkMap st) by (subst S; reflexivity).
  clear HS.
  destruct (showHint_after "Constraint added • drag to feel the spring"
              (commitHistory S)) as (Hh & Hi & Hm).
  destruct (commitHistory_history S) as (HhC & _).
  destruct (commitHistory_counters S) as (_ & _ & HlC).
  assert (Hlinks : links st' = links st).
  { rewrite Hst'. transitivity (links (commitHistory S)); [reflexivity |].
    rewrite HlC. exact HlS. }
  split; [exact Hlinks |].
  split.
  { rewrite Hst'. transitivity (linkMap (commitHistory S)); [reflexivity |].
    transitivity (linkMap S); [reflexivity | exact HmS]. }
  split.
  { rewrite Hst', Hi, commitHistory_index by (rewrite HhS, HiS; lia).
    rewrite HiS. reflexivity. }
  split.
  { rewrite Hst', Hh, Hm, HhC, HhS, HiS. reflexivity. }
  rewrite Hst'. reflexivity.
Qed.

Lemma constraintClick_reachable (id : string) (st : Playground) :
  Reachable st -> Reachable (constraintClick id st).
Proof. intros H. exact (reach_step (HandleConstraintPoint (bodyMap st !! id)) st H). Qed.

Lemma stale_anchor_scene_reachable : Reachable stale_anchor_scene.
Proof.
  unfold stale_anchor_scene.
  apply reach_step, constraintClick_reachable, reach_step.
  unfold drawn_pair. do 2 apply reach_step. apply reach_init.
Qed.

Lemma redo_at_end (st : Playground) :
  Z.of_nat (length (history st)) - 1 <= historyIndex st -> redo st = st.
Proof.
  intros Hle. unfold redo.
  destruct (Z.leb_spec (Z.of_nat (length (history st)) - 1) (historyIndex st));
    [reflexivity | lia].
Qed.

(** The guard of the two-click gesture: a second click on the anchor's
    own object changes nothing but the pending anchor and the hint, and
    the hint tells the user to pick a different object. *)
Lemma same_object_click_rejected (st : Playground) (anchor body : Body) :
  constraintAnchor st = Some anchor ->
  modelId (b_plugin body) <> ""%string ->
  modelId (b_plugin anchor) = modelId (b_plugin body) ->
  let st' := handleConstraintPoint (Some body) st in
  st' = set_constraintAnchor None (showHint "Pick a different object to connect" st) /\
  objects st' = objects st /\ links st' = links st /\
  nextId st' = nextId st /\ nextLinkId st' = nextLinkId st /\
  history st' = history st /\ historyIndex st' = historyIndex st /\
  bodyMap st' = bodyMap st /\ linkMap st' = linkMap st /\ world st' = world st /\
  hint st' = "Pick a different object to connect"%string.
Proof.
  intros Hanchor Hid Hsame st'. subst st'. unfold handleConstraintPoint.
  rewrite Hanchor.
  destruct (String.eqb_spec (modelId (b_plugin body)) "") as [He | _];
    [contradiction |].
  rewrite Hsame, String.eqb_refl. repeat split.
Qed.

(** C8 fails on the code, on a path the editor offers.  Two circles are
    drawn, the constraint tool is chosen and the second circle is
    clicked; the drawing of the second circle is undone, which removes
    [obj-2] and its body but leaves the pending anchor; then the first
    circle is clicked.  The link request from [obj-2] to [obj-1] has a
    missing endpoint: [createLink] returns early and no link is made.
    Yet the state changes and the user is told of a success:
    [handleConstraintPoint] commits a history entry, which overwrites the
    entry of the undone drawing (it cannot be redone any more), and
    shows "Constraint added".  So a request with a missing endpoint is
    not always left without effect and without a false notice. *)
Lemma stale_anchor_counterexample :
  let st := stale_anchor_scene in
  let st' := constraintClick "obj-1" st in
  (Reachable st /\
   (fun b => modelId (b_plugin b)) <$> constraintAnchor st = Some "obj-2"%string /\
   bodyMap st !! "obj-2" = None /\
   (fun b => modelId (b_plugin b)) <$> bodyMap st !! "obj-1" = Some "obj-1"%string /\
   ids (objects st) = ["obj-1"%string] /\
   links st = [] /\ links st' = [] /\ linkMap st' = ∅ /\
   historyIndex st = 1 /\ historyIndex st' = 2 /\
   (fun s => ids (s_objects s)) <$> js_index (history st) 2
   = Some ["obj-1"; "obj-2"]%string /\
   (fun s => ids (s_objects s)) <$> js_index (history st') 2
   = Some ["obj-1"%string] /\
   redo st' = st' /\
   hint st' = "Constraint added • drag to feel the spring"%string) /\
  ~ (forall (st : Playground) (id : string) (anchor : Body),
        Reachable st ->
        constraintAnchor st = Some anchor ->
        bodyMap st !! modelId (b_plugin anchor) = None ->
        let st' := constraintClick id st in
        history st' = history st /\ historyIndex st' = historyIndex st /\
        hint st' <> "Constraint added • drag to feel the spring"%string).
Proof.
  intros st st'. split.
  - split; [exact stale_anchor_scene_reachable |].
    do 11 (split; [reflexivity |]).
    split; [| reflexivity].
    apply redo_at_end.
    assert (Hlen : length (history st') = 3%nat) by reflexivity.
    assert (Hi : historyIndex st' = 2) by reflexivity.
    rewrite Hlen, Hi. simpl. lia.
  - intros H.
    destruct (constraintAnchor stale_anchor_scene) as [anchor |] eqn:Ha;
      [| discriminate Ha].
    assert (Hgone : bodyMap stale_anchor_scene !! modelId (b_plugin anchor) = None).
    { assert (Hid : modelId (b_plugin anchor) = "obj-2"%string).
      { assert (Hm : (fun b => modelId (b_plugin b)) <$> constraintAnchor stale_anchor_scene
                     = Some "obj-2"%string) by reflexivity.
        rewrite Ha in Hm. injection Hm as Hm. exact Hm. }
      rewrite Hid. reflexivity. }
    destruct (H stale_anchor_scene "obj-1"%string anchor
                stale_anchor_scene_reachable Ha Hgone) as (_ & Hi & _).
    assert (Hbefore : historyIndex stale_anchor_scene = 1) by reflexivity.
    assert (Hafter : historyIndex (constraintClick "obj-1" stale_anchor_scene) = 2)
      by reflexivity.
    lia.
Qed.

(** ** Id counters *)

Lemma undo_counters (st : Playground) (s : Snapshot) :
  consistent st ->
  js_index (history st) (historyIndex st - 1) = Some s ->
  nextId (undo st) = s_nextId s /\ nextLinkId (undo st) = s_nextLinkId s.
Proof.
  intros Hc Hs.
  pose proof (js_index_range _ _ _ Hs) as Hrange.
  pose proof (entry_link_counter st _ s Hc Hs) as Hk.
  destruct (undo_model st s ltac:(lia) Hs Hk) as [Hm _].
  rewrite <- Hm. split; reflexivity.
Qed.

Lemma redo_counters (st : Playground) (s : Snapshot) :
  consistent st ->
  js_index (history st) (historyIndex st + 1) = Some s ->
  nextId (redo st) = s_nextId s /\ nextLinkId (redo st) = s_nextLinkId s.
Proof.
  intros Hc Hs.
  pose proof (js_index_range _ _ _ Hs) as Hrange.
  pose proof (entry_link_counter st _ s Hc Hs) as Hk.
  unfold redo.
  destruct (Z.leb_spec (Z.of_nat (length (history st)) - 1) (historyIndex st)); [lia |].
  simpl. rewrite Hs.
  destruct (applySnapshot_model s (set_historyIndex (historyIndex st + 1) st) Hk)
    as (_ & _ & Hn & Hk').
  split; assumption.
Qed.

Lemma loadScene_given_counters (data : Document) (st : Playground)
    (objs : list SceneObject) :
  d_objects data = Some objs ->
  (forall n, d_nextId data = Some n -> n <> 0 ->
             nextId (fst (loadScene data st)) = n) /\
  (forall k, d_nextLinkId data = Some k -> k <> 0 ->
             nextLinkId (fst (loadScene data st)) = k) /\
  (d_nextLinkId data = None -> nextLinkId (fst (loadScene data st)) = 1).
Proof.
  intros Hobjs. destruct (loadScene_counters data st objs Hobjs) as (Hn & Hk & _).
  split; [| split].
  - intros n Hsome Hne. rewrite Hn, Hsome. simpl. unfold JS.or_num.
    destruct (Z.eqb_spec n 0); [contradiction | reflexivity].
  - intros k Hsome Hne. rewrite Hk, Hsome. simpl. unfold JS.or_num.
    destruct (Z.eqb_spec k 0); [contradiction | reflexivity].
  - intros Hnone. rewrite Hk, Hnone. reflexivity.
Qed.

(** C2, as stated, fails on the code, in each of the ways the amended
    claim gives up.  [resetWorld] assigns 1 to both counters: after one
    object has been placed ([nextId] is 2) a reset brings [nextId] back
    to 1, below the id [obj-1] already issued.  [undo] restores the
    counter of the entry it goes back to: with two objects placed
    ([nextId] is 3) it brings [nextId] back to 2.  [redo] does the same
    with the entry it goes forward to: after placing, resetting and
    undoing the reset ([nextId] is 2), it brings [nextId] back to 1.  A
    scene load takes a counter written in the document as it is: the
    document with the single object [obj-5] and [nextId] 2, loaded after
    two objects were placed, leaves [nextId] at 2, below the counter of
    before and not above the id [obj-5] now present. *)
Lemma counters_rewind_counterexample :
  ~ (forall st : Playground,
        Reachable st -> nextId st <= nextId (resetWorld st)) /\
  ~ (forall st : Playground,
        Reachable st -> nextId st <= nextId (undo st)) /\
  ~ (forall st : Playground,
        Reachable st -> nextId st <= nextId (redo st)) /\
  ~ (forall (data : Document) (objs : list SceneObject) (st : Playground),
        Reachable st -> d_objects data = Some objs ->
        nextId st <= nextId (fst (loadScene data st))) /\
  ~ (forall (data : Document) (objs : list SceneObject) (st : Playground),
        Reachable st -> d_objects data = Some objs ->
        let st' := fst (loadScene data st) in
        counters_ok (ids (objects st')) (links st') (nextId st') (nextLinkId st')).
Proof.
  set (st1 := perform (PlaceModel (mkVec 100 100) (circle 20) dynamic) startup).
  assert (Hr1 : Reachable st1) by (apply reach_step, reach_init).
  assert (Hrd : Reachable drawn_pair) by (apply reach_step, Hr1).
  set (data := mkDocument (Some [demo_object "obj-5" 100 100]) None (Some 2) (Some 1)).
  split; [| split; [| split; [| split]]].
  - intros H. specialize (H st1 Hr1).
    assert (Hbefore : nextId st1 = 2) by reflexivity.
    assert (Hafter : nextId (resetWorld st1) = 1) by reflexivity.
    lia.
  - intros H. specialize (H drawn_pair Hrd).
    assert (Hbefore : nextId drawn_pair = 3) by reflexivity.
    assert (Hafter : nextId (undo drawn_pair) = 2) by reflexivity.
    lia.
  - intros H.
    assert (Hr : Reachable (perform Undo (perform ResetWorld st1)))
      by (do 2 apply reach_step; exact Hr1).
    specialize (H _ Hr).
    assert (Hbefore : nextId (perform Undo (perform ResetWorld st1)) = 2) by reflexivity.
    assert (Hafter : nextId (redo (perform Undo (perform ResetWorld st1))) = 1)
      by reflexivity.
    lia.
  - intros H. specialize (H data _ drawn_pair Hrd eq_refl).
    assert (Hbefore : nextId drawn_pair = 3) by reflexivity.
    rewrite (proj1 (loadScene_given_counters data drawn_pair _ eq_refl) 2 eq_refl) in H
      by discriminate.
    lia.
  - intros H. specialize (H data _ drawn_pair Hrd eq_refl). cbv zeta in H.
    destruct H as (Hobj & _).
    rewrite (proj1 (loadScene_given_counters data drawn_pair _ eq_refl) 2 eq_refl) in Hobj
      by discriminate.
    rewrite (loadScene_objects data drawn_pair _ eq_refl) in Hobj.
    unfold ids in Hobj. rewrite settle_ids in Hobj. simpl in Hobj.
    destruct (Hobj "obj-5"%string ltac:(left)) as (m & Hm & Hrange).
    assert (m = 1) as -> by lia. discriminate Hm.
Qed.

(** C2, amended.  In every state reached from the start state by editor
    actions other than a scene load, [nextId] and [nextLinkId] are at
    least 1 and strictly above the number of every object id and link
    id present in the model, and the same holds inside every history
    entry for the counters recorded there.  Every action other than
    reset, undo and redo leaves the counters where they are or raises
    them; [resetWorld] sets both to 1; [undo] and [redo] set them to the
    counters recorded in the history entry they restore.  A scene load,
    from any state, sets a counter to the value written in the document
    when that value is present and not 0 (and [nextLinkId] to 1 when the
    document has none), whatever ids the document holds. *)
Theorem counters_exceed_present_ids
    (st st0 : Playground) (a : Action) (s : Snapshot)
    (data : Document) (objs : list SceneObject) :
  (Reachable st ->
   counters_ok (ids (objects st)) (links st) (nextId st) (nextLinkId st) /\
   Forall (fun s => counters_ok (ids (s_objects s)) (s_links s)
                                (s_nextId s) (s_nextLinkId s))
          (history st) /\
   (rewinds a = false ->
    nextId st <= nextId (perform a st) /\
    nextLinkId st <= nextLinkId (perform a st)) /\
   nextId (resetWorld st) = 1 /\ nextLinkId (resetWorld st) = 1 /\
   (js_index (history st) (historyIndex st - 1) = Some s ->
    nextId (undo st) = s_nextId s /\ nextLinkId (undo st) = s_nextLinkId s) /\
   (js_index (history st) (historyIndex st + 1) = Some s ->
    nextId (redo st) = s_nextId s /\ nextLinkId (redo st) = s_nextLinkId s)) /\
  (d_objects data = Some objs ->
   (forall n, d_nextId data = Some n -> n <> 0 ->
              nextId (fst (loadScene data st0)) = n) /\
   (forall k, d_nextLinkId data = Some k -> k <> 0 ->
              nextLinkId (fst (loadScene data st0)) = k) /\
   (d_nextLinkId data = None -> nextLinkId (fst (loadScene data st0)) = 1)).
Proof.
  split; [| apply loadScene_given_counters].
  intros Hreach.
  pose proof (reachable_consistent st Hreach) as Hst.
  split; [exact (proj1 (proj1 Hst)) |]. split; [| split; [| split; [| split; [| split]]]].
  - destruct Hst as (_ & Hh & _).
    eapply Forall_impl; [exact Hh |]. intros s' [Hs _]. exact Hs.
  - apply perform_counters, Hst.
  - reflexivity.
  - reflexivity.
  - apply undo_counters, Hst.
  - apply redo_counters, Hst.
Qed.

Lemma counters_exceed_present_ids_witness :
  let st := perform (PlaceModel (mkVec 100 100) (circle 20) dynamic) startup in
  let data := mkDocument (Some [demo_object "obj-5" 100 100]) None (Some 2) (Some 1) in
  Reachable st /\ rewinds DuplicateSelection = false /\
  (forall i, i ∈ ids (objects st) -> exists m, i = objId m /\ 1 <= m < nextId st) /\
  nextId st <= nextId (perform DuplicateSelection st) /\
  js_index (history st) (historyIndex st - 1) = Some (mkSnapshot [] [] 1 1) /\
  nextId (undo st) = 1 /\
  nextId (fst (loadScene data two_objects)) = 2.
Proof.
  intros st data.
  assert (Hreach : Reachable st) by (apply reach_step, reach_init).
  assert (Hs : js_index (history st) (historyIndex st - 1) = Some (mkSnapshot [] [] 1 1))
    by reflexivity.
  destruct (counters_exceed_present_ids st two_objects DuplicateSelection
              (mkSnapshot [] [] 1 1) data [demo_object "obj-5" 100 100])
    as (Hlive & Hload).
  destruct (Hlive Hreach) as ((Hobj & _) & _ & Hmono & _ & _ & Hundo & _).
  destruct (Hload eq_refl) as (Hn & _).
  split; [exact Hreach |]. split; [reflexivity |].
  split; [exact Hobj |]. split; [apply Hmono; reflexivity |].
  split; [exact Hs |]. split; [exact (proj1 (Hundo Hs)) |].
  apply Hn; [reflexivity | discriminate].
Defined.

(** ** Link endpoints *)

(** The loop [links.forEach(link => attachLink(link))]: afterwards a
    link id has a constraint exactly when it had one before or one of
    the links with that id has both endpoint bodies. *)
Lemma attach_loop_keys (ls : list SpringLink) (k : string) :
  forall s,
    is_Some (linkMap (foldl (fun st link => attachLink link st) s ls) !! k) <->
    is_Some (linkMap s !! k) \/
    exists l, l ∈ ls /\ l_id l = k /\
              is_Some (bodyMap s !! l_a l) /\ is_Some (bodyMap s !! l_b l).
Proof.
  induction ls as [| a ls IH]; intros s; simpl.
  - split; [intros H; left; exact H |].
    intros [H | (l & Hl & _)]; [exact H | inversion Hl].
  - rewrite IH. rewrite attachLink_linkMap.
    rewrite (proj1 (attachLink_frame a s)).
    split.
    + intros [Hk | (l & Hl & Hid & Ha & Hb)].
      * destruct (bodyMap s !! l_a a) as [bodyA |] eqn:HA;
          [| left; exact Hk].
        destruct (bodyMap s !! l_b a) as [bodyB |] eqn:HB;
          [| left; exact Hk].
        destruct (decide (l_id a = k)) as [Heq | Hne].
        -- right. exists a. split; [left |]. split; [exact Heq |].
           rewrite HA, HB. split; eauto.
        -- rewrite lookup_insert_ne in Hk by exact Hne. left; exact Hk.
      * right. exists l. split; [right; exact Hl |]. auto.
    + intros [Hk | (l & Hl & Hid & Ha & Hb)].
      * left. destruct (bodyMap s !! l_a a), (bodyMap s !! l_b a); try exact Hk.
        destruct (decide (l_id a = k)) as [Heq | Hne].
        -- rewrite Heq, lookup_insert_eq. eauto.
        -- rewrite lookup_insert_ne by exact Hne. exact Hk.
      * apply elem_of_cons in Hl as [-> | Hl].
        -- left. destruct Ha as [bodyA ->], Hb as [bodyB ->].
           rewrite Hid, lookup_insert_eq. eauto.
        -- right. exists l. auto.
Qed.

Lemma applySnapshot_has_body (s : Snapshot) (st : Playground) (id : string) :
  is_Some (bodyMap (applySnapshot s st) !! id) <-> id ∈ ids (s_objects s).
Proof.
  pose proof (applySnapshot_bodies s st id) as Hb.
  split.
  - intros Hsome.
    destruct (last_with_id id (s_objects s)) as [o |] eqn:Ho.
    + pose proof (last_with_id_id _ _ _ Ho) as <-.
      apply list_elem_of_fmap_2, (last_with_id_in _ _ _ Ho).
    + rewrite Hb in Hsome. destruct Hsome as [? Hsome]. discriminate Hsome.
  - intros Hin. destruct (last_with_id_some id (s_objects s) Hin) as [o Ho].
    rewrite Ho in Hb. destruct Hb as [h ->]. eauto.
Qed.

(** After [applySnapshot] a link id has a constraint exactly when one of
    the snapshot's links with that id has both endpoints among the
    snapshot's objects. *)
Lemma applySnapshot_linkMap_iff (s : Snapshot) (st : Playground) (k : string) :
  is_Some (linkMap (applySnapshot s st) !! k) <->
  exists l, l ∈ s_links s /\ l_id l = k /\
            l_a l ∈ ids (s_objects s) /\ l_b l ∈ ids (s_objects s).
Proof.
  assert (Hbodies : forall id,
             is_Some (bodyMap (applySnapshot s st) !! id) <-> id ∈ ids (s_objects s))
    by apply applySnapshot_has_body.
  revert Hbodies. unfold applySnapshot.
  match goal with |- context [foldl applySnapshot_each ?s0 ?objs] =>
    set (S1 := foldl applySnapshot_each s0 objs);
    assert (HS1 : links S1 = s_links s /\ linkMap S1 = ∅)
      by (unfold S1; destruct (applySnapshot_loop_links objs s0) as [-> ->];
          split; reflexivity)
  end.
  destruct HS1 as [Hl Hm]. rewrite Hl.
  rewrite (loop_bodyMap (fun st link => attachLink link st)
             (fun st l => proj1 (attachLink_frame l st))).
  intros Hbodies. rewrite attach_loop_keys, Hm.
  split.
  - intros [Hk | (l & Hin & Hid & Ha & Hb)].
    + rewrite lookup_empty in Hk. destruct Hk as [? Hk]. discriminate Hk.
    + exists l. rewrite <- !Hbodies. auto.
  - intros (l & Hin & Hid & Ha & Hb). right. exists l. rewrite !Hbodies. auto.
Qed.

Lemma commitHistory_linkMap (st : Playground) :
  linkMap (commitHistory st) = linkMap st.
Proof. reflexivity. Qed.

Lemma loadScene_linkMap (data : Document) (objs : list SceneObject)
    (st : Playground) (k : string) :
  d_objects data = Some objs ->
  is_Some (linkMap (fst (loadScene data st)) !! k) <->
  exists l, l ∈ default [] (d_links data) /\ l_id l = k /\
            l_a l ∈ ids objs /\ l_b l ∈ ids objs.
Proof.
  intros Hobjs. rewrite (loadScene_commit data objs st Hobjs).
  unfold fst. rewrite commitHistory_linkMap, applySnapshot_linkMap_iff.
  reflexivity.
Qed.

Lemma attachLink_guard (link : SpringLink) (st : Playground) :
  (bodyMap st !! l_a link = None \/ bodyMap st !! l_b link = None ->
   attachLink link st = st) /\
  (is_Some (bodyMap st !! l_a link) -> is_Some (bodyMap st !! l_b link) ->
   is_Some (linkMap (attachLink link st) !! l_id link)).
Proof.
  split.
  - intros [Ha | Hb]; unfold attachLink.
    + rewrite Ha. reflexivity.
    + rewrite Hb. destruct (bodyMap st !! l_a link); reflexivity.
  - intros [bodyA Ha] [bodyB Hb]. rewrite attachLink_linkMap, Ha, Hb.
    rewrite lookup_insert_eq. eauto.
Qed.

(** C4, as stated, fails on the code: a loaded document is taken as it
    is.  A link whose endpoint is not among the document's objects stays
    in [this.links] ([attachLink] merely creates no constraint for it). *)
Lemma loadScene_dangling_link_counterexample :
  ~ (forall (data : Document) (st : Playground) (objs : list SceneObject),
        d_objects data = Some objs ->
        endpoints_ok (ids (objects (fst (loadScene data st))))
                     (links (fst (loadScene data st)))).
Proof.
  intros H.
  set (objs := [demo_object "obj-1" 100 100]).
  set (lnk := mkLink "link-1" "obj-1" "obj-7" (mkOptions 0.04 0.02 220)).
  set (data := mkDocument (Some objs) (Some [lnk]) None None).
  specialize (H data two_objects objs eq_refl).
  rewrite (proj2 (proj2 (loadScene_counters data two_objects objs eq_refl))) in H.
  rewrite (loadScene_objects data two_objects objs eq_refl) in H.
  unfold ids in H. rewrite (settle_ids objs) in H.
  destruct (H lnk ltac:(left)) as [_ Hb]. simpl in Hb.
  apply list_elem_of_singleton in Hb. discriminate Hb.
Qed.

(** C4, amended.  In every state reached from the start state by editor
    actions other than a scene load, both endpoints of every link record
    are ids of objects present in the model, in the live model and in
    every history entry, and only present objects have a body; in
    particular the property holds again right after a deletion, an undo
    and a redo.  A scene load, from any state, takes the document as it
    is: the link list becomes the document's list, whether or not the
    endpoints are among the document's objects, and a constraint is
    registered exactly for the link ids that have a link with both
    endpoints among those objects.  [attachLink] does nothing for a link
    with an endpoint that has no body and registers a constraint once
    both have one. *)
Theorem link_endpoints_present
    (st st0 : Playground) (data : Document) (objs : list SceneObject)
    (k : string) (link : SpringLink) :
  (Reachable st ->
   endpoints_ok (ids (objects st)) (links st) /\
   Forall (fun s => endpoints_ok (ids (s_objects s)) (s_links s)) (history st) /\
   (forall i, is_Some (bodyMap st !! i) -> i ∈ ids (objects st)) /\
   endpoints_ok (ids (objects (deleteSelection st))) (links (deleteSelection st)) /\
   endpoints_ok (ids (objects (undo st))) (links (undo st)) /\
   endpoints_ok (ids (objects (redo st))) (links (redo st))) /\
  (d_objects data = Some objs ->
   let st' := fst (loadScene data st0) in
   links st' = default [] (d_links data) /\
   ids (objects st') = ids objs /\
   (is_Some (linkMap st' !! k) <->
    exists l, l ∈ default [] (d_links data) /\ l_id l = k /\
              l_a l ∈ ids objs /\ l_b l ∈ ids objs)) /\
  (bodyMap st0 !! l_a link = None \/ bodyMap st0 !! l_b link = None ->
   attachLink link st0 = st0) /\
  (is_Some (bodyMap st0 !! l_a link) -> is_Some (bodyMap st0 !! l_b link) ->
   is_Some (linkMap (attachLink link st0) !! l_id link)).
Proof.
  split; [| split; [| apply attachLink_guard]].
  - intros Hreach.
    pose proof (reachable_consistent st Hreach) as Hst.
    pose proof (perform_consistent DeleteSelection st Hst) as ((_ & Hdel) & _).
    pose proof (perform_consistent Undo st Hst) as ((_ & Hundo) & _).
    pose proof (perform_consistent Redo st Hst) as ((_ & Hredo) & _).
    destruct Hst as ((_ & He) & Hh & Hb).
    split; [exact He |]. split; [| split; [exact Hb |]].
    + eapply Forall_impl; [exact Hh |]. intros s [_ Hs]. exact Hs.
    + split; [exact Hdel | split; [exact Hundo | exact Hredo]].
  - intros Hobjs st'. subst st'.
    split; [exact (proj2 (proj2 (loadScene_counters data st0 objs Hobjs))) |].
    split; [| apply loadScene_linkMap, Hobjs].
    rewrite (loadScene_objects data st0 objs Hobjs). apply settle_ids.
Qed.

Lemma link_endpoints_present_witness :
  let st := perform (HandleConstraintPoint (Some (stale_body "obj-2")))
              (perform (HandleConstraintPoint (Some (stale_body "obj-1")))
                 (perform (PlaceModel (mkVec 400 100) (circle 20) dynamic)
                    (perform (PlaceModel (mkVec 100 100) (circle 20) dynamic)
                       startup))) in
  let lnk := mkLink "link-1" "obj-1" "obj-7" (mkOptions 0.04 0.02 220) in
  let data := mkDocument (Some [demo_object "obj-1" 100 100]) (Some [lnk]) None None in
  Reachable st /\
  endpoints_ok (ids (objects st)) (links st) /\
  endpoints_ok (ids (objects (deleteSelection st))) (links (deleteSelection st)) /\
  links (fst (loadScene data two_objects)) = [lnk] /\
  linkMap (fst (loadScene data two_objects)) !! "link-1" = None.
Proof.
  intros st lnk data.
  assert (Hreach : Reachable st) by (repeat apply reach_step; apply reach_init).
  destruct (link_endpoints_present st two_objects data [demo_object "obj-1" 100 100]
              "link-1" lnk) as (Hlive & Hload & _).
  destruct (Hlive Hreach) as (He & _ & _ & Hdel & _).
  destruct (Hload eq_refl) as (Hl & _ & Hk).
  split; [exact Hreach |]. split; [exact He |]. split; [exact Hdel |].
  split; [exact Hl |].
  apply eq_None_not_Some. intros Hsome. apply Hk in Hsome.
  destruct Hsome as (l & Hin & _ & _ & Hb).
  apply list_elem_of_singleton in Hin. subst l.
  apply list_elem_of_singleton in Hb. discriminate Hb.
Defined.

(** ** Ids and links across a scene load *)

Lemma applySnapshot_attached (s : Snapshot) (st : Playground) (l : SpringLink) :
  NoDup (map l_id (s_links s)) -> l ∈ s_links s ->
  l_a l ∈ ids (s_objects s) -> l_b l ∈ ids (s_objects s) ->
  attached (applySnapshot s st) l.
Proof.
  intros Hnd Hl Ha Hb.
  pose proof (proj2 (applySnapshot_has_body s st _) Ha) as HA.
  pose proof (proj2 (applySnapshot_has_body s st _) Hb) as HB.
  unfold attached. revert HA HB. unfold applySnapshot.
  rewrite attachLink_loop_bodyMap.
  match goal with |- context [foldl applySnapshot_each ?s0 ?objs] =>
    set (S1 := foldl applySnapshot_each s0 objs);
    assert (HS1 : links S1 = s_links s)
      by (unfold S1; rewrite (proj1 (applySnapshot_loop_links objs s0)); reflexivity)
  end.
  intros HA HB. rewrite HS1.
  apply (loop_joins (fun st link => attachLink link st) (fun _ => true)
           (fun st _ => w_next (world st))
           (fun st l => proj1 (attachLink_frame l st))
           (fun st l => attachLink_linkMap l st)); auto.
Qed.

Lemma loadScene_bodyMap (data : Document) (objs : list SceneObject)
    (st : Playground) (id : string) :
  d_objects data = Some objs ->
  is_Some (bodyMap (fst (loadScene data st)) !! id) <-> id ∈ ids objs.
Proof.
  intros Hobjs. rewrite (loadScene_commit data objs st Hobjs).
  unfold fst. rewrite commitHistory_bodyMap, applySnapshot_has_body. reflexivity.
Qed.

Lemma loadScene_attached (data : Document) (objs : list SceneObject)
    (st : Playground) (l : SpringLink) :
  d_objects data = Some objs ->
  (NoDup (map l_id (default [] (d_links data))) ->
   l ∈ default [] (d_links data) -> l_a l ∈ ids objs -> l_b l ∈ ids objs ->
   attached (fst (loadScene data st)) l) /\
  (l_a l ∉ ids objs \/ l_b l ∉ ids objs -> ~ attached (fst (loadScene data st)) l).
Proof.
  intros Hobjs. split.
  - intros Hnd Hl Ha Hb. rewrite (loadScene_commit data objs st Hobjs).
    unfold fst, attached. rewrite commitHistory_bodyMap, commitHistory_linkMap.
    apply (applySnapshot_attached
             (mkSnapshot objs (default [] (d_links data))
                (JS.or_opt_num (d_nextId data) (inferNextId objs))
                (JS.or_opt_num (d_nextLinkId data) 1)) st l); assumption.
  - intros Hmissing (c & bodyA & bodyB & _ & Ha & Hb & _).
    destruct Hmissing as [Hno | Hno]; apply Hno.
    + apply (loadScene_bodyMap data objs st _ Hobjs). rewrite Ha. eauto.
    + apply (loadScene_bodyMap data objs st _ Hobjs). rewrite Hb. eauto.
Qed.

(** X4. In every state that the editor reaches from its start state
    without a scene load, no two objects share an id and no two links
    share an id, in the live model and in every history entry:
    [createModel], [duplicateSelection] and [createLink] never reissue an
    id that is present.  A scene load, from any state, takes the ids of
    the document's objects and links as they are, so right after a load
    the ids are unique exactly when they are in the document. *)
Theorem reachable_ids_unique
    (st st0 : Playground) (data : Document) (objs : list SceneObject) :
  (Reachable st ->
   NoDup (ids (objects st)) /\ NoDup (map l_id (links st)) /\
   Forall (fun s => NoDup (ids (s_objects s)) /\ NoDup (map l_id (s_links s)))
          (history st)) /\
  (d_objects data = Some objs ->
   let st' := fst (loadScene data st0) in
   ids (objects st') = ids objs /\
   links st' = default [] (d_links data) /\
   (NoDup (ids (objects st')) <-> NoDup (ids objs)) /\
   (NoDup (map l_id (links st')) <-> NoDup (map l_id (default [] (d_links data))))).
Proof.
  split.
  - intros Hreach. destruct (reachable_strong st Hreach) as (_ & [Ho Hl] & Hh & _).
    split; [exact Ho |]. split; [exact Hl | exact Hh].
  - intros Hobjs st'. subst st'.
    assert (Hids : ids (objects (fst (loadScene data st0))) = ids objs)
      by (rewrite (loadScene_objects data st0 objs Hobjs); apply settle_ids).
    pose proof (proj2 (proj2 (loadScene_counters data st0 objs Hobjs))) as Hl.
    rewrite Hids, Hl. repeat split; auto.
Qed.

Lemma reachable_ids_unique_witness :
  let st := perform DuplicateSelection
              (perform (PlaceModel (mkVec 100 100) (circle 20) dynamic) startup) in
  let twice := [demo_object "obj-1" 0 0; demo_object "obj-1" 50 50] in
  let data := mkDocument (Some twice) None None None in
  Reachable st /\ NoDup (ids (objects st)) /\
  ids (objects (fst (loadScene data two_objects))) = ["obj-1"; "obj-1"]%string.
Proof.
  intros st twice data.
  assert (Hreach : Reachable st) by (repeat apply reach_step; apply reach_init).
  destruct (reachable_ids_unique st two_objects data twice) as (Hlive & Hload).
  split; [exact Hreach |]. split; [exact (proj1 (Hlive Hreach)) |].
  exact (proj1 (Hload eq_refl)).
Defined.

(** X8. In every state that the editor reaches from its start state
    without a scene load, every link has a constraint in [linkMap] that
    joins the bodies currently registered for its two endpoints and
    carries the link's options: edits that rebuild a body, deletions,
    undo and redo never leave a spring tied to a body that is gone.
    Right after a scene load, from any state, a link of the document
    whose two endpoints are among the document's objects is attached in
    the same way provided the document's link ids are unique, and a link
    with an endpoint that is not among them is not attached. *)
Theorem reachable_links_attached
    (st st0 : Playground) (l : SpringLink)
    (data : Document) (objs : list SceneObject) :
  (Reachable st -> l ∈ links st ->
   exists c bodyA bodyB,
     linkMap st !! l_id l = Some c /\
     bodyMap st !! l_a l = Some bodyA /\ bodyMap st !! l_b l = Some bodyB /\
     c_bodyA c = b_handle bodyA /\ c_bodyB c = b_handle bodyB /\
     c_options c = l_options l) /\
  (d_objects data = Some objs ->
   let st' := fst (loadScene data st0) in
   (NoDup (map l_id (default [] (d_links data))) ->
    l ∈ default [] (d_links data) -> l_a l ∈ ids objs -> l_b l ∈ ids objs ->
    exists c bodyA bodyB,
      linkMap st' !! l_id l = Some c /\
      bodyMap st' !! l_a l = Some bodyA /\ bodyMap st' !! l_b l = Some bodyB /\
      c_bodyA c = b_handle bodyA /\ c_bodyB c = b_handle bodyB /\
      c_options c = l_options l) /\
   (l_a l ∉ ids objs \/ l_b l ∉ ids objs ->
    ~ exists c bodyA bodyB,
        linkMap st' !! l_id l = Some c /\
        bodyMap st' !! l_a l = Some bodyA /\ bodyMap st' !! l_b l = Some bodyB /\
        c_bodyA c = b_handle bodyA /\ c_bodyB c = b_handle bodyB /\
        c_options c = l_options l)).
Proof.
  split.
  - intros Hreach Hl. exact (reachable_wired st Hreach l Hl).
  - intros Hobjs st'. exact (loadScene_attached data objs st0 l Hobjs).
Qed.

Lemma reachable_links_attached_witness :
  exists o,
    let l := mkLink "link-1" "obj-1" "obj-2" o in
    Reachable drawn_linked /\ l ∈ links drawn_linked /\
    is_Some (linkMap drawn_linked !! "link-1").
Proof.
  destruct drawn_pair_facts as (Ha & Hk & Hl & [b1 Hb1] & [b2 Hb2]).
  assert (Hreach : Reachable drawn_linked)
    by (repeat apply reach_step; apply reach_init).
  destruct (connect_gesture (demo_body 5%positive "obj-1" 100 100)
              (demo_body 6%positive "obj-2" 400 100) b1 b2 drawn_pair Ha)
    as (Hlinks & _); try discriminate; try assumption.
  rewrite Hl, Hk in Hlinks.
  eexists. cbv zeta.
  assert (Hin : mkLink "link-1" "obj-1" "obj-2"
                  (mkOptions 0.04 0.02
                     (Rmin 220 (Matter.hypot (vx (b_position b2) - vx (b_position b1))
                                             (vy (b_position b2) - vy (b_position b1)))))
                ∈ links drawn_linked).
  { unfold drawn_linked, perform. rewrite Hlinks. left. }
  split; [exact Hreach |]. split; [exact Hin |].
  destruct (proj1 (reachable_links_attached drawn_linked two_objects _
                     (mkDocument None None None None) []) Hreach Hin)
    as (c & _ & _ & Hc & _).
  exists c. exact Hc.
Defined.
